(** * idaes.core.util.initialization

    A shallow embedding of the initialization utilities of IDAES
    ([src/idaes/core/util/initialization.py]): [fix_state_vars],
    [revert_state_vars], [propagate_state], [solve_indexed_blocks] and the
    sequential finite-element initializer [initialize_by_time_element],
    together with the properties of the specification that concern them and
    further properties of the code.

    Python objects that are mutated through references (variables,
    constraints) live in a store keyed by their identity; code that can
    raise is written in a state-and-exception monad in which the state
    survives an exception, as it does in Python. *)

From stdpp Require Import gmap strings list fin_maps pretty.
From Stdlib Require Import QArith.

Open Scope string_scope.
Open Scope list_scope.
Open Scope Z_scope.

(** * Part I: the embedding and the notions the statements use *)

(** ** Python exceptions and the state-and-exception monad *)

Module Py.

Inductive exn : Type :=
  | TypeError (msg : string)
  | ValueError (msg : string)
  | NotImplementedError (msg : string)
  | KeyError
  | IndexError
  | AttributeError
  | NameError
  | Exception_ (msg : string).

Inductive outcome (A : Type) : Type :=
  | Ok (a : A)
  | Raise (e : exn).

Arguments Ok {A} a.
Arguments Raise {A} e.

(** A computation over a mutable state [St]: the state is returned on
    both exits, since a raised exception does not roll anything back. *)
Definition M (St A : Type) : Type := St → outcome A * St.

Definition ret {St A} (a : A) : M St A := λ s, (Ok a, s).

Definition raise {St A} (e : exn) : M St A := λ s, (Raise e, s).

Definition bind {St A B} (m : M St A) (f : A → M St B) : M St B :=
  λ s, match m s with
       | (Ok a, s') => f a s'
       | (Raise e, s') => (Raise e, s')
       end.

Definition gets {St A} (f : St → A) : M St A := λ s, (Ok (f s), s).

Definition modify {St} (f : St → St) : M St unit := λ s, (Ok tt, f s).

(** [try: body finally: fin]. *)
Definition try_finally {St A} (body : M St A) (fin : M St unit) : M St A :=
  λ s, match body s with
       | (r, s') => match fin s' with
                    | (Ok _, s'') => (r, s'')
                    | (Raise e, s'') => (Raise e, s'')
                    end
       end.

(** [try: body except Exception: handler]. *)
Definition try_except {St A} (body : M St A) (handler : exn → M St A) : M St A :=
  λ s, match body s with
       | (Ok a, s') => (Ok a, s')
       | (Raise e, s') => handler e s'
       end.

Declare Scope py_scope.
Delimit Scope py_scope with py.

Notation "x <~ m ; k" := (bind m (λ x, k))
  (at level 20, m at level 100, k at level 200, only parsing) : py_scope.

Notation "m ;; k" := (bind m (λ _, k))
  (at level 100, k at level 200, only parsing, right associativity) : py_scope.

(** [for x in l: body x] *)
Fixpoint for_ {St A} (l : list A) (body : A → M St unit) : M St unit :=
  match l with
  | [] => ret tt
  | x :: l' => bind (body x) (λ _, for_ l' body)
  end.

(** A list comprehension whose element expression can raise. *)
Fixpoint mapM {St A B} (f : A → M St B) (l : list A) : M St (list B) :=
  match l with
  | [] => ret []
  | x :: l' => bind (f x) (λ y, bind (mapM f l') (λ ys, ret (y :: ys)))
  end.

(** [d[k]] on a dict: [KeyError] when the key is absent. *)
Definition getitem {St K V} `{Countable K} (d : gmap K V) (k : K) : M St V :=
  match d !! k with
  | Some v => ret v
  | None => raise KeyError
  end.

(** [range(lo, hi)] *)
Definition range (lo hi : Z) : list Z :=
  map (λ k : nat, lo + Z.of_nat k) (seq 0 (Z.to_nat (hi - lo))).

(** *** Reasoning: postconditions for both exits *)

Definition post {St A} (m : M St A) (s : St)
    (Q : A → St → Prop) (E : exn → St → Prop) : Prop :=
  match m s with
  | (Ok a, s') => Q a s'
  | (Raise e, s') => E e s'
  end.

End Py.

(** ** [propagate_state]: copying values along an Arc *)

Module Ports.
Import Py.
Local Open Scope py_scope.

(** Identity of a variable instance ([id(vardata)]). *)
Definition Ref := nat.

(** Index of an instance inside its component (a tuple; [[]] for a scalar). *)
Definition Index := list Z.

Record VarData := { value : option Q; fixed : bool }.

(** A port member is a Pyomo [Var], mapping indices to instances, or some
    other component (an expression, say), of which only the indices matter. *)
Inductive Member :=
  | IsVar (data : list (Index * Ref))
  | NotVar (keys : list Index).

(** [Port.vars]: member name to member, in insertion order. *)
Record Port := { vars : list (string * Member) }.

Record Arc := { source : Port; destination : Port }.

(** Lookup in an ordered dict. *)
Fixpoint assoc {K V} `{EqDecision K} (k : K) (l : list (K * V)) : option V :=
  match l with
  | [] => None
  | (k', v) :: l' => if decide (k = k') then Some v else assoc k l'
  end.

Definition dict_get {K V} `{EqDecision K} (l : list (K * V)) (k : K)
    : M (gmap Ref VarData) V :=
  match assoc k l with
  | Some v => ret v
  | None => raise KeyError
  end.

Definition member_keys (m : Member) : list Index :=
  match m with
  | IsVar data => data.*1
  | NotVar keys => keys
  end.

Definition is_fixed (s : gmap Ref VarData) (r : Ref) : bool :=
  match s !! r with Some d => fixed d | None => false end.

Definition get_value (s : gmap Ref VarData) (r : Ref) : option Q :=
  match s !! r with Some d => value d | None => None end.

Definition set_value (r : Ref) (v : option Q) (s : gmap Ref VarData) : gmap Ref VarData :=
  alter (λ d, {| value := v; fixed := fixed d |}) r s.

Definition direction_error (direction : string) : exn :=
  ValueError ("Unexpected value for direction argument: (" +:+ direction +:+
              "). Value must be either 'forward' or 'backward'.").

(** The pair [(value_source, value_dest)] chosen by [direction].  The
    [stream] argument is an Arc by typing, so the [isinstance] test of the
    source always passes. *)
Definition ends (stream : Arc) (direction : string) : option (Port * Port) :=
  if decide (direction = "forward") then Some (source stream, destination stream)
  else if decide (direction = "backward") then Some (destination stream, source stream)
  else None.

Definition copy_member (value_source value_dest : Port) (v : string) (i : Index)
    : M (gmap Ref VarData) unit :=
  dest_member <~ dict_get (vars value_dest) v;
  match dest_member with
  | NotVar _ =>
      raise (TypeError ("Port contains one or more members which are " +:+
                        "not Vars. propogate_state works by assigning " +:+
                        "to the value attribute, thus can only be " +:+
                        "when Port members are Pyomo Vars."))
  | IsVar dest_data =>
      d <~ dict_get dest_data i;
      d_fixed <~ gets (λ s, is_fixed s d);
      if d_fixed then ret tt
      else
        src_member <~ dict_get (vars value_source) v;
        s_ref <~ match src_member with
                 | IsVar src_data => dict_get src_data i
                 | NotVar _ => raise AttributeError
                 end;
        val <~ gets (λ s, get_value s s_ref);
        modify (set_value d val)
  end.

Definition propagate_state (stream : Arc) (direction : string)
    : M (gmap Ref VarData) unit :=
  match ends stream direction with
  | None => raise (direction_error direction)
  | Some (value_source, value_dest) =>
      for_ (vars value_source).*1 (λ v,
        src_member <~ dict_get (vars value_source) v;
        for_ (member_keys src_member) (λ i,
          copy_member value_source value_dest v i))
  end.

(** Every variable instance a port refers to. *)
Definition port_refs (p : Port) : list Ref :=
  mjoin ((λ nm, match nm.2 with IsVar data => data.*2 | NotVar _ => [] end) <$> vars p).

(** The values and flags a port shows. *)
Definition port_state (p : Port) (s : gmap Ref VarData) : list (option VarData) :=
  (λ r, s !! r) <$> port_refs p.

(** What a run of the copy loop may change, relative to the store [s0] it
    started from: only instances of the destination port that are not
    fixed, and never a [fixed] flag. *)
Definition touches_only (value_dest : Port) (s0 s : gmap Ref VarData) : Prop :=
  (∀ x, is_fixed s x = is_fixed s0 x) ∧
  (∀ x, x ∉ port_refs value_dest ∨ is_fixed s0 x = true → s !! x = s0 !! x).

(** Two ports that share the instance [2]: it is member ["b"] of the source
    and member ["a"] of the destination. *)
Definition shared_store : gmap Ref VarData :=
  {[ 1%nat := {| value := Some 1%Q; fixed := false |};
     2%nat := {| value := Some 2%Q; fixed := false |};
     3%nat := {| value := Some 3%Q; fixed := false |} ]}.

Definition shared_arc : Arc :=
  {| source := {| vars := [("a", IsVar [([], 1%nat)]); ("b", IsVar [([], 2%nat)])] |};
     destination := {| vars := [("a", IsVar [([], 2%nat)]); ("b", IsVar [([], 3%nat)])] |} |}.

(** Two ports with instances of their own; the destination's ["T"] is fixed. *)
Definition plain_store : gmap Ref VarData :=
  {[ 1%nat := {| value := Some 1%Q; fixed := false |};
     2%nat := {| value := Some 2%Q; fixed := false |};
     3%nat := {| value := None; fixed := false |};
     4%nat := {| value := Some 4%Q; fixed := true |} ]}.

Definition plain_arc : Arc :=
  {| source := {| vars := [("F", IsVar [([], 1%nat)]); ("T", IsVar [([], 2%nat)])] |};
     destination := {| vars := [("F", IsVar [([], 3%nat)]); ("T", IsVar [([], 4%nat)])] |} |}.

(** *** What the loops pair *)

(** [p.vars[v][i]], for a member that is a Var. *)
Definition instance_at (p : Port) (v : string) (i : Index) : option Ref :=
  match assoc v (vars p) with
  | Some (IsVar data) => assoc i data
  | _ => None
  end.

(** The member names and indices the two loops go through, in order. *)
Definition pairs (p : Port) : list (string * Index) :=
  v ← (vars p).*1;
  m ← option_list (assoc v (vars p));
  i ← member_keys m;
  [(v, i)].

Definition not_vars_error : exn :=
  TypeError ("Port contains one or more members which are " +:+
             "not Vars. propogate_state works by assigning " +:+
             "to the value attribute, thus can only be " +:+
             "when Port members are Pyomo Vars.").

End Ports.

(** ** [fix_state_vars] and [revert_state_vars]: fixing the state variables of a StateBlock *)

Module StateBlocks.

(** Identity of a variable instance ([id(vardata)]). *)
Definition Ref := nat.

(** Index of an instance inside its Var: [None] for a scalar Var, a tuple
    of labels otherwise. *)
Abbreviation Index := (option (list string)) (only parsing).

(** What [state_args] may hold for a state variable, and what a variable
    may have as its value: a number (a Python float), or a dict from indices
    to numbers. *)
Inductive PyVal :=
  | Num (q : Q)
  | Dict (d : list (list string * Q)).

Record VarData := { value : option PyVal; fixed : bool }.

(** A Pyomo [Var]: its name and its instances by index, in iteration order. *)
Record Var := { name : string; data : list (Index * Ref) }.

(** A [StateBlockData], of which only [define_state_vars()] is used: the
    state variables by name, in the order of the dict. *)
Record StateBlockData := { define_state_vars : list (string * Var) }.

(** An indexed StateBlock: its members by block index. *)
Abbreviation StateBlock := (list (Z * StateBlockData)) (only parsing).

(** A key [(k, n, i)] of the flags dict. *)
Abbreviation Key := (Z * string * option (list string))%type (only parsing).

(** *** Exceptions and the monad *)

(** [ConfigurationError] is an exception class of IDAES; the others are
    the built-in ones. *)
Inductive exn :=
  | ConfigurationError (msg : string)
  | Builtin (e : Py.exn).

Inductive outcome (A : Type) : Type :=
  | Ok (a : A)
  | Raise (e : exn).

Arguments Ok {A} a.
Arguments Raise {A} e.

Definition M (St A : Type) : Type := St → outcome A * St.

Definition ret {St A} (a : A) : M St A := λ s, (Ok a, s).

Definition raise {St A} (e : exn) : M St A := λ s, (Raise e, s).

Definition bind {St A B} (m : M St A) (f : A → M St B) : M St B :=
  λ s, match m s with
       | (Ok a, s') => f a s'
       | (Raise e, s') => (Raise e, s')
       end.

Definition gets {St A} (f : St → A) : M St A := λ s, (Ok (f s), s).

Definition modify {St} (f : St → St) : M St unit := λ s, (Ok tt, f s).

(** [try: body except KeyError: handler] *)
Definition except_KeyError {St A} (body handler : M St A) : M St A :=
  λ s, match body s with
       | (Raise (Builtin Py.KeyError), s') => handler s'
       | r => r
       end.

Declare Scope sb_scope.
Delimit Scope sb_scope with sb.
Local Open Scope sb_scope.

Notation "x <~ m ; k" := (bind m (λ x, k))
  (at level 20, m at level 100, k at level 200, only parsing) : sb_scope.

Notation "m ;; k" := (bind m (λ _, k))
  (at level 100, k at level 200, only parsing, right associativity) : sb_scope.

Fixpoint for_ {St A} (l : list A) (body : A → M St unit) : M St unit :=
  match l with
  | [] => ret tt
  | x :: l' => bind (body x) (λ _, for_ l' body)
  end.

(** [d[k]] on an ordered dict. *)
Definition dict_get {St K V} `{EqDecision K} (l : list (K * V)) (k : K) : M St V :=
  match Ports.assoc k l with
  | Some v => ret v
  | None => raise (Builtin Py.KeyError)
  end.

(** [d[k]] on the flags dict. *)
Definition getitem {St V : Type} (d : gmap (Z * string * option (list string)) V)
    (k : Z * string * option (list string)) : M St V :=
  match d !! k with
  | Some v => ret v
  | None => raise (Builtin Py.KeyError)
  end.

(** *** Variables *)

Definition is_fixed (s : gmap Ref VarData) (r : Ref) : bool :=
  match s !! r with Some d => fixed d | None => false end.

Definition value_of (s : gmap Ref VarData) (r : Ref) : option PyVal :=
  match s !! r with Some d => value d | None => None end.

(** [var.fix()], [var.fix(val)] and [var.unfix()]; [fix(val)] stores [val]
    as it is given. *)
Definition fix_ (r : Ref) (s : gmap Ref VarData) : gmap Ref VarData :=
  alter (λ d, {| value := value d; fixed := true |}) r s.

Definition fix_at (r : Ref) (val : PyVal) (s : gmap Ref VarData) : gmap Ref VarData :=
  alter (λ _, {| value := Some val; fixed := true |}) r s.

Definition unfix (r : Ref) (s : gmap Ref VarData) : gmap Ref VarData :=
  alter (λ d, {| value := value d; fixed := false |}) r s.

(** *** [fix_state_vars] *)

(** The variables, and the local [flags] being filled. *)
Record FixState := {
  store : gmap Ref VarData;
  flags : gmap (Z * string * option (list string)) bool
}.

Definition set_flag (key : Key) (f : bool) (st : FixState) : FixState :=
  {| store := store st; flags := <[key := f]> (flags st) |}.

Definition on_store (g : gmap Ref VarData → gmap Ref VarData) (st : FixState) : FixState :=
  {| store := g (store st); flags := flags st |}.

Definition args_mismatch (n : string) : exn :=
  ConfigurationError ("Indexes in state_args did not agree with " +:+
                      "those of state variable " +:+ n +:+ ". Please ensure " +:+
                      "that indexes for initial guesses are correct.").

Definition no_value (var_name : string) : exn :=
  ConfigurationError ("State variable " +:+ var_name +:+ " does not have a value " +:+
                      "assigned. This usually occurs when a Var " +:+
                      "is not assigned an initial value when it is " +:+
                      "created. Please ensure all variables have " +:+
                      "valid values before fixing them.").

(** [o[idx]], for [o] an entry of [state_args]: a number cannot be
    subscripted. *)
Definition subscript {St} (o : PyVal) (idx : list string) : M St PyVal :=
  match o with
  | Num _ => raise (Builtin (Py.TypeError "'float' object is not subscriptable"))
  | Dict d =>
      match Ports.assoc idx d with
      | Some q => ret (Num q)
      | None => raise (Builtin Py.KeyError)
      end
  end.

(** [val = state_args[n] if i is None else state_args[n][i]], where [o] is
    [state_args[n]]. *)
Definition guess_for {St} (o : PyVal) (i : Index) : M St PyVal :=
  match i with
  | None => ret o
  | Some idx => subscript o idx
  end.

(** Lines 58-89 for the instance [r = v[i]] of the variable called [n] in
    the block with index [k]. *)
Definition fix_ref (state_args : list (string * PyVal)) (key : Key) (var_name : string)
    (r : Ref) : M FixState unit :=
  f <~ gets (λ st, is_fixed (store st) r);
  modify (set_flag key f);;
  if f then ret tt
  else
    match Ports.assoc key.1.2 state_args with
    | Some o =>
        val <~ except_KeyError (guess_for o key.2) (raise (args_mismatch key.1.2));
        modify (on_store (fix_at r val))
    | None =>
        cur <~ gets (λ st, value_of (store st) r);
        if cur is Some _ then modify (on_store (fix_ r))
        else raise (no_value var_name)
    end.

Definition fix_instance (state_args : list (string * PyVal)) (k : Z) (n : string)
    (v : Var) (i : Index) : M FixState unit :=
  r <~ dict_get (data v) i;
  fix_ref state_args (k, n, i) (name v) r.

Definition fix_loops (state_args : list (string * PyVal)) (blk : StateBlock)
    : M FixState unit :=
  for_ blk.*1 (λ k,
    b <~ dict_get blk k;
    for_ (define_state_vars b) (λ nv,
      for_ (data nv.2).*1 (λ i, fix_instance state_args k nv.1 nv.2 i))).

(** [fix_state_vars(blk, state_args)]: the flags it returns, or the
    exception it raises, and the variables as it leaves them. *)
Definition fix_state_vars (blk : StateBlock) (state_args : option (list (string * PyVal)))
    (s : gmap Ref VarData)
    : outcome (gmap (Z * string * option (list string)) bool) * gmap Ref VarData :=
  let state_args := default [] state_args in
  match fix_loops state_args blk {| store := s; flags := ∅ |} with
  | (Ok _, st) => (Ok (flags st), store st)
  | (Raise e, st) => (Raise e, store st)
  end.

(** *** [revert_state_vars] *)

Definition flags_mismatch : exn :=
  ConfigurationError ("Indices of flags proved do not match with indices of" +:+
                      "the StateBlock. Please make sure you are using the " +:+
                      "correct StateBlock.").

(** Lines 111-118, the lookup [v[i]] left to the caller. *)
Definition revert_ref (flags : gmap (Z * string * option (list string)) bool)
    (key : Key) (get_ref : M (gmap Ref VarData) Ref) : M (gmap Ref VarData) unit :=
  except_KeyError
    (f <~ getitem flags key;
     if f then ret tt else (r <~ get_ref; modify (unfix r)))
    (raise flags_mismatch).

Definition revert_state_vars (blk : StateBlock)
    (flags : gmap (Z * string * option (list string)) bool)
    : M (gmap Ref VarData) unit :=
  for_ blk.*1 (λ k,
    b <~ dict_get blk k;
    for_ (define_state_vars b) (λ nv,
      for_ (data nv.2).*1 (λ i,
        revert_ref flags (k, nv.1, i) (dict_get (data nv.2) i)))).

(** *** The instances the loops visit *)

(** In the order of the three loops: the key [(k, n, i)], the name of the
    variable and the instance [blk[k].define_state_vars()[n][i]]. *)
Definition visits (blk : StateBlock) : list ((Z * string * option (list string)) * string * Ref) :=
  k ← blk.*1;
  b ← option_list (Ports.assoc k blk);
  nv ← define_state_vars b;
  i ← (data nv.2).*1;
  r ← option_list (Ports.assoc i (data nv.2));
  [((k, nv.1, i), name nv.2, r)].

(** *** Notions used in the statements *)

(** The guess [state_args] gives for index [i], where [o] is
    [state_args[n]], or the exception the lookup ends in. *)
Definition guess_outcome (n : string) (o : PyVal) (i : Index) : outcome PyVal :=
  match i with
  | None => Ok o
  | Some idx =>
      match o with
      | Num _ => Raise (Builtin (Py.TypeError "'float' object is not subscriptable"))
      | Dict d =>
          match Ports.assoc idx d with
          | Some q => Ok (Num q)
          | None => Raise (args_mismatch n)
          end
      end
  end.

(** What stands in the way of fixing the instance [v] in the store [s]: it
    is not fixed, and either the guess for it cannot be read or there is
    neither a guess nor a value. *)
Definition fault (state_args : list (string * PyVal)) (s : gmap Ref VarData)
    (v : (Z * string * option (list string)) * string * Ref) : option exn :=
  if is_fixed s v.2 then None
  else
    match Ports.assoc v.1.1.1.2 state_args with
    | Some o =>
        match guess_outcome v.1.1.1.2 o v.1.1.2 with
        | Ok _ => None
        | Raise e => Some e
        end
    | None => if value_of s v.2 is Some _ then None else Some (no_value v.1.2)
    end.

(** The value an instance that is not fixed is fixed at. *)
Definition target_value (state_args : list (string * PyVal)) (s : gmap Ref VarData)
    (v : (Z * string * option (list string)) * string * Ref) : option PyVal :=
  match Ports.assoc v.1.1.1.2 state_args with
  | Some o =>
      match guess_outcome v.1.1.1.2 o v.1.1.2 with
      | Ok val => Some val
      | Raise _ => value_of s v.2
      end
  | None => value_of s v.2
  end.

(** *** An example block *)

(** One block with a scalar state variable and one indexed by component;
    the mole fraction of CO2 is fixed, that of H2O has no value yet. *)
Definition flow_block : list (Z * StateBlockData) :=
  [ (0, {| define_state_vars :=
             [ ("flow_mol", {| name := "props[0].flow_mol"; data := [(None, 1%nat)] |});
               ("mole_frac", {| name := "props[0].mole_frac";
                                data := [(Some ["H2O"], 2%nat); (Some ["CO2"], 3%nat)] |}) ] |}) ].

Definition flow_store : gmap Ref VarData :=
  {[ 1%nat := {| value := Some (Num 10%Q); fixed := false |};
     2%nat := {| value := None; fixed := false |};
     3%nat := {| value := Some (Num (2 # 5)%Q); fixed := true |} ]}.

Definition flow_args : list (string * PyVal) :=
  [ ("mole_frac", Dict [ (["H2O"], (3 # 5)%Q); (["CO2"], (1 # 2)%Q) ]) ].

(** How [fix_state_vars] leaves the store for them. *)
Definition flow_fixed : gmap Ref VarData :=
  {[ 1%nat := {| value := Some (Num 10%Q); fixed := true |};
     2%nat := {| value := Some (Num (3 # 5)%Q); fixed := true |};
     3%nat := {| value := Some (Num (2 # 5)%Q); fixed := true |} ]}.

End StateBlocks.

(** ** [solve_indexed_blocks]: one solver call for a list of blocks *)

Module IndexedBlocks.
Import Py.
Local Open Scope py_scope.

Definition BlockId := nat.

(** What the [blocks] argument may hold. *)
Inductive PyObject :=
  | ABlock (b : BlockId)
  | NotABlock.

(** The [blocks] argument: one Block, a list of objects, or an object
    of which [len] cannot be taken. *)
Inductive BlocksArg :=
  | OneBlock (b : BlockId)
  | Objects (l : list PyObject)
  | Unsized.

(** The temporary block: the three tables the function writes, and the
    flag it is created with. *)
Record TmpBlock := {
  concrete : bool;
  _decl : gmap string Z;
  _decl_order : list (BlockId * option Z);
  _ctypes : gmap string (list Z)
}.

(** [Block(concrete=True)] *)
Definition Block_concrete : TmpBlock :=
  {| concrete := true; _decl := ∅; _decl_order := []; _ctypes := ∅ |}.

Definition enumerate {A} (l : list A) : list (Z * A) :=
  imap (λ i x, (Z.of_nat i, x)) l.

Definition add_component (i : Z) (b : BlockId) (nBlocks : Z) (tmp : TmpBlock) : TmpBlock :=
  {| concrete := concrete tmp;
     _decl := <["block_" +:+ pretty i := i]> (_decl tmp);
     _decl_order := _decl_order tmp ++ [(b, if decide (i < nBlocks - 1) then Some (i + 1) else None)];
     _ctypes := _ctypes tmp |}.

Definition set_ctypes (nBlocks : Z) (tmp : TmpBlock) : TmpBlock :=
  {| concrete := concrete tmp;
     _decl := _decl tmp;
     _decl_order := _decl_order tmp;
     _ctypes := <["Block" := [0; nBlocks - 1; nBlocks]]> (_ctypes tmp) |}.

(** The [finally] clause. *)
Definition clean_up (tmp : TmpBlock) : TmpBlock :=
  {| concrete := concrete tmp; _decl := ∅; _decl_order := []; _ctypes := ∅ |}.

Section Solve.
Context {Results Kwds : Type}.
(** The solver is handed the temporary block; it may raise and may write
    to the block. *)
Variable solver : TmpBlock → Kwds → outcome Results * TmpBlock.

(** [if isinstance(blocks, Block): blocks = [blocks]] *)
Definition as_list (blocks : BlocksArg) : BlocksArg :=
  match blocks with
  | OneBlock b => Objects [ABlock b]
  | _ => blocks
  end.

(** [len(blocks)] *)
Definition len (blocks : BlocksArg) : M TmpBlock Z :=
  match blocks with
  | Objects l => ret (Z.of_nat (length l))
  | _ => raise (TypeError "object has no len()")
  end.

Definition items (blocks : BlocksArg) : list PyObject :=
  match blocks with
  | Objects l => l
  | _ => []
  end.

(** The body of the [try], after the temporary block has been created. *)
Definition solve_body (blocks : BlocksArg) (kwds : Kwds) : M TmpBlock Results :=
  nBlocks <~ len blocks;
  for_ (enumerate (items blocks)) (λ ib,
    match ib.2 with
    | NotABlock =>
        raise (TypeError ("Trying to apply solve_indexed_blocks to " +:+
                          "object containing non-Block objects"))
    | ABlock b =>
        try_except (modify (add_component ib.1 b nBlocks))
          (λ _, raise (Exception_ ("solve_indexed_blocks method failed adding " +:+
                                   "components to temporary block.")))
    end);;
  modify (set_ctypes nBlocks);;
  (λ tmp, solver tmp kwds).

(** The temporary block is created on entry to the [try]; the second
    component of the result is that block as the function leaves it. *)
Definition solve_indexed_blocks (blocks : BlocksArg) (kwds : Kwds)
    : outcome Results * TmpBlock :=
  try_finally (solve_body (as_list blocks) kwds) (modify clean_up) Block_concrete.

End Solve.

(** A solver that reports how many blocks it was handed. *)
Definition counting_solver (tmp : TmpBlock) (_ : unit) : outcome nat * TmpBlock :=
  (Ok (length (_decl_order tmp)), tmp).

Definition failing_solver (tmp : TmpBlock) (_ : unit) : outcome nat * TmpBlock :=
  (Raise (Exception_ "solver crashed"), tmp).

(** *** What the solver is handed *)

Definition non_block_error : exn :=
  TypeError ("Trying to apply solve_indexed_blocks to " +:+
             "object containing non-Block objects").

(** The name under which block number [i] is declared. *)
Definition block_name (i : Z) : string := "block_" +:+ pretty i.

End IndexedBlocks.

(** ** [initialize_by_time_element]: the sequential finite-element initializer *)

Module TimeElement.
Import Py.
Local Open Scope py_scope.

(** *** The model graph *)

(** A point of the time domain.  Points are used as indices and dict keys
    only, never computed with. *)
Abbreviation TimePoint := Z (only parsing).

(** Identity of a component instance ([id(compdata)]): the name of its
    parent component, the time point it is indexed by (if any), and the rest
    of its index. *)
Abbreviation CompId := (string * option Z * list Z)%type (only parsing).

Definition comp_name (c : CompId) : string := c.1.1.

Definition time_of (c : CompId) : option TimePoint := c.1.2.

Definition index_of (c : CompId) : list Z := c.2.

Record VarData := { value : option Q; fixed : bool }.

(** The flowsheet: its variable instances, the [active] flag of its
    constraint instances, and for every [DerivativeVar] component the name of
    its state variable ([get_state_var]). *)
Record Model := {
  vars : gmap CompId VarData;
  cons : gmap CompId bool;
  state_vars : gmap string string
}.

Inductive TerminationCondition :=
  | optimal
  | infeasible
  | maxIterations
  | solver_error.

Inductive Level := INFO | ERROR.

(** What a run acts on: the flowsheet, the records handed to [init_log], and
    the flowsheets handed to [solver.solve] so far (each as it was at the
    call). *)
Record World := {
  fs : Model;
  logged : list (Level * string);
  solved : list Model
}.

Definition init_world (m : Model) : World :=
  {| fs := m; logged := []; solved := [] |}.

(** [time.get_discretization_info()]: [None] stands for the empty dict;
    ['ncp'] is present for collocation schemes only. *)
Record DiscretizationInfo := { scheme : string; nfe : Z; ncp : option Z }.

Record ContinuousSet := {
  points : list TimePoint;
  discretization_info : option DiscretizationInfo
}.

Definition set_vars (f : gmap CompId VarData → gmap CompId VarData) (m : Model) : Model :=
  {| vars := f (vars m); cons := cons m; state_vars := state_vars m |}.

Definition set_cons (f : gmap CompId bool → gmap CompId bool) (m : Model) : Model :=
  {| vars := vars m; cons := f (cons m); state_vars := state_vars m |}.

Definition on_fs (f : Model → Model) (w : World) : World :=
  {| fs := f (fs w); logged := logged w; solved := solved w |}.

Definition is_fixed (m : Model) (v : CompId) : bool :=
  match vars m !! v with Some d => fixed d | None => false end.

Definition value_of (m : Model) (v : CompId) : option Q :=
  match vars m !! v with Some d => value d | None => None end.

Definition set_fixed (b : bool) (d : VarData) : VarData :=
  {| value := value d; fixed := b |}.

(** [comp.activate()], [comp.deactivate()], [var.fix()], [var.unfix()] *)
Definition activate (c : CompId) : M World unit :=
  modify (on_fs (set_cons (alter (λ _, true) c))).

Definition deactivate (c : CompId) : M World unit :=
  modify (on_fs (set_cons (alter (λ _, false) c))).

Definition fix_ (v : CompId) : M World unit :=
  modify (on_fs (set_vars (alter (set_fixed true) v))).

Definition unfix (v : CompId) : M World unit :=
  modify (on_fs (set_vars (alter (set_fixed false) v))).

Definition log (lvl : Level) (msg : string) : M World unit :=
  modify (λ w, {| fs := fs w; logged := logged w ++ [(lvl, msg)]; solved := solved w |}).

(** [time.first()] and [time[k]] (1-based; a negative [k] counts from the
    end; [IndexError] otherwise). *)
Definition first (time : ContinuousSet) : M World TimePoint :=
  match points time with
  | t :: _ => ret t
  | [] => raise IndexError
  end.

Definition set_getitem (pts : list TimePoint) (k : Z) : option TimePoint :=
  if decide (0 < k) then pts !! Z.to_nat (k - 1)
  else if decide (k < 0) then
    if decide (0 ≤ Z.of_nat (length pts) + k)
    then pts !! Z.to_nat (Z.of_nat (length pts) + k) else None
  else None.

Definition time_getitem (time : ContinuousSet) (k : Z) : M World TimePoint :=
  match set_getitem (points time) k with
  | Some t => ret t
  | None => raise IndexError
  end.

(** [l.remove(x)]: drops the first occurrence. *)
Fixpoint list_remove (x : TimePoint) (l : list TimePoint) : list TimePoint :=
  match l with
  | [] => []
  | y :: l' => if decide (x = y) then l' else y :: list_remove x l'
  end.

(** An accumulating loop. *)
Fixpoint foldM {A B} (f : B → A → M World B) (acc : B) (l : list A) : M World B :=
  match l with
  | [] => ret acc
  | x :: l' => bind (f acc x) (λ acc', foldM f acc' l')
  end.

(** *** Collaborators from [idaes.core.util.dyn_utils] *)

(** The instances of a table that are indexed by time point [t]. *)
Definition comps_at {A} (m : gmap CompId A) (t : TimePoint) : list CompId :=
  filter (λ c, time_of c = Some t) (map_to_list m).*1.

Definition indexed_in (pts : list TimePoint) (c : CompId) : bool :=
  match time_of c with
  | Some t => bool_decide (t ∈ pts)
  | None => false
  end.

(** Modelled from the spec: [get_activity_dict] ([snapshotActivity]) of
    idaes.core.util.dyn_utils, which is not part of the sources at hand.  It
    records active/inactive for every constraint, keyed by identity. *)
Definition get_activity_dict : M World (gmap CompId bool) :=
  gets (λ w, cons (fs w)).

(** Modelled from the spec: [deactivate_model_at] ([deactivateExceptAt],
    [deactivateAt]) of idaes.core.util.dyn_utils.  It deactivates every
    time-indexed constraint at each of the points [pts] and returns, per point,
    the list of the components deactivated there; components not indexed by
    time are untouched. *)
Definition deactivate_model_at (pts : list TimePoint)
    : M World (gmap Z (list CompId)) :=
  λ w, (Ok (list_to_map ((λ t, (t, comps_at (cons (fs w)) t)) <$> pts)),
        on_fs (set_cons (map_imap (λ c a,
                 Some (if indexed_in pts c then false else a)))) w).

(** Modelled from the spec: [deactivate_constraints_unindexed_by]
    ([deactivateUnindexed]) of idaes.core.util.dyn_utils.  It deactivates
    all constraints not indexed by time; the returned list, which the caller
    "restores" by activating each entry, holds the constraints it switched
    off. *)
Definition deactivate_constraints_unindexed_by : M World (list CompId) :=
  λ w, (Ok (filter (λ ca, time_of ca.1 = None ∧ ca.2 = true)
              (map_to_list (cons (fs w)))).*1,
        on_fs (set_cons (map_imap (λ c a,
                 Some (if time_of c is None then false else a)))) w).

(** Modelled from the spec: [fix_vars_unindexed_by] ([fixUnindexed]) of
    idaes.core.util.dyn_utils.  It fixes all variables not indexed by time;
    the returned list, which the caller "restores" by unfixing each entry,
    holds the variables it fixed. *)
Definition fix_vars_unindexed_by : M World (list CompId) :=
  λ w, (Ok (filter (λ vd, time_of vd.1 = None ∧ fixed vd.2 = false)
              (map_to_list (vars (fs w)))).*1,
        on_fs (set_vars (map_imap (λ v d,
                 Some (if time_of v is None then set_fixed true d else d)))) w).

(** Modelled from the spec: [get_derivatives_at] (the derivative half of
    [pairingsAt]) of idaes.core.util.dyn_utils.  For each point it returns
    every derivative variable defined there. *)
Definition get_derivatives_at (pts : list TimePoint)
    : M World (gmap Z (list CompId)) :=
  gets (λ w, list_to_map ((λ t,
          (t, filter (λ v, is_Some (state_vars (fs w) !! comp_name v))
                (comps_at (vars (fs w)) t))) <$> pts)).

(** Modelled from the spec: [copy_values_at_time] ([copyValues] with
    [copyFixed=false]) of idaes.core.util.dyn_utils.  For every variable
    instance indexed at the source point, its value is copied into the
    corresponding instance at the target point, skipping any target that is
    fixed. *)
Definition copy_values_at_time (t_target t_source : TimePoint) : M World unit :=
  modify (on_fs (λ m, set_vars (map_imap (λ v d,
    Some (if decide (time_of v = Some t_target) then
            if fixed d then d
            else match vars m !! (comp_name v, Some t_source, index_of v) with
                 | Some src => {| value := value src; fixed := fixed d |}
                 | None => d
                 end
          else d))) m)).

(** *** The initializer *)

Section Initializer.

(** The external solver: for the flowsheet it is handed, the values it
    loads back into the variables it solved for and its termination
    condition. *)
Variable solver : Model → gmap CompId Q * TerminationCondition.

(** [idaes.core.util.model_statistics.degrees_of_freedom] *)
Variable degrees_of_freedom : Model → Z.

Definition load_solution (sol : gmap CompId Q) (m : Model) : Model :=
  set_vars (map_imap (λ v d,
    Some (if fixed d then d
          else match sol !! v with
               | Some q => {| value := Some q; fixed := fixed d |}
               | None => d
               end))) m.

(** [results = solver.solve(fs, tee=slc.tee)] *)
Definition solve : M World TerminationCondition :=
  λ w, (Ok (solver (fs w)).2,
        {| fs := load_solution (solver (fs w)).1 (fs w);
           logged := logged w;
           solved := solved w ++ [fs w] |}).

Definition dof_msg : string :=
  "Model has nonzero degrees of freedom. This was unexpected. " +:+
  "Use keyword arg igore_dof=True to skip this check.".

(** [if not ignore_dof: if degrees_of_freedom(fs) != 0: ... raise] *)
Definition check_dof (ignore_dof : bool) (err : string) : M World unit :=
  if ignore_dof then ret tt
  else
    dof <~ gets (λ w, degrees_of_freedom (fs w));
    if decide (dof ≠ 0) then log ERROR dof_msg;; raise (ValueError err)
    else ret tt.

(** The body of both fixing loops: record [var.fixed], then fix [var]
    unless the value of [gate] is [None]. *)
Definition record_and_fix (gate var : CompId) (was : gmap CompId bool)
    : M World (gmap CompId bool) :=
  f <~ gets (λ w, is_fixed (fs w) var);
  val <~ gets (λ w, value_of (fs w) gate);
  (if val is None then ret tt else fix_ var);;
  ret (<[var := f]> was).

(** Lines 350-363.  The second loop tests [drv], the variable of the first
    loop, which after that loop is bound to the last derivative.  Both lists
    have the same length, so the second loop has something to do only if the
    first has bound [drv]; otherwise the name is unbound. *)
Definition fix_initial_conditions (init_deriv_list init_dvar_list : list CompId)
    : M World (gmap CompId bool) :=
  was <~ foldM (λ was drv, record_and_fix drv drv was) ∅ init_deriv_list;
  foldM (λ was dv,
           match last init_deriv_list with
           | Some drv => record_and_fix drv dv was
           | None => raise NameError
           end) was init_dvar_list.

Definition unfix_unless_fixed (was : gmap CompId bool) (v : CompId) : M World unit :=
  f <~ getitem was v;
  if f then ret tt else unfix v.

(** Lines 393-399. *)
Definition unfix_initial_conditions (init_deriv_list init_dvar_list : list CompId)
    (was_originally_fixed : gmap CompId bool) : M World unit :=
  for_ init_deriv_list (unfix_unless_fixed was_originally_fixed);;
  for_ init_dvar_list (unfix_unless_fixed was_originally_fixed).

(** [for comp in deactivated[t]: if was_originally_active[id(comp)]: comp.activate()] *)
Definition reactivate_at (deactivated : gmap Z (list CompId))
    (was_originally_active : gmap CompId bool) (t : TimePoint) : M World unit :=
  comps <~ getitem deactivated t;
  for_ comps (λ comp,
    a <~ getitem was_originally_active comp;
    if a then activate comp else ret tt).

(** [for comp in deactivated[t]: comp.deactivate()] *)
Definition deactivate_at (deactivated : gmap Z (list CompId)) (t : TimePoint)
    : M World unit :=
  comps <~ getitem deactivated t;
  for_ comps deactivate.

Section Element.
Variable time : ContinuousSet.
Variables (nfe_ ncp_ : Z) (ignore_dof : bool).
Variable was_originally_active : gmap CompId bool.
Variables deactivated derivs_at_time dvars_at_time : gmap Z (list CompId).

(** [t_prev = time[(i-1)*ncp+1]] *)
Definition element_t_prev (i : Z) : M World TimePoint :=
  time_getitem time ((i - 1) * ncp_ + 1).

(** [fe = [time[k] for k in range((i-1)*ncp+2, i*ncp+2)]] *)
Definition element_fe (i : Z) : M World (list TimePoint) :=
  mapM (time_getitem time) (range ((i - 1) * ncp_ + 2) (i * ncp_ + 2)).

(** The solve of finite element [i] and the check of its termination. *)
Definition solve_element (i : Z) : M World unit :=
  results <~ solve;
  match results with
  | optimal => log INFO ("Successfully solved finite element " +:+ pretty i)
  | _ => log ERROR ("Failed to solve finite element " +:+ pretty i);;
         raise (ValueError "Failure in initialization solve")
  end.

(** The body of the loop over finite elements (lines 332-402). *)
Definition element_step (i : Z) : M World unit :=
  t_prev <~ element_t_prev i;
  fe <~ element_fe i;
  log INFO ("Entering step " +:+ pretty i +:+ "/" +:+ pretty nfe_ +:+
            " of initialization");;
  for_ fe (reactivate_at deactivated was_originally_active);;
  init_deriv_list <~ getitem derivs_at_time t_prev;
  init_dvar_list <~ getitem dvars_at_time t_prev;
  was_originally_fixed <~ fix_initial_conditions init_deriv_list init_dvar_list;
  for_ fe (λ t, copy_values_at_time t t_prev);;
  log INFO ("Solving finite element " +:+ pretty i);;
  check_dof ignore_dof "Nonzero degrees of freedom";;
  solve_element i;;
  for_ fe (deactivate_at deactivated);;
  unfix_initial_conditions init_deriv_list init_dvar_list was_originally_fixed;;
  log INFO ("Initialization step " +:+ pretty i +:+ " complete").

End Element.

(** [d.parent_component().get_state_var()[d.index()]] *)
Definition state_var_of (d : CompId) : M World CompId :=
  sv <~ gets (λ w, state_vars (fs w) !! comp_name d);
  match sv with
  | None => raise AttributeError
  | Some x =>
      known <~ gets (λ w, vars (fs w) !! (x, time_of d, index_of d));
      if known is Some _ then ret (x, time_of d, index_of d) else raise KeyError
  end.

(** [{t: [... for d in derivs_at_time[t]] for t in time}] *)
Definition get_dvars_at (derivs_at_time : gmap Z (list CompId)) (pts : list TimePoint)
    : M World (gmap Z (list CompId)) :=
  l <~ mapM (λ t, ds <~ getitem derivs_at_time t;
                  dvs <~ mapM state_var_of ds;
                  ret (t, dvs)) pts;
  ret (list_to_map l).

(** The scheme dispatch of lines 245-262: [ncp], or the exception raised. *)
Definition scheme_ncp (info : DiscretizationInfo) : M World Z :=
  if decide (scheme info = "LAGRANGE-RADAU") then
    match ncp info with Some n => ret n | None => raise KeyError end
  else if decide (scheme info = "LAGRANGE-LEGENDRE") then
    raise (NotImplementedError
             "Initialization does not support collocation with Legendre roots")
  else if decide (scheme info = "BACKWARD Difference") then ret 1
  else if decide (scheme info = "FORWARD Difference") then
    raise (NotImplementedError
             "Forward initialization (explicit Euler) has not yet been implemented")
  else if decide (scheme info = "CENTRAL Difference") then
    raise (NotImplementedError
             "Initialization does not support central finite difference")
  else raise (ValueError "Unrecognized discretization scheme. ").

(** Lines 284-413, after the arguments have been validated. *)
Definition run_elements (time : ContinuousSet) (nfe_ ncp_ : Z) (ignore_dof : bool)
    : M World unit :=
  was_originally_active <~ get_activity_dict;
  t0 <~ first time;
  deactivated <~ deactivate_model_at (list_remove t0 (points time));
  log INFO "Model is inactive except at t=0. Solving for consistent initial conditions.";;
  results <~ solve;
  match results with
  | optimal => log INFO "Successfully solved for consistent initial conditions"
  | _ => log ERROR "Failed to solve for consistent initial conditions";;
         raise (ValueError "Solver failed in initialization")
  end;;
  at_t0 <~ deactivate_model_at [t0];
  comps0 <~ getitem at_t0 t0;
  let deactivated := <[t0 := comps0]> deactivated in
  con_unindexed_by_time <~ deactivate_constraints_unindexed_by;
  var_unindexed_by_time <~ fix_vars_unindexed_by;
  derivs_at_time <~ get_derivatives_at (points time);
  dvars_at_time <~ get_dvars_at derivs_at_time (points time);
  log INFO "Flowsheet has been deactivated. Beginning element-wise initialization";;
  for_ (range 1 (nfe_ + 1))
    (element_step time nfe_ ncp_ ignore_dof was_originally_active
       deactivated derivs_at_time dvars_at_time);;
  for_ (points time) (reactivate_at deactivated was_originally_active);;
  for_ con_unindexed_by_time activate;;
  for_ var_unindexed_by_time unfix;;
  log INFO "Initialization completed. Model has been reactivated".

(** [initialize_by_time_element(fs, time, solver=..., ignore_dof=...)].
    The two [isinstance] tests hold by typing; [fep_list], which the source
    computes and never uses, is left out. *)
Definition initialize_by_time_element (time : ContinuousSet) (ignore_dof : bool)
    : M World unit :=
  match discretization_info time with
  | None => raise (ValueError "ContinuousSet must be discretized")
  | Some info =>
      ncp_ <~ scheme_ncp info;
      check_dof ignore_dof "Nonzero degrees of freedom.";;
      run_elements time (nfe info) ncp_ ignore_dof
  end.

End Initializer.

(** *** Notions used in the statements *)

(** Applying [alter f] at each identity of a list. *)
Definition alter_all {A} (f : A → A) (l : list CompId) (m : gmap CompId A)
    : gmap CompId A :=
  foldl (λ m c, alter f c m) m l.

(** Variables outside [l] are as they were. *)
Definition kept_outside (l : list CompId) (m m' : gmap CompId VarData) : Prop :=
  ∀ v, v ∉ l → m' !! v = m !! v.

(** No [fixed] flag differs (values may). *)
Definition same_flags (m m' : gmap CompId VarData) : Prop :=
  ∀ v, fixed <$> m' !! v = fixed <$> m !! v.

(** *** The run as a whole *)

(** The exceptions the procedure raises on a failed solve and on a failed
    degrees-of-freedom check. *)
Definition ic_failure : exn := ValueError "Solver failed in initialization".

Definition element_failure : exn := ValueError "Failure in initialization solve".

Definition dof_failure_entry : exn := ValueError "Nonzero degrees of freedom.".

Definition dof_failure_element : exn := ValueError "Nonzero degrees of freedom".

Definition benign (e : exn) : Prop :=
  e ≠ ic_failure ∧ e ≠ element_failure ∧
  e ≠ dof_failure_entry ∧ e ≠ dof_failure_element.

(** Every constraint not indexed by time is inactive and every variable not
    indexed by time is fixed. *)
Definition Frozen (m : Model) : Prop :=
  (∀ c a, cons m !! c = Some a → time_of c = None → a = false) ∧
  (∀ v d, vars m !! v = Some d → time_of v = None → fixed d = true).

Section Invariants.
Variable solver : Model → gmap CompId Q * TerminationCondition.
Variable degrees_of_freedom : Model → Z.
Variable time : ContinuousSet.
Variables (nfe_ ncp_ : Z) (ignore_dof : bool).
Variable fs0 : Model.

Definition Optimal (m : Model) : Prop := (solver m).2 = optimal.

(** What the trace of solver calls and the raised exception say about each
    other. *)
Definition Verdict (res : outcome unit) (w : World) : Prop :=
  (Forall Optimal (solved w) ∧ res ≠ Raise ic_failure ∧ res ≠ Raise element_failure)
  ∨ (∃ m, solved w = [m] ∧ ¬ Optimal m ∧ res = Raise ic_failure)
  ∨ (∃ pre m, solved w = pre ++ [m] ∧ pre ≠ [] ∧ Forall Optimal pre ∧
              ¬ Optimal m ∧ res = Raise element_failure ∧
              Z.of_nat (length pre) ≤ nfe_ ∧
              last (logged w) =
                Some (ERROR, "Failed to solve finite element " +:+
                               pretty (Z.of_nat (length pre)))).

(** The solves of the finite elements are all but the first call. *)
Definition TraceInv (w : World) : Prop :=
  Forall Frozen (tail (solved w)) ∧
  (ignore_dof = false →
   Forall (λ m, degrees_of_freedom m = 0) (tail (solved w))).

Definition RunSpec (res : outcome unit) (w : World) : Prop :=
  TraceInv w ∧ Verdict res w ∧
  (ignore_dof = true →
   res ≠ Raise dof_failure_entry ∧ res ≠ Raise dof_failure_element) ∧
  (res = Ok tt →
   cons (fs w) = cons fs0 ∧
   ∀ v, time_of v = None → fixed <$> vars (fs w) !! v = fixed <$> vars fs0 !! v).

(** The constraints the procedure switches off before the loop. *)
Definition touched (c : CompId) : bool :=
  match time_of c with
  | None => true
  | Some t => bool_decide (t ∈ points time)
  end.

(** The flag of each constraint while "the model is completely inactive". *)
Definition baseline (c : CompId) : option bool :=
  (λ a, if touched c then false else a) <$> cons fs0 !! c.

(** The state between two finite elements, [k] of them done. *)
Definition Inv (k : nat) (w : World) : Prop :=
  (∀ c, cons (fs w) !! c = baseline c) ∧
  (∀ v, time_of v = None →
        fixed <$> vars (fs w) !! v = (λ _, true) <$> vars fs0 !! v) ∧
  length (solved w) = S k ∧
  Forall Optimal (solved w) ∧
  TraceInv w.

(** What the loop relies on in the three dicts built before it. *)
Definition Static (deactivated derivs dvars : gmap Z (list CompId)) : Prop :=
  (∀ t l, deactivated !! t = Some l →
     t ∈ points time ∧
     ∀ c, c ∈ l ↔ time_of c = Some t ∧ is_Some (cons fs0 !! c)) ∧
  (∀ t l, derivs !! t = Some l → ∀ v, v ∈ l → time_of v = Some t) ∧
  (∀ t l, dvars !! t = Some l → ∀ v, v ∈ l → time_of v = Some t).

(** During the solve of an element only constraints at its points may
    differ from the baseline. *)
Definition Mid (fe : list Z) (m : gmap CompId bool) : Prop :=
  ∀ c, m !! c = baseline c
       ∨ (indexed_in fe c = true ∧ (λ _, false) <$> m !! c = baseline c).

End Invariants.

(** *** Example flowsheets *)

Definition var_ (v : option Q) (f : bool) : VarData := {| value := v; fixed := f |}.

(** A tank with one state [x], its derivative [dxdt], a parameter [k] and a
    fixed parameter [p], discretized by backward differences on three
    points.  Constraint [skip] (indexed by time) and constraint [off] (not
    indexed) are inactive on entry. *)
Definition tank_time : ContinuousSet :=
  {| points := [0; 1; 2];
     discretization_info :=
       Some {| scheme := "BACKWARD Difference"; nfe := 2; ncp := None |} |}.

Definition tank : Model :=
  {| vars := list_to_map
       [ (("x", Some 0, []), var_ (Some 1%Q) true);
         (("x", Some 1, []), var_ None false);
         (("x", Some 2, []), var_ None false);
         (("dxdt", Some 0, []), var_ (Some 0%Q) false);
         (("dxdt", Some 1, []), var_ None false);
         (("dxdt", Some 2, []), var_ None false);
         (("k", None, []), var_ (Some 2%Q) false);
         (("p", None, []), var_ (Some 3%Q) true) ];
     cons := list_to_map
       [ (("ode", Some 0, []), true);
         (("ode", Some 1, []), true);
         (("ode", Some 2, []), true);
         (("disc", Some 1, []), true);
         (("disc", Some 2, []), true);
         (("skip", Some 1, []), false);
         (("kdef", None, []), true);
         (("off", None, []), false) ];
     state_vars := {[ "dxdt" := "x" ]} |}.

(** A solver that sets every variable it is given to 5 and reports
    success, and a count of degrees of freedom that is always zero. *)
Definition easy_solver (m : Model) : gmap CompId Q * TerminationCondition :=
  ((λ _, 5%Q) <$> vars m, optimal).

Definition square (m : Model) : Z := 0.

(** The same process on five finite elements. *)
Definition chain_time : ContinuousSet :=
  {| points := [0; 1; 2; 3; 4; 5];
     discretization_info :=
       Some {| scheme := "BACKWARD Difference"; nfe := 5; ncp := None |} |}.

Definition chain : Model :=
  {| vars := list_to_map
       (((λ t, (("x", Some t, []), var_ (Some 1%Q) (bool_decide (t = 0))))
           <$> [0; 1; 2; 3; 4; 5]) ++
        ((λ t, (("dxdt", Some t, []), var_ (Some 0%Q) false))
           <$> [0; 1; 2; 3; 4; 5]));
     cons := list_to_map
       (((λ t, (("ode", Some t, []), true)) <$> [0; 1; 2; 3; 4; 5]) ++
        ((λ t, (("disc", Some t, []), true)) <$> [1; 2; 3; 4; 5]));
     state_vars := {[ "dxdt" := "x" ]} |}.

(** A solver that does not converge on the finite element ending at point
    [t], recognised by its discretization equation being active. *)
Definition stalls_at (t : Z) (m : Model) : gmap CompId Q * TerminationCondition :=
  if cons m !! ("disc", Some t, []) is Some true then (∅, infeasible)
  else (∅, optimal).

(** A count of degrees of freedom that is off by one on that element,
    where the equations at the first point are switched off. *)
Definition unsquare_at (t : Z) (m : Model) : Z :=
  if cons m !! ("disc", Some t, []) is Some true
  then if cons m !! ("ode", Some 0, []) is Some true then 0 else 1
  else 0.

Definition legendre_time : ContinuousSet :=
  {| points := [0; 1; 2];
     discretization_info :=
       Some {| scheme := "LAGRANGE-LEGENDRE"; nfe := 1; ncp := Some 2 |} |}.

Definition nine_points : ContinuousSet :=
  {| points := [10; 11; 12; 13; 14; 15; 16; 17; 18];
     discretization_info :=
       Some {| scheme := "LAGRANGE-RADAU"; nfe := 4; ncp := Some 2 |} |}.

(** *** A finite element leaves what is not indexed by time alone *)

(** Every component a dict lists is indexed by time. *)
Definition time_indexed (d : gmap Z (list CompId)) : Prop :=
  ∀ t l, d !! t = Some l → ∀ c, c ∈ l → is_Some (time_of c).

(** From [w] to [w'], no constraint outside the time domain has changed
    its active flag and no variable outside it its fixed flag. *)
Definition Keep (w w' : World) : Prop :=
  (∀ c, time_of c = None → cons (fs w') !! c = cons (fs w) !! c) ∧
  (∀ v, time_of v = None →
        fixed <$> vars (fs w') !! v = fixed <$> vars (fs w) !! v).


(** A state with a first and a second derivative in time: the differential
    variable [x] at a point is paired with both. *)
Definition spring : Model :=
  {| vars := list_to_map
       [ (("x", Some 0, []), var_ (Some 1%Q) false);
         (("x", Some 1, []), var_ (Some 1%Q) false);
         (("dxdt", Some 0, []), var_ (Some 0%Q) false);
         (("dxdt", Some 1, []), var_ (Some 0%Q) false);
         (("d2xdt2", Some 0, []), var_ (Some 0%Q) false);
         (("d2xdt2", Some 1, []), var_ (Some 0%Q) false) ];
     cons := list_to_map [ (("ode", Some 0, []), true); (("ode", Some 1, []), true) ];
     state_vars := {[ "dxdt" := "x"; "d2xdt2" := "x" ]} |}.

(** A tank whose state [x] has no value yet at the first point, while its
    derivative there has one, and a solver that reports success without
    loading any value. *)
Definition unsolved_tank : Model :=
  {| vars := list_to_map
       [ (("x", Some 0, []), var_ None false);
         (("x", Some 1, []), var_ None false);
         (("dxdt", Some 0, []), var_ (Some 0%Q) false);
         (("dxdt", Some 1, []), var_ None false) ];
     cons := list_to_map
       [ (("ode", Some 0, []), true);
         (("ode", Some 1, []), true);
         (("disc", Some 1, []), true) ];
     state_vars := {[ "dxdt" := "x" ]} |}.

Definition two_points : ContinuousSet :=
  {| points := [0; 1];
     discretization_info :=
       Some {| scheme := "BACKWARD Difference"; nfe := 1; ncp := None |} |}.

Definition idle_solver (m : Model) : gmap CompId Q * TerminationCondition :=
  (∅, optimal).

(** *** Well-posed inputs *)


(** The time domain is discretized by a supported scheme and has the points
    its discretization says, and every instance of a derivative variable has
    the instance of its state variable at the same index. *)
Definition well_posed (time : ContinuousSet) (m : Model) : Prop :=
  ∃ info n,
    discretization_info time = Some info ∧
    ((scheme info = "BACKWARD Difference" ∧ n = 1) ∨
     (scheme info = "LAGRANGE-RADAU" ∧ ncp info = Some n)) ∧
    0 ≤ n ∧ 0 ≤ nfe info ∧
    Z.of_nat (length (points time)) = nfe info * n + 1 ∧
    ∀ v x, is_Some (vars m !! v) → state_vars m !! comp_name v = Some x →
           is_Some (vars m !! (x, time_of v, index_of v)).

(** *** The records of a run *)

(** Neither a log record nor a solver call from [w] to [w']. *)
Definition Quiet (w w' : World) : Prop :=
  logged w' = logged w ∧ solved w' = solved w.

(** A computation that logs nothing, does not call the solver, and raises
    none of the four failures of the procedure. *)
Definition quiet {A} (m : M World A) : Prop :=
  ∀ w, post m w (λ _ w', Quiet w w') (λ e w', benign e ∧ Quiet w w').

(** What a finite element that is solved logs, and what a run that
    returns logs. *)
Definition element_log (nfe_ i : Z) : list (Level * string) :=
  [ (INFO, "Entering step " +:+ pretty i +:+ "/" +:+ pretty nfe_ +:+
           " of initialization");
    (INFO, "Solving finite element " +:+ pretty i);
    (INFO, "Successfully solved finite element " +:+ pretty i);
    (INFO, "Initialization step " +:+ pretty i +:+ " complete") ].

Definition run_log (nfe_ : Z) : list (Level * string) :=
  [ (INFO, "Model is inactive except at t=0. Solving for consistent initial conditions.");
    (INFO, "Successfully solved for consistent initial conditions");
    (INFO, "Flowsheet has been deactivated. Beginning element-wise initialization") ]
  ++ mjoin (element_log nfe_ <$> range 1 (nfe_ + 1))
  ++ [ (INFO, "Initialization completed. Model has been reactivated") ].

End TimeElement.

(** * Part II: lemmas and theorems *)

(** ** Rules for the postconditions *)

Module PyFacts.
Import Py.
Local Open Scope py_scope.

Lemma post_ret {St A} (a : A) (s : St) Q E : Q a s → post (ret a) s Q E.
Proof. done. Qed.

Lemma post_raise {St A} e (s : St) (Q : A → St → Prop) E :
  E e s → post (raise e) s Q E.
Proof. done. Qed.

Lemma post_bind {St A B} (m : M St A) (f : A → M St B) s Q E :
  post m s (λ a s', post (f a) s' Q E) E → post (bind m f) s Q E.
Proof. unfold post, bind. by destruct (m s) as [[a|e] s']. Qed.

Lemma post_mono {St A} (m : M St A) s (Q Q' : A → St → Prop) (E E' : exn → St → Prop) :
  post m s Q E →
  (∀ a s', Q a s' → Q' a s') →
  (∀ e s', E e s' → E' e s') →
  post m s Q' E'.
Proof. unfold post. destruct (m s) as [[a|e] s']; auto. Qed.

Lemma post_gets {St A} (f : St → A) s Q E : Q (f s) s → post (gets f) s Q E.
Proof. done. Qed.

Lemma post_modify {St} (f : St → St) s Q E : Q tt (f s) → post (modify f) s Q E.
Proof. done. Qed.

Lemma post_getitem {St K V} `{Countable K} (d : gmap K V) k (s : St) Q E :
  (∀ v, d !! k = Some v → Q v s) → (d !! k = None → E KeyError s) →
  post (getitem d k) s Q E.
Proof. unfold getitem. destruct (d !! k); intros HQ HE; [apply HQ|apply HE]; done. Qed.

(** A loop invariant that need only hold for the items of the list. *)
Lemma post_for_ {St A} (body : A → M St unit) (I : St → Prop) E :
  ∀ l s,
    I s →
    (∀ x s', x ∈ l → I s' → post (body x) s' (λ _, I) E) →
    post (for_ l body) s (λ _, I) E.
Proof.
  induction l as [|x l IH]; intros s HI Hbody; simpl.
  - by apply post_ret.
  - apply post_bind. eapply post_mono; [apply Hbody; [left|done]| |done].
    intros [] s' HI'. simpl in HI'. apply IH; [done|].
    intros y s'' Hy. apply Hbody. by right.
Qed.

Lemma post_mapM {St A B} (f : A → M St B) (I : St → Prop)
    (R : A → B → Prop) E :
  ∀ l s,
    I s →
    (∀ x s', x ∈ l → I s' → post (f x) s' (λ y s'', I s'' ∧ R x y) E) →
    post (mapM f l) s (λ ys s', I s' ∧ Forall2 R l ys) E.
Proof.
  induction l as [|x l IH]; intros s HI Hf; simpl.
  - apply post_ret. by split.
  - apply post_bind. eapply post_mono; [apply Hf; [left|done]| |done].
    intros y s' [HI' HR]. simpl. apply post_bind.
    eapply post_mono; [apply IH; [done|]| |done].
    + intros z s'' Hz. apply Hf. by right.
    + intros ys s'' [HI'' HF]. simpl. apply post_ret. split; [done|].
      by constructor.
Qed.

(** Reading a postcondition off a run. *)
Lemma post_Ok {St A} (m : M St A) s Q E a s' :
  post m s Q E → m s = (Ok a, s') → Q a s'.
Proof. unfold post. intros H Heq. by rewrite Heq in H. Qed.

Lemma post_run {St A} (m : M St A) s (Q : A → St → Prop) (E : exn → St → Prop) :
  match (m s).1 with Ok a => Q a (m s).2 | Raise e => E e (m s).2 end → post m s Q E.
Proof. unfold post. by destruct (m s) as [[a|e] s']. Qed.


(** A loop invariant indexed by the items already processed, where the
    body may use the position of its item in the list. *)
Lemma post_for_split {St A} (body : A → M St unit) (I : list A → St → Prop) E l :
  ∀ s,
    I [] s →
    (∀ pre x suf s', l = pre ++ x :: suf → I pre s' →
       post (body x) s' (λ _, I (pre ++ [x])) E) →
    post (for_ l body) s (λ _, I l) E.
Proof.
  intros s HI Hbody.
  cut (∀ suf pre s, l = pre ++ suf → I pre s → post (for_ suf body) s (λ _, I l) E).
  { intros Hcut. by apply (Hcut l []). }
  clear s HI. induction suf as [|x suf IH]; intros pre s Hl HI; simpl.
  - rewrite app_nil_r in Hl. subst pre. by apply post_ret.
  - apply post_bind. eapply post_mono; [by eapply Hbody| |done].
    intros [] s' HI'. simpl in HI'. apply (IH (pre ++ [x])); [|done].
    by rewrite <- app_assoc.
Qed.

Lemma elem_of_range lo hi k : k ∈ range lo hi ↔ lo ≤ k < hi.
Proof.
  unfold range. rewrite list_elem_of_fmap. split.
  - intros (n & -> & Hn). apply elem_of_seq in Hn. lia.
  - intros Hk. exists (Z.to_nat (k - lo)). split; [lia|].
    apply elem_of_seq. lia.
Qed.

Lemma length_range lo hi : length (range lo hi) = Z.to_nat (hi - lo).
Proof. unfold range. by rewrite length_map, length_seq. Qed.

Lemma lookup_range lo hi (j : nat) :
  (j < Z.to_nat (hi - lo))%nat → range lo hi !! j = Some (lo + Z.of_nat j).
Proof.
  intros Hj. unfold range. rewrite list_lookup_fmap.
  rewrite lookup_seq_lt by done. done.
Qed.

Lemma post_conj {St A} (m : M St A) s (Q1 Q2 : A → St → Prop) (E1 E2 : exn → St → Prop) :
  post m s Q1 E1 → post m s Q2 E2 →
  post m s (λ a s', Q1 a s' ∧ Q2 a s') (λ e s', E1 e s' ∧ E2 e s').
Proof. unfold post. by destruct (m s) as [[a|e] s']. Qed.

(** A loop in which each item establishes facts that the later items keep. *)
Lemma post_for_each {St A B} (body : A → M St unit) (I : St → Prop)
    (P : B → St → Prop) (cov : A → B → Prop) E :
  ∀ l s,
    I s →
    (∀ x s', x ∈ l → I s' →
       post (body x) s'
         (λ _ s'', I s'' ∧ (∀ b, cov x b → P b s'') ∧ (∀ b, P b s' → P b s'')) E) →
    post (for_ l body) s
      (λ _ s', I s' ∧ (∀ x b, x ∈ l → cov x b → P b s') ∧ (∀ b, P b s → P b s')) E.
Proof.
  induction l as [|x l IH]; intros s HI Hbody; simpl.
  - apply post_ret. split; [done|]. split; [by intros x b ?%elem_of_nil|done].
  - apply post_bind. eapply post_mono; [apply Hbody; [left|done]| |done].
    intros [] s1 (HI1 & Hx & Hkeep1). simpl.
    eapply post_mono; [apply IH; [done|]| |done].
    + intros y s2 Hy. apply Hbody. by right.
    + intros [] s2 (HI2 & Hl & Hkeep2). simpl. split; [done|]. split; [|by auto].
      intros y b [->|Hy]%elem_of_cons Hc; [by auto|by eauto].
Qed.

End PyFacts.

(** ** [propagate_state] *)

Module PortsFacts.
Import Py PyFacts Ports.
Local Open Scope py_scope.

Lemma assoc_elem_of {K V} `{EqDecision K} (k : K) (l : list (K * V)) v :
  assoc k l = Some v → (k, v) ∈ l.
Proof.
  induction l as [|[k' v'] l IH]; simpl; [done|].
  case_decide; [intros [= ->]; subst; left|intros; right; auto].
Qed.

Lemma port_refs_lookup p v data i r :
  assoc v (vars p) = Some (IsVar data) → assoc i data = Some r → r ∈ port_refs p.
Proof.
  intros Hm Hr. unfold port_refs. apply list_elem_of_join.
  exists (data.*2). split.
  - apply list_elem_of_fmap. exists (i, r). split; [done|]. by apply assoc_elem_of.
  - apply list_elem_of_fmap. exists (v, IsVar data). split; [done|].
    by apply assoc_elem_of.
Qed.

Lemma is_fixed_set_value r v s x : is_fixed (set_value r v s) x = is_fixed s x.
Proof.
  unfold is_fixed, set_value. destruct (decide (r = x)) as [->|Hne].
  - rewrite lookup_alter_eq. by destruct (s !! x).
  - by rewrite lookup_alter_ne.
Qed.

Lemma touches_only_refl p s : touches_only p s s.
Proof. by split. Qed.

Lemma copy_member_touches value_source value_dest v i s0 s :
  touches_only value_dest s0 s →
  post (copy_member value_source value_dest v i) s
    (λ _, touches_only value_dest s0) (λ _, touches_only value_dest s0).
Proof.
  intros HT. unfold copy_member, dict_get.
  apply post_bind. destruct (assoc v (vars value_dest)) as [[data|keys]|] eqn:Hv;
    [|by apply post_ret, post_raise|by apply post_raise].
  apply post_ret. apply post_bind.
  destruct (assoc i data) as [d|] eqn:Hd; [|by apply post_raise].
  apply post_ret. apply post_bind, post_gets.
  destruct (is_fixed s d) eqn:Hfix; [by apply post_ret|].
  apply post_bind.
  destruct (assoc v (vars value_source)) as [src|]; [|by apply post_raise].
  apply post_ret. apply post_bind.
  assert (∀ s_ref, post (gets (λ s1, get_value s1 s_ref)) s
            (λ val s', post (modify (set_value d val)) s'
               (λ _, touches_only value_dest s0) (λ _, touches_only value_dest s0))
            (λ _, touches_only value_dest s0)) as Hcopy.
  { intros s_ref. apply post_gets, post_modify. destruct HT as [HF HV]. split.
    - intros x. by rewrite is_fixed_set_value.
    - intros x Hx. unfold set_value. destruct (decide (d = x)) as [->|Hne].
      + exfalso. destruct Hx as [Hx|Hx].
        * apply Hx. by eapply port_refs_lookup.
        * rewrite <- HF in Hx. congruence.
      + rewrite lookup_alter_ne by done. by apply HV. }
  destruct src as [src_data|keys]; [|by apply post_raise].
  destruct (assoc i src_data) as [s_ref|]; [|by apply post_raise].
  apply post_ret, Hcopy.
Qed.

Lemma propagate_state_touches stream direction value_source value_dest s :
  ends stream direction = Some (value_source, value_dest) →
  post (propagate_state stream direction) s
    (λ _, touches_only value_dest s) (λ _, touches_only value_dest s).
Proof.
  intros Hends. unfold propagate_state. rewrite Hends.
  apply post_for_; [apply touches_only_refl|].
  intros v s1 _ HT1. apply post_bind. unfold dict_get.
  destruct (assoc v (vars value_source)) as [src|]; [|by apply post_raise].
  apply post_ret. apply post_for_; [done|].
  intros i s2 _ HT2. by apply copy_member_touches.
Qed.

Example propagate_forward_plain :
  propagate_state plain_arc "forward" plain_store =
  (Ok tt, <[3%nat := {| value := Some 1%Q; fixed := false |}]> plain_store).
Proof. by vm_compute. Qed.

(** C10, as stated, fails: the source port of [shared_arc] is modified.
    Copying member ["a"] writes instance [2], which the source port also
    shows as its member ["b"]; its value goes from 2 to 1. *)
Lemma propagate_state_modifies_shared_source :
  2%nat ∈ port_refs (source shared_arc) ∧
  get_value shared_store 2%nat = Some 2%Q ∧
  propagate_state shared_arc "forward" shared_store =
    (Ok tt, <[2%nat := {| value := Some 1%Q; fixed := false |}]>
              (<[3%nat := {| value := Some 1%Q; fixed := false |}]> shared_store)) ∧
  port_state (source shared_arc) (propagate_state shared_arc "forward" shared_store).2
    ≠ port_state (source shared_arc) shared_store.
Proof.
  split; [|split; [|split]].
  - unfold port_refs, shared_arc; simpl. set_solver.
  - by vm_compute.
  - by vm_compute.
  - vm_compute. discriminate.
Qed.

(** C10 (amended): [propagate_state] never changes an instance that is fixed,
    changes no instance outside the destination port, and so leaves the source
    port as it was whenever every instance the two ports share is fixed; for a
    direction other than ['forward'] and ['backward'] it raises [ValueError]
    and the store is unchanged. *)
Theorem propagate_state_frame (stream : Arc) (direction : string) (s : gmap Ref VarData) :
  let r := propagate_state stream direction s in
  (∀ x d, s !! x = Some d → fixed d = true → r.2 !! x = Some d) ∧
  (∀ value_source value_dest,
     ends stream direction = Some (value_source, value_dest) →
     (∀ x, x ∉ port_refs value_dest → r.2 !! x = s !! x) ∧
     ((∀ x, x ∈ port_refs value_source → x ∈ port_refs value_dest →
            is_fixed s x = true) →
      port_state value_source r.2 = port_state value_source s)) ∧
  (direction ≠ "forward" → direction ≠ "backward" →
     r = (Raise (direction_error direction), s)).
Proof.
  intros r.
  assert (∀ vs vd, ends stream direction = Some (vs, vd) → touches_only vd s r.2)
    as Htouch.
  { intros vs vd Hends. pose proof (propagate_state_touches _ _ _ _ s Hends) as HP.
    unfold post in HP. subst r. by destruct (propagate_state stream direction s) as [[[]|e] s']. }
  assert (ends stream direction = None → r = (Raise (direction_error direction), s))
    as Hnone.
  { intros Hends. subst r. unfold propagate_state. by rewrite Hends. }
  split; [|split].
  - intros x d Hx Hd. destruct (ends stream direction) as [[vs vd]|] eqn:Hends.
    + destruct (Htouch vs vd eq_refl) as [_ HV].
      rewrite HV; [done|]. right. unfold is_fixed. by rewrite Hx.
    + by rewrite (Hnone eq_refl).
  - intros vs vd Hends. destruct (Htouch vs vd Hends) as [_ HV]. split.
    + intros x Hx. apply HV. by left.
    + intros Hshared. unfold port_state. apply list_fmap_ext.
      intros _ x Hx%list_elem_of_lookup_2. apply HV.
      destruct (decide (x ∈ port_refs vd)); [right; by apply Hshared|by left].
  - intros Hf Hb. apply Hnone. unfold ends. by rewrite !decide_False.
Qed.

Lemma propagate_state_frame_witness :
  port_state (source plain_arc) (propagate_state plain_arc "forward" plain_store).2
    = port_state (source plain_arc) plain_store ∧
  (propagate_state plain_arc "forward" plain_store).2 !! 4%nat
    = Some {| value := Some 4%Q; fixed := true |} ∧
  propagate_state plain_arc "sideways" plain_store
    = (Raise (direction_error "sideways"), plain_store).
Proof.
  split; [|split].
  - refine (proj2 (proj1 (proj2 (propagate_state_frame plain_arc "forward" plain_store))
                     (source plain_arc) (destination plain_arc) eq_refl) _).
    intros x Hs%list_elem_of_In Hd%list_elem_of_In. simpl in Hs, Hd. lia.
  - refine (proj1 (propagate_state_frame plain_arc "forward" plain_store) _ _ _ _);
      by vm_compute.
  - refine (proj2 (proj2 (propagate_state_frame plain_arc "sideways" plain_store)) _ _);
      discriminate.
Defined.

(** *** What is copied, and when the copy goes through *)

Lemma assoc_is_Some {K V} `{EqDecision K} (k : K) (l : list (K * V)) :
  k ∈ l.*1 → is_Some (assoc k l).
Proof.
  induction l as [|[k' v] l IH]; simpl; [by intros ?%elem_of_nil|].
  case_decide; [by eauto|]. rewrite elem_of_cons. intros [?|?]; [done|auto].
Qed.

Lemma assoc_elem_of_keys {K V} `{EqDecision K} (k : K) (l : list (K * V)) v :
  assoc k l = Some v → k ∈ l.*1.
Proof.
  intros Hk%assoc_elem_of. apply list_elem_of_fmap. by exists (k, v).
Qed.

Lemma elem_of_pairs p v i :
  (v, i) ∈ pairs p ↔ ∃ m, assoc v (vars p) = Some m ∧ i ∈ member_keys m.
Proof.
  unfold pairs. rewrite list_elem_of_bind. split.
  - intros (v' & Hin & Hv'). apply list_elem_of_bind in Hin as (m & Hin & Hm).
    apply list_elem_of_bind in Hin as (i' & Hin & Hi').
    apply list_elem_of_singleton in Hin as [= <- <-].
    exists m. split; [|done]. by destruct (assoc v (vars p)) as [m'|];
      [apply list_elem_of_singleton in Hm as ->|apply elem_of_nil in Hm].
  - intros (m & Hm & Hi). exists v. split; [|by eapply assoc_elem_of_keys].
    apply list_elem_of_bind. exists m. split; [|rewrite Hm; by left].
    apply list_elem_of_bind. exists i. split; [by left|done].
Qed.

Lemma instance_at_pairs p v i r : instance_at p v i = Some r → (v, i) ∈ pairs p.
Proof.
  unfold instance_at. intros Hr. apply elem_of_pairs.
  destruct (assoc v (vars p)) as [[data|keys]|]; [|done..].
  exists (IsVar data). split; [done|]. by eapply assoc_elem_of_keys.
Qed.

Lemma instance_at_port_refs p v i r : instance_at p v i = Some r → r ∈ port_refs p.
Proof.
  unfold instance_at. intros Hr.
  destruct (assoc v (vars p)) as [[data|keys]|] eqn:Hv; [|done..].
  by eapply port_refs_lookup.
Qed.

Section Copies.
Variables value_source value_dest : Port.
Variable s : gmap Ref VarData.
Hypothesis Hshared :
  ∀ x, x ∈ port_refs value_source → x ∈ port_refs value_dest → is_fixed s x = true.

(** The instance [d] of the destination holds the value a source instance
    it is paired with had on entry. *)
Local Abbreviation Copied := (λ (d : Ref) (s' : gmap Ref VarData),
  ∃ v i s_ref, instance_at value_source v i = Some s_ref ∧
               instance_at value_dest v i = Some d ∧
               get_value s' d = get_value s s_ref).

Lemma source_kept s1 x :
  touches_only value_dest s s1 → x ∈ port_refs value_source → s1 !! x = s !! x.
Proof.
  intros [_ HV] Hx. apply HV.
  destruct (decide (x ∈ port_refs value_dest)); [right; by apply Hshared|by left].
Qed.

Lemma copy_member_copies v i s1 :
  touches_only value_dest s s1 →
  (∀ x, is_Some (s1 !! x) ↔ is_Some (s !! x)) →
  post (copy_member value_source value_dest v i) s1
    (λ _ s2,
       (∀ x, is_Some (s2 !! x) ↔ is_Some (s !! x)) ∧
       (∀ d, instance_at value_dest v i = Some d ∧ is_fixed s d = false ∧
             is_Some (s !! d) ∧ is_Some (instance_at value_source v i) →
             Copied d s2) ∧
       (∀ d, Copied d s1 → Copied d s2))
    (λ _ _, True).
Proof.
  intros HT Hdom. unfold copy_member, dict_get, instance_at.
  apply post_bind.
  destruct (assoc v (vars value_dest)) as [[data|keys]|] eqn:Hv;
    [|by apply post_ret, post_raise|by apply post_raise].
  apply post_ret. apply post_bind.
  destruct (assoc i data) as [d|] eqn:Hd; [|by apply post_raise].
  apply post_ret. apply post_bind, post_gets.
  destruct (is_fixed s1 d) eqn:Hfix.
  { apply post_ret. split; [done|]. split; [|done].
    intros d' ([= <-] & Hf & _). destruct HT as [HF _]. rewrite HF in Hfix. congruence. }
  apply post_bind.
  destruct (assoc v (vars value_source)) as [[src_data|keys]|] eqn:Hsv;
    [|by apply post_ret, post_bind, post_raise|by apply post_raise].
  apply post_ret. apply post_bind.
  destruct (assoc i src_data) as [s_ref|] eqn:Hsi; [|by apply post_raise].
  apply post_ret. apply post_bind, post_gets, post_modify.
  assert (get_value s1 s_ref = get_value s s_ref) as Hval.
  { unfold get_value. rewrite (source_kept s1 s_ref HT); [done|].
    by eapply port_refs_lookup. }
  assert (is_Some (s1 !! d) →
          get_value (set_value d (get_value s1 s_ref) s1) d = get_value s s_ref) as Hnew.
  { intros [dd Hdd]. unfold get_value at 1, set_value.
    by rewrite lookup_alter_eq, Hdd. }
  split; [|split].
  - intros x. rewrite <- Hdom. unfold set_value.
    destruct (decide (d = x)) as [<-|Hne].
    + rewrite lookup_alter_eq. apply fmap_is_Some.
    + by rewrite lookup_alter_ne.
  - intros d' ([= <-] & Hf & Hin & _). exists v, i, s_ref.
    unfold instance_at. rewrite Hv, Hsv. split; [done|]. split; [done|].
    apply Hnew. by apply Hdom.
  - intros b (v' & i' & r' & Hs' & Hd' & Hb). destruct (decide (b = d)) as [->|Hne].
    + destruct (s1 !! d) as [dd|] eqn:Hdd.
      * exists v, i, s_ref. unfold instance_at. rewrite Hv, Hsv.
        split; [done|]. split; [done|]. apply Hnew. by eexists.
      * exists v', i', r'. split; [done|]. split; [done|].
        rewrite <- Hb. unfold get_value, set_value.
        by rewrite lookup_alter_eq, Hdd.
    + exists v', i', r'. split; [done|]. split; [done|].
      rewrite <- Hb. unfold get_value, set_value. by rewrite lookup_alter_ne.
Qed.

(** The two loops, for a port as source and a port as destination. *)
Lemma copy_loops_copy s1 :
  touches_only value_dest s s1 →
  (∀ x, is_Some (s1 !! x) ↔ is_Some (s !! x)) →
  post (for_ (vars value_source).*1 (λ v,
          src_member <~ dict_get (vars value_source) v;
          for_ (member_keys src_member) (λ i,
            copy_member value_source value_dest v i))) s1
    (λ _ s2, ∀ v i d,
       instance_at value_dest v i = Some d → is_fixed s d = false →
       is_Some (s !! d) → is_Some (instance_at value_source v i) → Copied d s2)
    (λ _ _, True).
Proof.
  intros HT Hdom.
  eapply post_mono;
    [apply (post_for_each _
       (λ s2, touches_only value_dest s s2 ∧ ∀ x, is_Some (s2 !! x) ↔ is_Some (s !! x))
       Copied
       (λ v d, ∃ i, instance_at value_dest v i = Some d ∧ is_fixed s d = false ∧
                    is_Some (s !! d) ∧ is_Some (instance_at value_source v i))
       (λ _ _, True)); [done|]| |done].
  - intros v s2 Hv [HT2 Hdom2]. apply post_bind. unfold dict_get.
    destruct (assoc v (vars value_source)) as [src|] eqn:Hsv; [|by apply post_raise].
    apply post_ret.
    eapply post_mono;
      [apply (post_for_each _
         (λ s3, touches_only value_dest s s3 ∧ ∀ x, is_Some (s3 !! x) ↔ is_Some (s !! x))
         Copied
         (λ i d, instance_at value_dest v i = Some d ∧ is_fixed s d = false ∧
                 is_Some (s !! d) ∧ is_Some (instance_at value_source v i))
         (λ _ _, True)); [done|]| |done].
    + intros i s3 Hi [HT3 Hdom3].
      eapply post_mono;
        [apply post_conj; [by apply copy_member_touches|by apply copy_member_copies]
        | |done].
      intros [] s4 (HT4 & Hdom4 & Hcov & Hkeep). done.
    + intros [] s3 (HI3 & Hcov & Hkeep). simpl. split; [done|]. split; [|done].
      intros d (i & Hd & Hf & Hin & Hsrc). apply (Hcov i d); [|done].
      destruct Hsrc as [r Hr]. unfold instance_at in Hr. rewrite Hsv in Hr.
      destruct src as [data|keys]; [|done]. by eapply assoc_elem_of_keys.
  - intros [] s2 (_ & Hcov & _) v i d Hd Hf Hin Hsrc. simpl.
    apply (Hcov v d); [|by exists i].
    destruct Hsrc as [r Hr]. unfold instance_at in Hr.
    destruct (assoc v (vars value_source)) eqn:Hsv; [|done].
    by eapply assoc_elem_of_keys.
Qed.

End Copies.

(** On return, an instance of the destination port that is not fixed holds
    the value the instance of the source port under the same member name and
    index had on entry, provided the ports share no instance that is not fixed
    and the instance occurs in the destination port under that name and index
    only. *)
Theorem propagate_state_copies (stream : Arc) (direction : string)
    (value_source value_dest : Port) (s s' : gmap Ref VarData)
    (v : string) (i : Index) (s_ref d : Ref) :
  ends stream direction = Some (value_source, value_dest) →
  propagate_state stream direction s = (Ok tt, s') →
  (∀ x, x ∈ port_refs value_source → x ∈ port_refs value_dest → is_fixed s x = true) →
  instance_at value_source v i = Some s_ref →
  instance_at value_dest v i = Some d →
  (∀ v' i', instance_at value_dest v' i' = Some d → v' = v ∧ i' = i) →
  is_fixed s d = false → is_Some (s !! d) →
  get_value s' d = get_value s s_ref.
Proof.
  intros Hends Hrun Hshared Hsrc Hdst Honce Hfix Hin.
  pose proof (copy_loops_copy value_source value_dest s Hshared s
                (touches_only_refl _ _) (λ x, reflexivity _)) as HP.
  unfold propagate_state in Hrun. rewrite Hends in Hrun.
  pose proof (post_Ok _ _ _ _ _ _ HP Hrun) as Hcopied. cbn beta in Hcopied.
  destruct (Hcopied v i d Hdst Hfix Hin) as (v' & i' & r' & Hs' & Hd' & Hval);
    [by rewrite Hsrc|].
  destruct (Honce v' i' Hd') as [-> ->]. rewrite Hs' in Hsrc. by injection Hsrc as ->.
Qed.

Lemma propagate_state_copies_witness :
  get_value (propagate_state plain_arc "forward" plain_store).2 3%nat
  = get_value plain_store 1%nat.
Proof.
  apply (propagate_state_copies plain_arc "forward" (source plain_arc)
           (destination plain_arc) plain_store _ "F" [] 1%nat 3%nat).
  - reflexivity.
  - by vm_compute.
  - intros x Hs%list_elem_of_In Hd%list_elem_of_In. simpl in Hs, Hd. lia.
  - reflexivity.
  - reflexivity.
  - intros v' i'. unfold instance_at. simpl.
    repeat case_decide; simpl; repeat case_decide; try done; intros [=]; lia.
  - reflexivity.
  - by eexists.
Defined.

Section Compatible.
Variables value_source value_dest : Port.
Hypothesis Hvars : Forall (λ nm, ∃ data, nm.2 = IsVar data) (vars value_source).

Lemma copy_member_compatible v i s :
  (v, i) ∈ pairs value_source →
  post (copy_member value_source value_dest v i) s
    (λ _ _, is_Some (instance_at value_dest v i))
    (λ e _, (e = KeyError ∨ e = not_vars_error) ∧ instance_at value_dest v i = None).
Proof.
  intros (m & Hm & Hi)%elem_of_pairs.
  assert (∃ src_data, m = IsVar src_data) as [src_data ->].
  { apply assoc_elem_of in Hm. by apply (proj1 (Forall_forall _ _) Hvars _ Hm). }
  unfold copy_member, dict_get, instance_at.
  apply post_bind.
  destruct (assoc v (vars value_dest)) as [[data|keys]|] eqn:Hv.
  - apply post_ret. apply post_bind.
    destruct (assoc i data) as [d|] eqn:Hd; [|apply post_raise; by auto].
    apply post_ret. apply post_bind, post_gets.
    destruct (is_fixed s d); [by apply post_ret|].
    apply post_bind. rewrite Hm. apply post_ret. apply post_bind.
    destruct (assoc_is_Some i src_data Hi) as [s_ref ->].
    apply post_ret. apply post_bind, post_gets, post_modify. done.
  - apply post_ret, post_raise. by auto.
  - apply post_raise. by auto.
Qed.

Lemma copy_loops_compatible s :
  post (for_ (vars value_source).*1 (λ v,
          src_member <~ dict_get (vars value_source) v;
          for_ (member_keys src_member) (λ i,
            copy_member value_source value_dest v i))) s
    (λ _ _, ∀ v i, (v, i) ∈ pairs value_source → is_Some (instance_at value_dest v i))
    (λ e _, (e = KeyError ∨ e = not_vars_error) ∧
            ∃ v i, (v, i) ∈ pairs value_source ∧ instance_at value_dest v i = None).
Proof.
  eapply post_mono;
    [apply (post_for_each _ (λ _, True)
              (λ (vi : string * Index) (_ : gmap Ref VarData),
                 is_Some (instance_at value_dest vi.1 vi.2))
              (λ v vi, vi ∈ pairs value_source ∧ vi.1 = v)
              (λ e _, (e = KeyError ∨ e = not_vars_error) ∧
                      ∃ v i, (v, i) ∈ pairs value_source ∧
                             instance_at value_dest v i = None)); [done|]| |done].
  - intros v s1 Hv _. apply post_bind. unfold dict_get.
    destruct (assoc_is_Some v (vars value_source) Hv) as [m Hm]. rewrite Hm.
    apply post_ret.
    eapply post_mono;
      [apply (post_for_each _ (λ _, True)
                (λ (vi : string * Index) (_ : gmap Ref VarData),
                   is_Some (instance_at value_dest vi.1 vi.2))
                (λ i vi, vi = (v, i))
                (λ e _, (e = KeyError ∨ e = not_vars_error) ∧
                        ∃ v i, (v, i) ∈ pairs value_source ∧
                               instance_at value_dest v i = None)); [done|]| |done].
    + intros i s2 Hi _.
      assert ((v, i) ∈ pairs value_source) as Hvi.
      { apply elem_of_pairs. by exists m. }
      eapply post_mono; [by apply copy_member_compatible| |].
      * intros [] s3 Hok. simpl. split; [done|]. split; [by intros vi ->|done].
      * intros e s3 [He Hnone]. split; [done|]. by exists v, i.
    + intros [] s2 (_ & Hcov & _). simpl. split; [done|]. split; [|done].
      intros [v' i] [Hvi Hv']. simpl in Hv'. subst v'.
      apply elem_of_pairs in Hvi as (m' & Hm' & Hi).
      rewrite Hm in Hm'. injection Hm' as <-. by apply (Hcov i (v, i)).
  - intros [] s1 (_ & Hcov & _) v i Hvi. simpl.
    apply (Hcov v (v, i)); [|done].
    apply elem_of_pairs in Hvi as (m & Hm & _). by eapply assoc_elem_of_keys.
Qed.

End Compatible.

(** For a source port whose members are Vars, [propagate_state] returns
    normally exactly when the destination port has, for every member name and
    index of the source port, a Var of that name with that index; otherwise it
    raises [KeyError] (no member of that name, or no such index) or the
    [TypeError] for a member that is not a Var. *)
Theorem propagate_state_succeeds_iff (stream : Arc) (direction : string)
    (value_source value_dest : Port) (s : gmap Ref VarData) :
  ends stream direction = Some (value_source, value_dest) →
  Forall (λ nm, ∃ data, nm.2 = IsVar data) (vars value_source) →
  let r := propagate_state stream direction s in
  (r.1 = Ok tt ↔
   ∀ v i, (v, i) ∈ pairs value_source → is_Some (instance_at value_dest v i)) ∧
  (r.1 ≠ Ok tt → r.1 = Raise KeyError ∨ r.1 = Raise not_vars_error).
Proof.
  intros Hends Hvars r.
  pose proof (copy_loops_compatible value_source value_dest Hvars s) as HP.
  subst r. unfold propagate_state. rewrite Hends. unfold post in HP.
  destruct (for_ _ _ s) as [[[]|e] s']; simpl.
  - split; [done|]. by intros [].
  - destruct HP as [He (v & i & Hvi & Hnone)]. split.
    + split; [done|]. intros Hall. destruct (Hall v i Hvi) as [d Hd]. congruence.
    + intros _. by destruct He as [->| ->]; [left|right].
Qed.

Lemma propagate_state_succeeds_iff_witness :
  (propagate_state plain_arc "forward" plain_store).1 = Ok tt ↔
  ∀ v i, (v, i) ∈ pairs (source plain_arc) →
         is_Some (instance_at (destination plain_arc) v i).
Proof.
  refine (proj1 (propagate_state_succeeds_iff plain_arc "forward" (source plain_arc)
                   (destination plain_arc) plain_store eq_refl _)).
  repeat constructor; by eexists.
Defined.

End PortsFacts.

(** ** [fix_state_vars] and [revert_state_vars] *)

Module StateBlocksFacts.
Import StateBlocks.
Local Open Scope sb_scope.

(** *** The three loops as one *)

Lemma bind_ret_tt {St} (m : M St unit) s : bind m (λ _, ret tt) s = m s.
Proof. unfold bind, ret. by destruct (m s) as [[[]|e] s']. Qed.

Lemma for_app {St A} (l1 l2 : list A) (body : A → M St unit) s :
  for_ (l1 ++ l2) body s = bind (for_ l1 body) (λ _, for_ l2 body) s.
Proof.
  revert s. induction l1 as [|x l1 IH]; intros s; simpl; [done|].
  unfold bind in *. destruct (body x s) as [[[]|e] s']; [apply IH|done].
Qed.

Lemma for_ext {St A} (l : list A) (f g : A → M St unit) :
  (∀ x, x ∈ l → ∀ s, f x s = g x s) → ∀ s, for_ l f s = for_ l g s.
Proof.
  induction l as [|x l IH]; intros Hfg s; simpl; [done|].
  unfold bind. rewrite Hfg by left. destruct (g x s) as [[[]|e] s']; [|done].
  apply IH. intros y Hy. apply Hfg. by right.
Qed.

Lemma for_list_bind {St A B} (l : list A) (g : A → list B) (body : B → M St unit) s :
  for_ (l ≫= g) body s = for_ l (λ x, for_ (g x) body) s.
Proof.
  revert s. induction l as [|x l IH]; intros s; [done|].
  rewrite bind_cons, for_app. simpl. unfold bind.
  destruct (for_ (g x) body s) as [[[]|e] s']; [apply IH|done].
Qed.

Lemma for_visits {St} (blk : list (Z * StateBlockData))
    (body : Z → string → Var → option (list string) → M St unit)
    (flat : (Z * string * option (list string)) * string * Ref → M St unit) :
  (∀ k n v i r s, Ports.assoc i (data v) = Some r →
     body k n v i s = flat ((k, n, i), name v, r) s) →
  ∀ s,
    for_ blk.*1 (λ k,
      b <~ dict_get blk k;
      for_ (define_state_vars b) (λ nv,
        for_ (data nv.2).*1 (λ i, body k nv.1 nv.2 i))) s
    = for_ (visits blk) flat s.
Proof.
  intros Hbody s. unfold visits. rewrite for_list_bind. apply for_ext.
  intros k Hk s1. destruct (PortsFacts.assoc_is_Some k blk Hk) as [b Hb].
  unfold dict_get. rewrite Hb. unfold bind at 1, ret. simpl.
  rewrite app_nil_r, for_list_bind. apply for_ext.
  intros [n v] _ s2. simpl. rewrite for_list_bind. apply for_ext.
  intros i Hi s3. destruct (PortsFacts.assoc_is_Some i (data v) Hi) as [r Hr].
  rewrite Hr. simpl. rewrite bind_ret_tt. by apply Hbody.
Qed.

(** *** One visit of [fix_state_vars] *)

Local Abbreviation fix_step state_args :=
  (λ v : (Z * string * option (list string)) * string * Ref,
     fix_ref state_args v.1.1 v.1.2 v.2).

Local Abbreviation fixed_at state_args s v :=
  (alter (λ _ : VarData, {| value := target_value state_args s v; fixed := true |})
     v.2 s).

Lemma fix_ref_eq state_args v st :
  fix_ref state_args v.1.1 v.1.2 v.2 st =
  let st1 := set_flag v.1.1 (is_fixed (store st) v.2) st in
  match fault state_args (store st) v with
  | Some e => (Raise e, st1)
  | None =>
      (Ok tt, if is_fixed (store st) v.2 then st1
              else on_store (λ s, fixed_at state_args s v) st1)
  end.
Proof.
  destruct v as [[[[k n] i] vn] r]. unfold fix_ref, fault, target_value. simpl.
  unfold bind at 1, gets at 1. unfold bind at 1, modify at 1. simpl.
  destruct (is_fixed (store st) r) eqn:Hfix; [done|].
  destruct (Ports.assoc n state_args) as [o|].
  - unfold bind, except_KeyError, guess_for, guess_outcome, subscript.
    destruct i as [idx|]; [|done].
    destruct o as [q|d]; [done|].
    by destruct (Ports.assoc idx d).
  - unfold bind, gets, value_of. simpl.
    destruct (store st !! r) as [[[val|] f]|] eqn:Hr; simpl; [|done|done].
    unfold modify, on_store, fix_. simpl. f_equal. f_equal.
    apply map_eq. intros x. destruct (decide (r = x)) as [<-|Hne].
    + by rewrite !lookup_alter_eq, Hr.
    + by rewrite !lookup_alter_ne.
Qed.

Lemma fix_step_cases state_args v st :
  let res := fix_ref state_args v.1.1 v.1.2 v.2 st in
  flags res.2 = <[v.1.1 := is_fixed (store st) v.2]> (flags st) ∧
  ((is_fixed (store st) v.2 = true ∧ res.1 = Ok tt ∧ store res.2 = store st) ∨
   (is_fixed (store st) v.2 = false ∧
    ((∃ e, fault state_args (store st) v = Some e ∧ res.1 = Raise e ∧
           store res.2 = store st) ∨
     (fault state_args (store st) v = None ∧ res.1 = Ok tt ∧
      store res.2 = fixed_at state_args (store st) v)))).
Proof.
  rewrite fix_ref_eq. simpl.
  destruct (is_fixed (store st) v.2) eqn:Hfix.
  - assert (fault state_args (store st) v = None) as ->.
    { unfold fault. by rewrite Hfix. }
    simpl. split; [done|]. by left.
  - destruct (fault state_args (store st) v) as [e|] eqn:Hfault; simpl.
    + split; [done|]. right. split; [done|]. left. by exists e.
    + split; [done|]. right. split; [done|]. by right.
Qed.

Lemma is_fixed_lookup s1 s2 (r : Ref) : s1 !! r = s2 !! r → is_fixed s1 r = is_fixed s2 r.
Proof. unfold is_fixed. by intros ->. Qed.

Lemma fault_lookup state_args s1 s2 v :
  s1 !! v.2 = s2 !! v.2 → fault state_args s1 v = fault state_args s2 v.
Proof. unfold fault, is_fixed, value_of. by intros ->. Qed.

Lemma target_value_lookup state_args s1 s2 v :
  s1 !! v.2 = s2 !! v.2 → target_value state_args s1 v = target_value state_args s2 v.
Proof. unfold target_value, value_of. by intros ->. Qed.

Lemma fix_step_other state_args v st x :
  v.2 ≠ x ∨ is_fixed (store st) x = true →
  store (fix_ref state_args v.1.1 v.1.2 v.2 st).2 !! x = store st !! x.
Proof.
  intros Hx. destruct (fix_step_cases state_args v st) as [_ Hstore].
  destruct Hstore as [(_ & _ & ->)|(Hf & [(e & _ & _ & ->)|(_ & _ & ->)])]; [done..|].
  rewrite lookup_alter_ne; [done|]. destruct Hx as [Hx|Hx]; [done|congruence].
Qed.

(** *** The loop of [fix_state_vars] over a list of visits *)

Lemma fix_flat_frame state_args vs st :
  let st' := (for_ vs (fix_step state_args) st).2 in
  (∀ x, is_fixed (store st) x = true → store st' !! x = store st !! x) ∧
  (∀ x, x ∉ vs.*2 → store st' !! x = store st !! x) ∧
  (∀ x, is_Some (store st' !! x) ↔ is_Some (store st !! x)) ∧
  (∀ x d', store st' !! x = Some d' → store st !! x = Some d' ∨ fixed d' = true).
Proof.
  revert st. induction vs as [|v vs IH]; intros st; [by repeat split; auto|].
  simpl. unfold bind.
  destruct (fix_step_cases state_args v st) as [_ Hstore].
  destruct (fix_ref state_args v.1.1 v.1.2 v.2 st) as [[[]|e] st1] eqn:Hstep; simpl in *.
  - destruct (IH st1) as (IH1 & IH2 & IH3 & IH4).
    destruct (for_ vs (fix_step state_args) st1) as [res st']. simpl in *.
    destruct Hstore as [(_ & _ & Hs)|(Hfix & [(e & _ & [=] & _)|(_ & _ & Hs)])];
      rewrite Hs in *.
    { split; [done|]. split; [|done].
      intros x Hx. apply IH2. intros Hin. apply Hx. by right. }
    split; [|split; [|split]].
    + intros x Hx. assert (v.2 ≠ x) as Hne by congruence.
      rewrite IH1; [by rewrite lookup_alter_ne|].
      unfold is_fixed in *. by rewrite lookup_alter_ne.
    + intros x Hx. rewrite not_elem_of_cons in Hx. destruct Hx as [Hne Hx].
      rewrite IH2 by done. by rewrite lookup_alter_ne.
    + intros x. rewrite IH3. destruct (decide (v.2 = x)) as [<-|Hne].
      * rewrite lookup_alter_eq. apply fmap_is_Some.
      * by rewrite lookup_alter_ne.
    + intros x d' Hx. destruct (IH4 x d' Hx) as [Hd|Hd]; [|by right].
      destruct (decide (v.2 = x)) as [<-|Hne].
      * rewrite lookup_alter_eq in Hd. right.
        destruct (store st !! v.2); simpl in Hd; [|done]. by injection Hd as <-.
      * rewrite lookup_alter_ne in Hd by done. by left.
  - destruct Hstore as [(_ & [=] & _)|(_ & [(e' & _ & _ & Hs)|(_ & [=] & _)])].
    rewrite Hs. by repeat split; auto.
Qed.

Lemma for_cons_Ok {St A} (x : A) (l : list A) (body : A → M St unit) s s' :
  for_ (x :: l) body s = (Ok tt, s') →
  ∃ s1, body x s = (Ok tt, s1) ∧ for_ l body s1 = (Ok tt, s').
Proof.
  simpl. unfold bind. destruct (body x s) as [[[]|e] s1]; [|done]. by exists s1.
Qed.

Lemma is_fixed_alter_eq s r val :
  is_Some (s !! r) →
  is_fixed (alter (λ _ : VarData, {| value := val; fixed := true |}) r s) r = true.
Proof. intros [d Hd]. unfold is_fixed. by rewrite lookup_alter_eq, Hd. Qed.

Lemma fix_flat_success state_args vs st st' :
  for_ vs (fix_step state_args) st = (Ok tt, st') →
  (∀ v, v ∈ vs → is_Some (store st !! v.2) → is_fixed (store st') v.2 = true) ∧
  (∀ key, is_Some (flags st' !! key) ↔ key ∈ vs.*1.*1 ∨ is_Some (flags st !! key)) ∧
  (∀ key, key ∉ vs.*1.*1 → flags st' !! key = flags st !! key).
Proof.
  revert st. induction vs as [|v vs IH]; intros st Hrun.
  { injection Hrun as <-. split; [by intros v ?%elem_of_nil|]. split; [|done].
    intros key. split; [by right|]. by intros [?%elem_of_nil|?]. }
  apply for_cons_Ok in Hrun as (st1 & Hstep & Hrun). cbn beta in Hstep.
  destruct (fix_step_cases state_args v st) as [Hflags Hstore].
  rewrite Hstep in Hflags, Hstore. simpl in Hflags, Hstore.
  destruct (IH st1 Hrun) as (IH1 & IH2 & IH3).
  pose proof (fix_flat_frame state_args vs st1) as (F1 & _ & _ & _).
  rewrite Hrun in F1. simpl in F1.
  assert (∀ x, is_Some (store st1 !! x) ↔ is_Some (store st !! x)) as Hdom.
  { intros x. destruct Hstore as [(_ & _ & ->)|(_ & [(e & _ & [=] & _)|(_ & _ & ->)])];
      [done|].
    destruct (decide (v.2 = x)) as [<-|Hne].
    - rewrite lookup_alter_eq. apply fmap_is_Some.
    - by rewrite lookup_alter_ne. }
  split; [|split].
  - intros u [->|Hu]%elem_of_cons Hin.
    + assert (is_fixed (store st1) v.2 = true) as Hfixed.
      { destruct Hstore as [(Hf & _ & ->)|(_ & [(e & _ & [=] & _)|(_ & _ & ->)])];
          [done|]. by apply is_fixed_alter_eq. }
      unfold is_fixed. rewrite F1 by done. exact Hfixed.
    + apply IH1; [done|]. by apply Hdom.
  - intros key. rewrite IH2, Hflags. simpl.
    destruct (decide (v.1.1 = key)) as [<-|Hne].
    + rewrite lookup_insert_eq. split; [intros _; left; left|by eauto].
    + rewrite lookup_insert_ne by done. rewrite elem_of_cons. naive_solver.
  - intros key Hkey. simpl in Hkey. rewrite not_elem_of_cons in Hkey.
    destruct Hkey as [Hne Hkey]. rewrite IH3 by done. rewrite Hflags.
    by rewrite lookup_insert_ne.
Qed.

Lemma fault_Some_unfixed state_args s v e :
  fault state_args s v = Some e → is_fixed s v.2 = false.
Proof. unfold fault. by destruct (is_fixed s v.2). Qed.

Lemma fix_flat_failure state_args vs st e st' :
  for_ vs (fix_step state_args) st = (Raise e, st') →
  ∃ pre v suf st1,
    vs = pre ++ v :: suf ∧
    for_ pre (fix_step state_args) st = (Ok tt, st1) ∧
    fault state_args (store st) v = Some e ∧
    store st1 !! v.2 = store st !! v.2 ∧ store st' = store st1.
Proof.
  revert st. induction vs as [|v vs IH]; intros st Hrun; [done|].
  simpl in Hrun. unfold bind in Hrun.
  destruct (fix_step_cases state_args v st) as [_ Hstore].
  pose proof (fix_step_other state_args v st) as Hother.
  destruct (fix_ref state_args v.1.1 v.1.2 v.2 st) as [[[]|e1] st1] eqn:Hstep;
    simpl in Hstore, Hother.
  - destruct (IH st1 Hrun) as (pre & u & suf & st2 & -> & Hpre & Hfault & Hu & Hs).
    assert (store st1 !! u.2 = store st !! u.2) as Hsame.
    { destruct Hstore as [(_ & _ & ->)|(_ & [(e' & _ & [=] & _)|(_ & _ & Hs1)])];
        [done|].
      destruct (decide (v.2 = u.2)) as [Heq|Hne]; [|apply Hother; by left].
      pose proof (fault_Some_unfixed _ _ _ _ Hfault) as Hunfixed.
      unfold is_fixed in Hunfixed. rewrite Hs1, <- Heq, lookup_alter_eq in Hunfixed.
      rewrite Hs1, <- Heq, lookup_alter_eq. by destruct (store st !! v.2). }
    exists (v :: pre), u, suf, st2. split; [done|]. split.
    { simpl. unfold bind. by rewrite Hstep. }
    split; [by rewrite <- (fault_lookup _ _ _ _ Hsame)|].
    split; [by rewrite Hu|done].
  - injection Hrun as <- <-.
    destruct Hstore as [(_ & [=] & _)|(_ & [(e' & Hf & [= <-] & Hs)|(_ & [=] & _)])].
    by exists [], v, vs, st.
Qed.

(** When no instance is visited twice, every visit is judged in the store
    the call started from. *)
Lemma fix_flat_exact state_args vs st st' :
  for_ vs (fix_step state_args) st = (Ok tt, st') →
  NoDup vs.*2 →
  ∀ v, v ∈ vs →
    fault state_args (store st) v = None ∧
    store st' !! v.2 =
      (if is_fixed (store st) v.2 then store st !! v.2
       else (λ _, {| value := target_value state_args (store st) v; fixed := true |})
              <$> store st !! v.2) ∧
    (NoDup vs.*1.*1 → flags st' !! v.1.1 = Some (is_fixed (store st) v.2)).
Proof.
  revert st. induction vs as [|u vs IH]; intros st Hrun Hnd v Hv;
    [by apply elem_of_nil in Hv|].
  apply for_cons_Ok in Hrun as (st1 & Hstep & Hrun). cbn beta in Hstep.
  simpl in Hnd. apply NoDup_cons in Hnd as [Hu Hnd].
  destruct (fix_step_cases state_args u st) as [Hflags Hstore].
  pose proof (fix_step_other state_args u st) as Hother.
  rewrite Hstep in Hflags, Hstore, Hother. simpl in Hflags, Hstore, Hother.
  pose proof (fix_flat_frame state_args vs st1) as (_ & F2 & _ & _).
  destruct (fix_flat_success state_args vs st1 st' Hrun) as (_ & _ & S3).
  rewrite Hrun in F2. simpl in F2.
  apply elem_of_cons in Hv as [->|Hv].
  - rewrite (F2 _ Hu).
    destruct Hstore as [(Hf & _ & Hs)|(Hf & [(e & _ & [=] & _)|(Hfault & _ & Hs)])];
      rewrite Hf, Hs.
    + split; [unfold fault; by rewrite Hf|]. split; [done|].
      intros [Hk _]%NoDup_cons. by rewrite (S3 _ Hk), Hflags, lookup_insert_eq, Hf.
    + split; [done|]. split; [by rewrite lookup_alter_eq|].
      intros [Hk _]%NoDup_cons. by rewrite (S3 _ Hk), Hflags, lookup_insert_eq, Hf.
  - assert (u.2 ≠ v.2) as Hne.
    { intros Heq. apply Hu. rewrite Heq. apply list_elem_of_fmap. by exists v. }
    destruct (IH st1 Hrun Hnd v Hv) as (IHa & IHb & IHc).
    specialize (Hother v.2 (or_introl Hne)).
    rewrite (fault_lookup _ _ _ _ Hother) in IHa.
    rewrite (target_value_lookup _ _ _ _ Hother),
      (is_fixed_lookup _ _ _ Hother), Hother in IHb.
    rewrite (is_fixed_lookup _ _ _ Hother) in IHc.
    split; [done|]. split; [done|]. intros [_ Hk]%NoDup_cons. by apply IHc.
Qed.

(** When no key is visited twice, the flags tell which instances were
    fixed on entry. *)
Lemma fix_flat_flags state_args vs st st' :
  for_ vs (fix_step state_args) st = (Ok tt, st') →
  NoDup vs.*1.*1 →
  (∀ v, v ∈ vs → is_fixed (store st) v.2 = true → flags st' !! v.1.1 = Some true) ∧
  (∀ x, is_fixed (store st) x = false → x ∈ vs.*2 →
     ∃ v, v ∈ vs ∧ v.2 = x ∧ flags st' !! v.1.1 = Some false).
Proof.
  revert st. induction vs as [|u vs IH]; intros st Hrun Hnd.
  { split; [by intros v ?%elem_of_nil|]. by intros x _ ?%elem_of_nil. }
  apply for_cons_Ok in Hrun as (st1 & Hstep & Hrun). cbn beta in Hstep.
  simpl in Hnd. apply NoDup_cons in Hnd as [Hu Hnd].
  destruct (fix_step_cases state_args u st) as [Hflags _].
  pose proof (fix_step_other state_args u st) as Hother.
  rewrite Hstep in Hflags, Hother. simpl in Hflags, Hother.
  destruct (fix_flat_success state_args vs st1 st' Hrun) as (_ & _ & S3).
  destruct (IH st1 Hrun Hnd) as [IH1 IH2].
  split.
  - intros v [->|Hv]%elem_of_cons Hf.
    + rewrite (S3 _ Hu), Hflags, lookup_insert_eq. by rewrite Hf.
    + apply IH1; [done|]. rewrite <- Hf. apply is_fixed_lookup, Hother. by right.
  - intros x Hf Hx. destruct (decide (u.2 = x)) as [<-|Hne].
    + exists u. split; [left|]. split; [done|].
      rewrite (S3 _ Hu), Hflags, lookup_insert_eq. by rewrite Hf.
    + simpl in Hx. apply elem_of_cons in Hx as [->|Hx]; [done|].
      destruct (IH2 x) as (v & Hv & Hvx & Hflag); [|done|].
      * rewrite <- Hf. apply is_fixed_lookup, Hother. by left.
      * exists v. split; [by right|done].
Qed.

Lemma fix_flat_all_fixed state_args vs st :
  (∀ v, v ∈ vs → is_fixed (store st) v.2 = true) →
  ∃ st', for_ vs (fix_step state_args) st = (Ok tt, st') ∧
         store st' = store st ∧
         ∀ key b, flags st' !! key = Some b →
                  flags st !! key = Some b ∨ b = true.
Proof.
  revert st. induction vs as [|u vs IH]; intros st Hall.
  { exists st. split; [done|]. split; [done|]. by left. }
  destruct (fix_step_cases state_args u st) as [Hflags Hstore].
  rewrite (Hall u) in Hflags, Hstore by left.
  destruct Hstore as [(_ & Hres & Hs)|([=] & _)].
  destruct (fix_ref state_args u.1.1 u.1.2 u.2 st) as [res st1] eqn:Hstep.
  simpl in Hflags, Hres, Hs. subst res.
  destruct (IH st1) as (st' & Hrun & Hs' & Hfl).
  { intros v Hv. rewrite Hs. apply Hall. by right. }
  exists st'. split; [|split].
  - simpl. unfold bind. by rewrite Hstep.
  - by rewrite Hs'.
  - intros key b Hb. destruct (Hfl key b Hb) as [Hb1|Hb1]; [|by right].
    rewrite Hflags in Hb1. destruct (decide (u.1.1 = key)) as [<-|Hne].
    + rewrite lookup_insert_eq in Hb1. right. congruence.
    + rewrite lookup_insert_ne in Hb1 by done. by left.
Qed.

(** *** The loop of [revert_state_vars] *)

Local Abbreviation revert_step flags :=
  (λ v : (Z * string * option (list string)) * string * Ref,
     revert_ref flags v.1.1 (ret v.2)).

Lemma revert_ref_eq (flags : gmap (Z * string * option (list string)) bool) key r s :
  revert_ref flags key (ret r) s =
  match flags !! key with
  | None => (Raise flags_mismatch, s)
  | Some true => (Ok tt, s)
  | Some false => (Ok tt, unfix r s)
  end.
Proof.
  unfold revert_ref, except_KeyError, bind, getitem.
  by destruct (flags !! key) as [[]|].
Qed.

Lemma revert_flat (flags : gmap (Z * string * option (list string)) bool) vs s :
  let res := for_ vs (revert_step flags) s in
  (∀ x, res.2 !! x = s !! x ∨
        ∃ d v, s !! x = Some d ∧
               res.2 !! x = Some {| value := value d; fixed := false |} ∧
               v ∈ vs ∧ v.2 = x ∧ flags !! v.1.1 = Some false) ∧
  ((∀ v, v ∈ vs → is_Some (flags !! v.1.1)) → res.1 = Ok tt) ∧
  (res.1 = Ok tt →
   ∀ v, v ∈ vs → is_Some (flags !! v.1.1) ∧
                 (flags !! v.1.1 = Some false → is_fixed res.2 v.2 = false)) ∧
  (res.1 ≠ Ok tt → res.1 = Raise flags_mismatch).
Proof.
  revert s. induction vs as [|u vs IH]; intros s.
  { simpl. split; [by left|]. split; [done|]. split; [|done].
    by intros _ v ?%elem_of_nil. }
  simpl. unfold bind. rewrite revert_ref_eq.
  destruct (flags !! u.1.1) as [[]|] eqn:Hu; simpl.
  - destruct (IH s) as (IH1 & IH2 & IH3 & IH4).
    destruct (for_ vs (revert_step flags) s) as [res s']. simpl in *.
    split; [|split; [|split]].
    + intros x. destruct (IH1 x) as [?|(d & v & ? & ? & ? & ? & ?)]; [by left|].
      right. exists d, v. split_and!; [done|done|by right|done|done].
    + intros Hall. apply IH2. intros v Hv. apply Hall. by right.
    + intros Hres v [->|Hv]%elem_of_cons.
      * split; [by rewrite Hu|]. by rewrite Hu.
      * by apply IH3.
    + done.
  - destruct (IH (unfix u.2 s)) as (IH1 & IH2 & IH3 & IH4).
    destruct (for_ vs (revert_step flags) (unfix u.2 s)) as [res s']. simpl in *.
    assert (∀ x, is_fixed s' x = true → is_fixed (unfix u.2 s) x = true) as Hmono.
    { intros x. unfold is_fixed.
      destruct (IH1 x) as [->|(d & v & _ & -> & _)]; [done|]. done. }
    split; [|split; [|split]].
    + intros x. unfold unfix in IH1.
      destruct (decide (u.2 = x)) as [<-|Hne].
      * destruct (s !! u.2) as [d|] eqn:Hd.
        -- right. exists d, u. split; [done|]. split; [|by split_and!; [left|..]].
           destruct (IH1 u.2) as [->|(d1 & v & Hd1 & -> & _)].
           ++ by rewrite lookup_alter_eq, Hd.
           ++ rewrite lookup_alter_eq, Hd in Hd1. by injection Hd1 as <-.
        -- left. destruct (IH1 u.2) as [->|(d1 & v & Hd1 & _)].
           ++ by rewrite lookup_alter_eq, Hd.
           ++ by rewrite lookup_alter_eq, Hd in Hd1.
      * destruct (IH1 x) as [->|(d & v & Hd & ? & ? & ? & ?)].
        -- left. by rewrite lookup_alter_ne.
        -- rewrite lookup_alter_ne in Hd by done. right. exists d, v.
           split_and!; [done|done|by right|done|done].
    + intros Hall. apply IH2. intros v Hv. apply Hall. by right.
    + intros Hres v [->|Hv]%elem_of_cons.
      * split; [by rewrite Hu|]. intros _.
        destruct (is_fixed s' u.2) eqn:Hf; [|done].
        apply Hmono in Hf. unfold is_fixed, unfix in Hf.
        rewrite lookup_alter_eq in Hf. by destruct (s !! u.2).
      * by apply IH3.
    + done.
  - split; [by left|]. split; [|split; [done|done]].
    intros Hall. destruct (Hall u) as [b Hb]; [left|]. congruence.
Qed.

(** *** The two functions *)

Lemma fix_loops_flat state_args blk st :
  fix_loops state_args blk st = for_ (visits blk) (fix_step state_args) st.
Proof.
  unfold fix_loops. apply for_visits. intros k n v i r s Hr.
  unfold fix_instance, dict_get. by rewrite Hr.
Qed.

Lemma revert_state_vars_flat blk flags s :
  revert_state_vars blk flags s = for_ (visits blk) (revert_step flags) s.
Proof.
  unfold revert_state_vars.
  apply (for_visits blk (λ k n v i, revert_ref flags (k, n, i) (dict_get (data v) i))).
  intros k n v i r s1 Hr.
  unfold dict_get. by rewrite Hr.
Qed.

Lemma fix_state_vars_Ok_inv blk state_args s flags s' :
  fix_state_vars blk state_args s = (Ok flags, s') →
  ∃ st', for_ (visits blk) (fix_step (default [] state_args))
           {| store := s; flags := ∅ |} = (Ok tt, st') ∧
         flags = StateBlocks.flags st' ∧ s' = store st'.
Proof.
  unfold fix_state_vars. rewrite fix_loops_flat.
  destruct (for_ _ _ _) as [[[]|e] st']; [|done]. intros [= <- <-]. by exists st'.
Qed.

Lemma fix_state_vars_Raise_inv blk state_args s e s' :
  fix_state_vars blk state_args s = (Raise e, s') →
  ∃ st', for_ (visits blk) (fix_step (default [] state_args))
           {| store := s; flags := ∅ |} = (Raise e, st') ∧ s' = store st'.
Proof.
  unfold fix_state_vars. rewrite fix_loops_flat.
  destruct (for_ _ _ _) as [[[]|e'] st']; [done|]. intros [= <- <-]. by exists st'.
Qed.

Example fix_flow_block :
  let r := fix_state_vars flow_block (Some flow_args) flow_store in
  r.2 = flow_fixed ∧
  match r.1 with
  | Ok flags =>
      map_to_list flags =
        [ ((0, "mole_frac", Some ["H2O"]), false);
          ((0, "mole_frac", Some ["CO2"]), true);
          ((0, "flow_mol", None), false) ]
  | Raise _ => False
  end.
Proof. split; by vm_compute. Qed.

(** Whatever it returns or raises, [fix_state_vars] leaves every variable
    that was fixed on entry as it was, value and flag (a guess in
    [state_args] does not override it), leaves every variable that is not a
    state variable of the block as it was, neither creates nor deletes a
    variable, and unfixes nothing: a variable it has changed is fixed. *)
Theorem fix_state_vars_frame (blk : list (Z * StateBlockData))
    (state_args : option (list (string * PyVal))) (s : gmap Ref VarData) :
  let r := fix_state_vars blk state_args s in
  (∀ x d, s !! x = Some d → fixed d = true → r.2 !! x = Some d) ∧
  (∀ x, x ∉ (visits blk).*2 → r.2 !! x = s !! x) ∧
  (∀ x, is_Some (r.2 !! x) ↔ is_Some (s !! x)) ∧
  (∀ x d', r.2 !! x = Some d' → s !! x = Some d' ∨ fixed d' = true).
Proof.
  intros r.
  pose proof (fix_flat_frame (default [] state_args) (visits blk)
                {| store := s; flags := ∅ |}) as (F1 & F2 & F3 & F4).
  assert (r.2 = store (for_ (visits blk) (fix_step (default [] state_args))
                         {| store := s; flags := ∅ |}).2) as ->.
  { subst r. unfold fix_state_vars. rewrite fix_loops_flat.
    by destruct (for_ _ _ _) as [[[]|e] st']. }
  simpl in *. split; [|done].
  intros x d Hx Hd. rewrite F1; [done|]. unfold is_fixed. by rewrite Hx.
Qed.

Lemma is_fixed_value_lookup (s : gmap Ref VarData) r d :
  s !! r = Some d → is_fixed s r = fixed d ∧ value_of s r = value d.
Proof. unfold is_fixed, value_of. by intros ->. Qed.

(** When [fix_state_vars] returns, every state variable of the block is
    fixed and the flags have an entry for exactly the keys [(k, n, i)] of the
    block.  If no instance is reached twice, a variable that was not fixed now
    has the guess [state_args] gives for it or, without a guess, the value it
    had; and if moreover no key occurs twice, the flag of each key is the fixed
    status its variable had on entry. *)
Theorem fix_state_vars_fixes (blk : list (Z * StateBlockData))
    (state_args : option (list (string * PyVal))) (s s' : gmap Ref VarData)
    (flags : gmap (Z * string * option (list string)) bool) :
  fix_state_vars blk state_args s = (Ok flags, s') →
  (∀ v, v ∈ visits blk → is_Some (s !! v.2) → is_fixed s' v.2 = true) ∧
  (∀ key, is_Some (flags !! key) ↔ key ∈ (visits blk).*1.*1) ∧
  (NoDup (visits blk).*2 →
   ∀ v, v ∈ visits blk →
     (is_fixed s v.2 = false → is_Some (s !! v.2) →
      value_of s' v.2 = target_value (default [] state_args) s v) ∧
     (NoDup (visits blk).*1.*1 → flags !! v.1.1 = Some (is_fixed s v.2))).
Proof.
  intros (st' & Hrun & -> & ->)%fix_state_vars_Ok_inv.
  destruct (fix_flat_success _ _ _ _ Hrun) as (S1 & S2 & _). simpl in *.
  split; [done|]. split.
  - intros key. rewrite S2, lookup_empty. split; [|by left].
    by intros [?|[? [=]]].
  - intros Hnd v Hv.
    destruct (fix_flat_exact _ _ _ _ Hrun Hnd v Hv) as (_ & Hstore & Hflag).
    simpl in *. split; [|done].
    intros Hf [d Hd]. rewrite Hf, Hd in Hstore. simpl in Hstore.
    by destruct (is_fixed_value_lookup _ _ _ Hstore) as [_ ->].
Qed.

Lemma fix_state_vars_fixes_witness :
  ∃ flags s',
    fix_state_vars flow_block (Some flow_args) flow_store = (Ok flags, s') ∧
    is_fixed s' 2%nat = true ∧
    value_of s' 2%nat = Some (Num (3 # 5)%Q) ∧
    value_of s' 1%nat = Some (Num 10%Q) ∧
    flags !! (0, "mole_frac", Some ["CO2"]) = Some true ∧
    flags !! (0, "mole_frac", Some ["H2O"]) = Some false.
Proof.
  destruct (fix_state_vars flow_block (Some flow_args) flow_store)
    as [[flags|e] s'] eqn:Hrun.
  - exists flags, s'. split; [done|].
    destruct (fix_state_vars_fixes _ _ _ _ _ Hrun) as (Hfixed & _ & Hexact).
    assert (NoDup (visits flow_block).*2) as Hrefs.
    { apply (bool_decide_unpack _). by vm_compute. }
    assert (NoDup (visits flow_block).*1.*1) as Hkeys.
    { apply (bool_decide_unpack _). by vm_compute. }
    assert (((0, "mole_frac", Some ["H2O"]), "props[0].mole_frac", 2%nat)
              ∈ visits flow_block) as H2 by (apply (bool_decide_unpack _); by vm_compute).
    assert (((0, "mole_frac", Some ["CO2"]), "props[0].mole_frac", 3%nat)
              ∈ visits flow_block) as H3 by (apply (bool_decide_unpack _); by vm_compute).
    assert (((0, "flow_mol", None), "props[0].flow_mol", 1%nat)
              ∈ visits flow_block) as H1 by (apply (bool_decide_unpack _); by vm_compute).
    split; [apply (Hfixed _ H2); by eexists|].
    split; [apply (proj1 (Hexact Hrefs _ H2)); [done|by eexists]|].
    split; [apply (proj1 (Hexact Hrefs _ H1)); [done|by eexists]|].
    split; [apply (proj2 (Hexact Hrefs _ H3) Hkeys)|apply (proj2 (Hexact Hrefs _ H2) Hkeys)].
  - apply (f_equal (λ r, match r.1 with Ok _ => true | Raise _ => false end)) in Hrun.
    by vm_compute in Hrun.
Defined.

(** When [fix_state_vars] raises, it is at a state variable that is not
    fixed and for which the guess cannot be read or there is neither guess nor
    value; the exception is the one [fault] names for it in the store on
    entry.  That variable is left as it was, the state variables before it in
    the order of the loops are left fixed (nothing is rolled back), and
    everything else is untouched.  If no instance is reached twice, it is the
    first such variable. *)
Theorem fix_state_vars_failure (blk : list (Z * StateBlockData))
    (state_args : option (list (string * PyVal))) (s s' : gmap Ref VarData) (e : exn) :
  fix_state_vars blk state_args s = (Raise e, s') →
  ∃ pre v suf,
    visits blk = pre ++ v :: suf ∧
    fault (default [] state_args) s v = Some e ∧
    s' !! v.2 = s !! v.2 ∧
    (∀ u, u ∈ pre → is_Some (s !! u.2) → is_fixed s' u.2 = true) ∧
    (∀ x, x ∉ pre.*2 → s' !! x = s !! x) ∧
    (NoDup (visits blk).*2 → ∀ u, u ∈ pre → fault (default [] state_args) s u = None).
Proof.
  intros (st' & Hrun & ->)%fix_state_vars_Raise_inv.
  apply fix_flat_failure in Hrun
    as (pre & v & suf & st1 & Hsplit & Hpre & Hfault & Hv & Hs).
  rewrite Hs. clear Hs st'.
  pose proof (fix_flat_frame (default [] state_args) pre {| store := s; flags := ∅ |})
    as (_ & F2 & _ & _).
  rewrite Hpre in F2. simpl in F2.
  destruct (fix_flat_success _ _ _ _ Hpre) as (S1 & _ & _). simpl in *.
  exists pre, v, suf. split; [done|]. split; [done|].
  split; [done|]. split; [done|]. split; [done|].
  intros Hnd u Hu. rewrite Hsplit, !fmap_app in Hnd.
  apply NoDup_app in Hnd as (Hnd & _ & _).
  by destruct (fix_flat_exact _ _ _ _ Hpre Hnd u Hu) as (? & _).
Qed.

Lemma fix_state_vars_failure_witness :
  ∃ e s',
    fix_state_vars flow_block None flow_store = (Raise e, s') ∧
    ∃ pre v suf,
      visits flow_block = pre ++ v :: suf ∧
      fault [] flow_store v = Some e ∧
      s' !! v.2 = flow_store !! v.2 ∧
      (∀ u, u ∈ pre → is_Some (flow_store !! u.2) → is_fixed s' u.2 = true) ∧
      (∀ x, x ∉ pre.*2 → s' !! x = flow_store !! x) ∧
      (NoDup (visits flow_block).*2 → ∀ u, u ∈ pre → fault [] flow_store u = None).
Proof.
  destruct (fix_state_vars flow_block None flow_store) as [[flags|e] s'] eqn:Hrun.
  - apply (f_equal (λ r, match r.1 with Ok _ => true | Raise _ => false end)) in Hrun.
    by vm_compute in Hrun.
  - exists e, s'. split; [done|]. exact (fix_state_vars_failure _ _ _ _ _ Hrun).
Defined.

Example fix_flow_block_no_guess :
  fix_state_vars flow_block None flow_store
  = (Raise (no_value "props[0].mole_frac"),
     <[1%nat := {| value := Some (Num 10%Q); fixed := true |}]> flow_store).
Proof. by vm_compute. Qed.

(** When no instance is reached twice, [fix_state_vars] returns normally
    if and only if every state variable of the block is fixed already, or has
    a guess in [state_args] that can be read for its index, or has no entry in
    [state_args] and has a value. *)
Theorem fix_state_vars_succeeds_iff (blk : list (Z * StateBlockData))
    (state_args : option (list (string * PyVal))) (s : gmap Ref VarData) :
  NoDup (visits blk).*2 →
  (∃ flags s', fix_state_vars blk state_args s = (Ok flags, s')) ↔
  (∀ v, v ∈ visits blk → fault (default [] state_args) s v = None).
Proof.
  intros Hnd. split.
  - intros (flags & s' & (st' & Hrun & _ & _)%fix_state_vars_Ok_inv) v Hv.
    by destruct (fix_flat_exact _ _ _ _ Hrun Hnd v Hv) as (? & _).
  - intros Hall.
    destruct (fix_state_vars blk state_args s) as [[flags|e] s'] eqn:Hrun;
      [by exists flags, s'|].
    apply fix_state_vars_Raise_inv in Hrun as (st' & Hrun & _).
    apply fix_flat_failure in Hrun as (pre & v & suf & _ & Hsplit & _ & Hfault & _).
    simpl in Hfault. rewrite Hall in Hfault; [done|].
    rewrite Hsplit. apply elem_of_app. right. left.
Qed.

Lemma fix_state_vars_succeeds_iff_witness :
  (∃ flags s', fix_state_vars flow_block (Some flow_args) flow_store = (Ok flags, s')) ↔
  (∀ v, v ∈ visits flow_block → fault flow_args flow_store v = None).
Proof.
  apply (fix_state_vars_succeeds_iff flow_block (Some flow_args) flow_store).
  apply (bool_decide_unpack _). by vm_compute.
Defined.

(** [revert_state_vars] changes no value and fixes nothing: a variable it
    changes is a state variable of the block whose flag is false, and it is
    unfixed.  It returns normally if and only if the flags have an entry for
    every key of the block, and then every state variable whose flag is false
    is not fixed; otherwise it raises [ConfigurationError]. *)
Theorem revert_state_vars_only_unfixes (blk : list (Z * StateBlockData))
    (flags : gmap (Z * string * option (list string)) bool) (s : gmap Ref VarData) :
  let r := revert_state_vars blk flags s in
  (∀ x, r.2 !! x = s !! x ∨
        ∃ d v, s !! x = Some d ∧
               r.2 !! x = Some {| value := value d; fixed := false |} ∧
               v ∈ visits blk ∧ v.2 = x ∧ flags !! v.1.1 = Some false) ∧
  (r.1 = Ok tt ↔ ∀ v, v ∈ visits blk → is_Some (flags !! v.1.1)) ∧
  (r.1 = Ok tt →
   ∀ v, v ∈ visits blk → flags !! v.1.1 = Some false → is_fixed r.2 v.2 = false) ∧
  (r.1 ≠ Ok tt → r.1 = Raise flags_mismatch).
Proof.
  intros r. subst r. rewrite revert_state_vars_flat.
  destruct (revert_flat flags (visits blk) s) as (R1 & R2 & R3 & R4).
  split; [done|]. split; [|split; [|done]].
  - split; [|done]. intros Hres v Hv. by destruct (R3 Hres v Hv).
  - intros Hres v Hv. by destruct (R3 Hres v Hv).
Qed.

(** Reverting twice with the same flags is the same as reverting once: a
    [revert_state_vars] that returned leaves a store on which it returns again
    and changes nothing. *)
Theorem revert_state_vars_idempotent (blk : list (Z * StateBlockData))
    (flags : gmap (Z * string * option (list string)) bool) (s s1 : gmap Ref VarData) :
  revert_state_vars blk flags s = (Ok tt, s1) →
  revert_state_vars blk flags s1 = (Ok tt, s1).
Proof.
  rewrite !revert_state_vars_flat. intros Hrun.
  destruct (revert_flat flags (visits blk) s) as (_ & _ & R3 & _).
  destruct (revert_flat flags (visits blk) s1) as (R1' & R2' & _ & _).
  rewrite Hrun in R3. simpl in R3. specialize (R3 eq_refl).
  assert ((for_ (visits blk) (revert_step flags) s1).1 = Ok tt) as Hres.
  { apply R2'. intros v Hv. by destruct (R3 v Hv). }
  destruct (for_ (visits blk) (revert_step flags) s1) as [res s2].
  simpl in *. subst res. f_equal. apply map_eq. intros x.
  destruct (R1' x) as [?|(d & v & Hd & -> & Hv & <- & Hflag)]; [done|].
  destruct (R3 v Hv) as [_ Hunfixed]. specialize (Hunfixed Hflag).
  unfold is_fixed in Hunfixed. rewrite Hd in Hunfixed. rewrite Hd.
  destruct d as [val f]. simpl in *. by subst f.
Qed.

Lemma revert_state_vars_idempotent_witness :
  ∃ s1,
    revert_state_vars flow_block
      {[ (0, "flow_mol", None) := false;
         (0, "mole_frac", Some ["H2O"]) := false;
         (0, "mole_frac", Some ["CO2"]) := true ]} flow_fixed = (Ok tt, s1) ∧
    revert_state_vars flow_block
      {[ (0, "flow_mol", None) := false;
         (0, "mole_frac", Some ["H2O"]) := false;
         (0, "mole_frac", Some ["CO2"]) := true ]} s1 = (Ok tt, s1) ∧
    is_fixed s1 1%nat = false ∧ is_fixed s1 3%nat = true.
Proof.
  exists (<[1%nat := {| value := Some (Num 10%Q); fixed := false |}]>
            (<[2%nat := {| value := Some (Num (3 # 5)%Q); fixed := false |}]> flow_fixed)).
  assert (revert_state_vars flow_block
            {[ (0, "flow_mol", None) := false;
               (0, "mole_frac", Some ["H2O"]) := false;
               (0, "mole_frac", Some ["CO2"]) := true ]} flow_fixed
          = (Ok tt, <[1%nat := {| value := Some (Num 10%Q); fixed := false |}]>
                      (<[2%nat := {| value := Some (Num (3 # 5)%Q); fixed := false |}]>
                         flow_fixed))) as Hrun by (by vm_compute).
  split; [done|]. split; [|by vm_compute].
  exact (revert_state_vars_idempotent _ _ _ _ Hrun).
Defined.

(** Reverting with the flags [fix_state_vars] returned restores the fixed
    status every variable had before the two calls, provided no key of the
    block occurs twice: the revert returns normally, it changes none of the
    values the fixing has set, and a variable that was fixed to begin with is
    as it was. *)
Theorem fix_then_revert (blk : list (Z * StateBlockData))
    (state_args : option (list (string * PyVal))) (s s1 : gmap Ref VarData)
    (flags : gmap (Z * string * option (list string)) bool) :
  NoDup (visits blk).*1.*1 →
  fix_state_vars blk state_args s = (Ok flags, s1) →
  ∃ s2, revert_state_vars blk flags s1 = (Ok tt, s2) ∧
        (∀ x, is_fixed s2 x = is_fixed s x) ∧
        (∀ x, value_of s2 x = value_of s1 x) ∧
        (∀ x, is_fixed s x = true → s2 !! x = s !! x).
Proof.
  intros Hnd (st' & Hrun & -> & ->)%fix_state_vars_Ok_inv.
  rewrite revert_state_vars_flat.
  destruct (revert_flat (flags st') (visits blk) (store st')) as (R1 & R2 & R3 & _).
  destruct (fix_flat_success _ _ _ _ Hrun) as (_ & S2 & _).
  destruct (fix_flat_flags _ _ _ _ Hrun Hnd) as [F1 F2].
  pose proof (fix_flat_frame (default [] state_args) (visits blk)
                {| store := s; flags := ∅ |}) as (A1 & A2 & _ & _).
  rewrite Hrun in A1, A2. simpl in *.
  assert ((for_ (visits blk) (revert_step (flags st')) (store st')).1 = Ok tt) as Hres.
  { apply R2. intros v Hv. apply S2. left.
    apply list_elem_of_fmap. exists v.1. split; [done|].
    apply list_elem_of_fmap. by exists v. }
  specialize (R3 Hres).
  destruct (for_ (visits blk) (revert_step (flags st')) (store st')) as [res s2].
  simpl in *. subst res. exists s2. split; [done|].
  assert (∀ x, is_fixed s x = true → s2 !! x = s !! x) as Hkept.
  { intros x Hx. rewrite <- (A1 x Hx).
    destruct (R1 x) as [?|(d & v & _ & _ & Hv & Hvx & Hflag)]; [done|].
    subst x. rewrite (F1 v Hv Hx) in Hflag. done. }
  split; [|split; [|done]].
  - intros x. destruct (is_fixed s x) eqn:Hx.
    { rewrite <- Hx. by apply is_fixed_lookup, Hkept. }
    destruct (decide (x ∈ (visits blk).*2)) as [Hin|Hout].
    + destruct (F2 x Hx Hin) as (v & Hv & <- & Hflag).
      by destruct (R3 v Hv) as [_ ->].
    + rewrite <- Hx. apply is_fixed_lookup. rewrite <- (A2 x Hout).
      destruct (R1 x) as [?|(d & v & _ & _ & Hv & Hvx & _)]; [done|].
      exfalso. apply Hout. subst x. apply list_elem_of_fmap. by exists v.
  - intros x. unfold value_of.
    by destruct (R1 x) as [->|(d & v & -> & -> & _)].
Qed.

Lemma fix_then_revert_witness :
  ∃ flags s1 s2,
    fix_state_vars flow_block (Some flow_args) flow_store = (Ok flags, s1) ∧
    revert_state_vars flow_block flags s1 = (Ok tt, s2) ∧
    (∀ x, is_fixed s2 x = is_fixed flow_store x) ∧
    (∀ x, value_of s2 x = value_of s1 x) ∧
    (∀ x, is_fixed flow_store x = true → s2 !! x = flow_store !! x).
Proof.
  destruct (fix_state_vars flow_block (Some flow_args) flow_store)
    as [[flags|e] s1] eqn:Hrun.
  - assert (NoDup (visits flow_block).*1.*1) as Hkeys.
    { apply (bool_decide_unpack _). by vm_compute. }
    destruct (fix_then_revert _ _ _ _ _ Hkeys Hrun) as (s2 & Hrev & Hrest).
    by exists flags, s1, s2.
  - apply (f_equal (λ r, match r.1 with Ok _ => true | Raise _ => false end)) in Hrun.
    by vm_compute in Hrun.
Defined.

(** A second [fix_state_vars] after one that returned finds every state
    variable fixed: whatever guesses it is given it changes nothing and all the
    flags it returns are true, so that reverting with them unfixes nothing and
    the fixed status from before the first call is lost. *)
Theorem fix_twice_forgets (blk : list (Z * StateBlockData))
    (state_args state_args' : option (list (string * PyVal)))
    (s s1 : gmap Ref VarData)
    (flags : gmap (Z * string * option (list string)) bool) :
  (∀ v, v ∈ visits blk → is_Some (s !! v.2)) →
  fix_state_vars blk state_args s = (Ok flags, s1) →
  ∃ flags', fix_state_vars blk state_args' s1 = (Ok flags', s1) ∧
            (∀ key b, flags' !! key = Some b → b = true) ∧
            revert_state_vars blk flags' s1 = (Ok tt, s1).
Proof.
  intros Hin (st' & Hrun & -> & ->)%fix_state_vars_Ok_inv.
  destruct (fix_flat_success _ _ _ _ Hrun) as (S1 & _ & _). simpl in S1.
  destruct (fix_flat_all_fixed (default [] state_args') (visits blk)
              {| store := store st'; flags := ∅ |}) as (st2 & Hrun2 & Hs2 & Hfl2).
  { intros v Hv. simpl. apply S1; [done|]. by apply Hin. }
  simpl in Hs2, Hfl2.
  assert (∀ key b, flags st2 !! key = Some b → b = true) as Htrue.
  { intros key b Hb. by destruct (Hfl2 key b Hb) as [?|?]. }
  exists (flags st2). split; [|split; [done|]].
  - unfold fix_state_vars. rewrite fix_loops_flat, Hrun2. by rewrite Hs2.
  - rewrite revert_state_vars_flat.
    destruct (revert_flat (flags st2) (visits blk) (store st')) as (R1 & R2 & _ & _).
    destruct (fix_flat_success _ _ _ _ Hrun2) as (_ & S2 & _).
    assert ((for_ (visits blk) (revert_step (flags st2)) (store st')).1 = Ok tt) as Hres.
    { apply R2. intros v Hv. apply S2. left.
      apply list_elem_of_fmap. exists v.1. split; [done|].
      apply list_elem_of_fmap. by exists v. }
    destruct (for_ (visits blk) (revert_step (flags st2)) (store st')) as [res s2].
    simpl in *. subst res. f_equal. apply map_eq. intros x.
    destruct (R1 x) as [?|(d & v & _ & _ & _ & _ & Hflag)]; [done|].
    by apply Htrue in Hflag.
Qed.

Lemma fix_twice_forgets_witness :
  ∃ flags s1 flags',
    fix_state_vars flow_block (Some flow_args) flow_store = (Ok flags, s1) ∧
    fix_state_vars flow_block None s1 = (Ok flags', s1) ∧
    (∀ key b, flags' !! key = Some b → b = true) ∧
    revert_state_vars flow_block flags' s1 = (Ok tt, s1).
Proof.
  destruct (fix_state_vars flow_block (Some flow_args) flow_store)
    as [[flags|e] s1] eqn:Hrun.
  - assert (∀ v, v ∈ visits flow_block → is_Some (flow_store !! v.2)) as Hin.
    { intros v Hv. apply list_elem_of_In in Hv. simpl in Hv.
      destruct Hv as [<-|[<-|[<-|[]]]]; by eexists. }
    destruct (fix_twice_forgets _ _ None _ _ _ Hin Hrun) as (flags' & Hrest).
    by exists flags, s1, flags'.
  - apply (f_equal (λ r, match r.1 with Ok _ => true | Raise _ => false end)) in Hrun.
    by vm_compute in Hrun.
Defined.

End StateBlocksFacts.

(** ** [solve_indexed_blocks] *)

Module IndexedBlocksFacts.
Import Py PyFacts IndexedBlocks.
Local Open Scope py_scope.

Example solve_indexed_blocks_success :
  solve_indexed_blocks counting_solver (Objects [ABlock 7%nat; ABlock 8%nat; ABlock 9%nat]) tt
  = (Ok 3%nat, clean_up Block_concrete).
Proof. by vm_compute. Qed.

Example solve_indexed_blocks_non_block :
  solve_indexed_blocks counting_solver (Objects [ABlock 7%nat; NotABlock; ABlock 9%nat]) tt
  = (Raise (TypeError "Trying to apply solve_indexed_blocks to object containing non-Block objects"),
     clean_up Block_concrete).
Proof. by vm_compute. Qed.

Example solve_indexed_blocks_solver_raises :
  solve_indexed_blocks failing_solver (OneBlock 7%nat) tt
  = (Raise (Exception_ "solver crashed"), clean_up Block_concrete).
Proof. by vm_compute. Qed.

(** While the solver runs, the temporary block does list the caller's
    blocks, in order: this is what the [finally] clause lets go of. *)
Lemma add_components_order (g : nat → Z) (bs : list BlockId) (n : Z) (tmp : TmpBlock) :
  ∃ tmp',
    for_ (imap (λ i x, (g i, x)) (ABlock <$> bs)) (λ ib,
      match ib.2 with
      | NotABlock =>
          raise (TypeError ("Trying to apply solve_indexed_blocks to " +:+
                            "object containing non-Block objects"))
      | ABlock b =>
          try_except (modify (add_component ib.1 b n))
            (λ _, raise (Exception_ ("solve_indexed_blocks method failed adding " +:+
                                     "components to temporary block.")))
      end) tmp = (Ok tt, tmp') ∧
    (_decl_order tmp').*1 = (_decl_order tmp).*1 ++ bs ∧
    _ctypes tmp' = _ctypes tmp.
Proof.
  revert g tmp. induction bs as [|b bs IH]; intros g tmp.
  - exists tmp. by rewrite app_nil_r.
  - destruct (IH (g ∘ S) (add_component (g 0%nat) b n tmp)) as (tmp' & Hrun & Hord & Hct).
    exists tmp'. split; [|split].
    + rewrite fmap_cons, imap_cons. simpl. unfold bind at 1. simpl. exact Hrun.
    + rewrite Hord. simpl. rewrite fmap_app. simpl. by rewrite <- app_assoc.
    + by rewrite Hct.
Qed.

Lemma solver_sees_all_blocks {Results Kwds : Type}
    (solver : TmpBlock → Kwds → outcome Results * TmpBlock)
    (bs : list BlockId) (kwds : Kwds) :
  ∃ tmp,
    (_decl_order tmp).*1 = bs ∧
    _ctypes tmp !! "Block"
      = Some [0; Z.of_nat (length bs) - 1; Z.of_nat (length bs)] ∧
    solve_indexed_blocks solver (Objects (ABlock <$> bs)) kwds
      = ((solver tmp kwds).1, clean_up (solver tmp kwds).2).
Proof.
  destruct (add_components_order Z.of_nat bs
              (Z.of_nat (length (ABlock <$> bs))) Block_concrete)
    as (tmp' & Hrun & Hord & Hct).
  exists (set_ctypes (Z.of_nat (length (ABlock <$> bs))) tmp').
  split; [done|]. split.
  - simpl. rewrite lookup_insert_eq. by rewrite length_fmap.
  - unfold solve_indexed_blocks, try_finally, solve_body. simpl.
    unfold bind at 1. simpl. unfold bind at 1. unfold enumerate. rewrite Hrun.
    unfold bind at 1. simpl.
    by destruct (solver _ kwds) as [r tmp''].
Qed.

(** C9: whatever the solver does and whatever [blocks] holds, on return and
    on exception alike the temporary block's [_decl], [_decl_order] and
    [_ctypes] are empty. *)
Theorem solve_indexed_blocks_releases {Results Kwds : Type}
    (solver : TmpBlock → Kwds → outcome Results * TmpBlock)
    (blocks : BlocksArg) (kwds : Kwds) :
  let tmp := (solve_indexed_blocks solver blocks kwds).2 in
  _decl tmp = ∅ ∧ _decl_order tmp = [] ∧ _ctypes tmp = ∅.
Proof.
  unfold solve_indexed_blocks, try_finally, modify.
  by destruct (solve_body solver (as_list blocks) kwds Block_concrete) as [r tmp'].
Qed.

(** *** The block the solver is handed *)

Local Abbreviation add_body n :=
  (λ ib : Z * PyObject,
     match ib.2 with
     | NotABlock =>
         raise (TypeError ("Trying to apply solve_indexed_blocks to " +:+
                           "object containing non-Block objects"))
     | ABlock b =>
         try_except (modify (add_component ib.1 b n))
           (λ _, raise (Exception_ ("solve_indexed_blocks method failed adding " +:+
                                    "components to temporary block.")))
     end).

Lemma add_loop_run (g : nat → Z) (bs : list BlockId) (n : Z) (tmp : TmpBlock) :
  for_ (imap (λ i x, (g i, x)) (ABlock <$> bs)) (add_body n) tmp
  = (Ok tt, foldl (λ t ib, add_component ib.1 ib.2 n t) tmp
              (imap (λ i b, (g i, b)) bs)).
Proof.
  revert g tmp. induction bs as [|b bs IH]; intros g tmp; [done|].
  rewrite fmap_cons, !imap_cons. simpl. unfold bind at 1. simpl.
  apply (IH (g ∘ S)).
Qed.

Lemma fold_add_component (n : Z) (l : list (Z * BlockId)) (tmp : TmpBlock) :
  let tmp' := foldl (λ t ib, add_component ib.1 ib.2 n t) tmp l in
  concrete tmp' = concrete tmp ∧
  _ctypes tmp' = _ctypes tmp ∧
  _decl_order tmp' =
    _decl_order tmp ++
    ((λ ib, (ib.2, if decide (ib.1 < n - 1) then Some (ib.1 + 1) else None)) <$> l) ∧
  (NoDup l.*1 →
   ∀ k z, _decl tmp' !! k = Some z ↔
          (k = block_name z ∧ z ∈ l.*1) ∨
          (_decl tmp !! k = Some z ∧ ∀ j, j ∈ l.*1 → k ≠ block_name j)).
Proof.
  revert tmp. induction l as [|[i b] l IH]; intros tmp.
  { simpl. rewrite app_nil_r. split; [done|]. split; [done|]. split; [done|].
    intros _ k z. split; [intros ?; right; split; [done|by intros j ?%elem_of_nil]|].
    by intros [[_ ?%elem_of_nil]|[? _]]. }
  destruct (IH (add_component i b n tmp)) as (IH1 & IH2 & IH3 & IH4).
  simpl. split; [done|]. split; [done|]. split.
  { rewrite IH3. simpl. by rewrite <- app_assoc. }
  intros [Hi Hnd]%NoDup_cons k z. rewrite (IH4 Hnd k z). simpl.
  assert (∀ j, block_name i = block_name j → i = j) as Hinj.
  { intros j Hj. unfold block_name in Hj. simpl in Hj. injection Hj as Hj.
    by apply (inj pretty). }
  split.
  - intros [[-> Hz]|[Hk Hnot]].
    + left. split; [done|]. by right.
    + destruct (decide (block_name i = k)) as [<-|Hne].
      * rewrite lookup_insert_eq in Hk. injection Hk as <-. left. split; [done|left].
      * rewrite lookup_insert_ne in Hk by done. right. split; [done|].
        intros j [->|Hj]%elem_of_cons; [done|by apply Hnot].
  - intros [[-> [->|Hz]%elem_of_cons]|[Hk Hnot]].
    + right. split; [by rewrite lookup_insert_eq|].
      intros j Hj Heq. apply Hinj in Heq as ->. done.
    + left. by split.
    + right. split.
      * rewrite lookup_insert_ne; [done|]. intros Heq. by apply (Hnot i); [left|].
      * intros j Hj. apply Hnot. by right.
Qed.

Lemma imap_enumerate_fst {A} (l : list A) :
  (imap (λ i x, (Z.of_nat i, x)) l).*1 = Z.of_nat <$> seq 0 (length l).
Proof.
  rewrite fmap_imap. cut (∀ k, imap (λ i (_ : A), Z.of_nat (k + i)) l
                               = Z.of_nat <$> seq k (length l)).
  { intros Hcut. apply (Hcut 0%nat). }
  induction l as [|x l IH]; intros k; [done|].
  rewrite imap_cons. simpl. rewrite Nat.add_0_r. f_equal.
  rewrite <- IH. apply imap_ext. intros j y _. simpl. f_equal. lia.
Qed.

(** For a list of blocks, [solve_indexed_blocks] calls the solver once, on
    a temporary block that declares block number [i] as [block_i], lists the
    caller's blocks in their order, each with the number of the next one and
    the last with [None], and gives the range of its [Block] components as
    [[0, n-1, n]]; what the solver returns or raises is what the function
    returns or raises. *)
Theorem solve_indexed_blocks_hands_over {Results Kwds : Type}
    (solver : TmpBlock → Kwds → outcome Results * TmpBlock)
    (bs : list BlockId) (kwds : Kwds) :
  let n := Z.of_nat (length bs) in
  ∃ tmp,
    concrete tmp = true ∧
    _decl_order tmp =
      imap (λ i b, (b, if decide (Z.of_nat i < n - 1)
                       then Some (Z.of_nat i + 1) else None)) bs ∧
    (∀ k z, _decl tmp !! k = Some z ↔ k = block_name z ∧ 0 ≤ z < n) ∧
    _ctypes tmp = {[ "Block" := [0; n - 1; n] ]} ∧
    solve_indexed_blocks solver (Objects (ABlock <$> bs)) kwds
      = ((solver tmp kwds).1, clean_up (solver tmp kwds).2).
Proof.
  intros n.
  set (l := imap (λ i b, (Z.of_nat i, b)) bs).
  set (tmp' := foldl (λ t ib, add_component ib.1 ib.2 n t) Block_concrete l).
  destruct (fold_add_component n l Block_concrete) as (Hc & Hct & Hord & Hdecl).
  fold tmp' in Hc, Hct, Hord, Hdecl.
  assert (l.*1 = Z.of_nat <$> seq 0 (length bs)) as Hkeys by apply imap_enumerate_fst.
  exists (set_ctypes n tmp'). split; [done|]. split; [|split; [|split]].
  - simpl. rewrite Hord. simpl. unfold l. rewrite fmap_imap. done.
  - intros k z. simpl. rewrite Hdecl.
    + rewrite Hkeys, list_elem_of_fmap. split.
      * intros [[-> (j & -> & Hj%elem_of_seq)]|[Hk _]]; [|done].
        split; [done|]. unfold n. lia.
      * intros [-> Hz]. left. split; [done|]. exists (Z.to_nat z).
        split; [lia|]. apply elem_of_seq. unfold n in Hz. lia.
    + rewrite Hkeys. apply NoDup_fmap; [apply _|apply NoDup_seq].
  - simpl. rewrite Hct. done.
  - unfold solve_indexed_blocks, try_finally, solve_body. simpl.
    unfold bind at 1. simpl. unfold bind at 1. unfold enumerate.
    rewrite length_fmap. fold n. rewrite (add_loop_run Z.of_nat bs n Block_concrete).
    fold l. fold tmp'. unfold bind at 1. simpl.
    by destruct (solver _ kwds) as [r tmp''].
Qed.

Lemma add_loop_non_block (g : nat → Z) (l : list PyObject) (n : Z) (tmp : TmpBlock) :
  NotABlock ∈ l →
  ∃ tmp', for_ (imap (λ i x, (g i, x)) l) (add_body n) tmp
            = (Raise non_block_error, tmp') ∧
          concrete tmp' = concrete tmp.
Proof.
  revert g tmp. induction l as [|x l IH]; intros g tmp Hin;
    [by apply elem_of_nil in Hin|].
  rewrite imap_cons. simpl. unfold bind at 1. destruct x as [b|]; simpl.
  - apply elem_of_cons in Hin as [?|Hin]; [done|].
    destruct (IH (g ∘ S) (add_component (g 0%nat) b n tmp) Hin) as (tmp' & Hrun & Hc).
    by exists tmp'.
  - by exists tmp.
Qed.

(** If the list holds an object that is not a Block, [solve_indexed_blocks]
    raises [TypeError] whatever the solver is: the solver is not called, and
    the blocks added before the offending object are released. *)
Theorem solve_indexed_blocks_rejects_non_block {Results Kwds : Type}
    (solver : TmpBlock → Kwds → outcome Results * TmpBlock)
    (l : list PyObject) (kwds : Kwds) :
  NotABlock ∈ l →
  solve_indexed_blocks solver (Objects l) kwds
  = (Raise non_block_error, clean_up Block_concrete).
Proof.
  intros Hin.
  destruct (add_loop_non_block Z.of_nat l (Z.of_nat (length l)) Block_concrete Hin)
    as (tmp' & Hrun & Hc).
  unfold solve_indexed_blocks, try_finally, solve_body. simpl.
  unfold bind at 1. simpl. unfold bind at 1. unfold enumerate. rewrite Hrun.
  simpl. unfold clean_up. by rewrite Hc.
Qed.

Lemma solve_indexed_blocks_rejects_non_block_witness :
  solve_indexed_blocks failing_solver (Objects [ABlock 7%nat; NotABlock]) tt
  = (Raise non_block_error, clean_up Block_concrete).
Proof.
  apply solve_indexed_blocks_rejects_non_block. right. left.
Defined.

End IndexedBlocksFacts.

(** ** [initialize_by_time_element] *)

Module TimeElementFacts.
Import Py PyFacts TimeElement.
Local Open Scope py_scope.

(** *** Facts about the data *)

Lemma lookup_alter_all {A} (f : A → A) (l : list CompId) (m : gmap CompId A) c :
  (∀ x, f (f x) = f x) →
  alter_all f l m !! c = if decide (c ∈ l) then f <$> m !! c else m !! c.
Proof.
  intros Hf. revert m. induction l as [|x l IH]; intros m.
  - case_decide as Hin; [by apply elem_of_nil in Hin|done].
  - change (alter_all f (x :: l) m) with (alter_all f l (alter f x m)).
    rewrite IH. destruct (decide (x = c)) as [->|Hne].
    + rewrite lookup_alter_eq. rewrite (decide_True (P := c ∈ c :: l)) by left.
      destruct (m !! c); simpl; rewrite ?Hf; by destruct (decide (c ∈ l)).
    + rewrite lookup_alter_ne by done.
      destruct (decide (c ∈ l)).
      * rewrite decide_True; [done|by right].
      * rewrite decide_False; [done|]. rewrite elem_of_cons. naive_solver.
Qed.

Lemma for_modify {A} (g : A → World → World) (l : list A) (w : World) :
  for_ l (λ x, modify (g x)) w = (Ok tt, foldl (λ w x, g x w) w l).
Proof.
  revert w. induction l as [|x l IH]; intros w; [done|]. simpl.
  unfold bind, modify at 1. by rewrite IH.
Qed.

Lemma foldl_alter_cons (f : bool → bool) (l : list CompId) (w : World) :
  foldl (λ w c, on_fs (set_cons (alter f c)) w) w l
  = on_fs (set_cons (alter_all f l)) w.
Proof.
  revert w. induction l as [|x l IH]; intros w; simpl.
  - by destruct w as [[] ? ?].
  - rewrite IH. by destruct w as [[] ? ?].
Qed.

Lemma foldl_alter_vars (f : VarData → VarData) (l : list CompId) (w : World) :
  foldl (λ w c, on_fs (set_vars (alter f c)) w) w l
  = on_fs (set_vars (alter_all f l)) w.
Proof.
  revert w. induction l as [|x l IH]; intros w; simpl.
  - by destruct w as [[] ? ?].
  - rewrite IH. by destruct w as [[] ? ?].
Qed.

Lemma elem_of_comps_at {A} (m : gmap CompId A) t c :
  c ∈ comps_at m t ↔ time_of c = Some t ∧ is_Some (m !! c).
Proof.
  unfold comps_at. rewrite list_elem_of_filter, list_elem_of_fmap.
  split.
  - intros [Ht ([c' a] & -> & Hin)]. split; [done|].
    apply elem_of_map_to_list in Hin. by exists a.
  - intros [Ht [a Ha]]. split; [done|]. exists (c, a). split; [done|].
    by apply elem_of_map_to_list.
Qed.

Lemma lookup_list_to_map_fmap {B} (f : Z → B) (pts : list Z) t :
  (list_to_map ((λ t, (t, f t)) <$> pts) : gmap Z B) !! t
  = if decide (t ∈ pts) then Some (f t) else None.
Proof.
  induction pts as [|p pts IH].
  - rewrite fmap_nil, list_to_map_nil, lookup_empty.
    case_decide as Hin; [by apply elem_of_nil in Hin|done].
  - rewrite fmap_cons, list_to_map_cons. destruct (decide (p = t)) as [->|Hne].
    + rewrite lookup_insert_eq. by rewrite decide_True by left.
    + rewrite lookup_insert_ne by done. rewrite IH.
      destruct (decide (t ∈ pts)).
      * rewrite decide_True; [done|by right].
      * rewrite decide_False; [done|]. rewrite elem_of_cons. naive_solver.
Qed.

Lemma elem_of_list_remove t t0 pts :
  t ∈ list_remove t0 pts → t ∈ pts.
Proof.
  induction pts as [|p pts IH]; simpl; [done|].
  case_decide; [by right|]. rewrite !elem_of_cons. naive_solver.
Qed.

Lemma elem_of_list_remove_or t t0 pts :
  t ∈ pts → t = t0 ∨ t ∈ list_remove t0 pts.
Proof.
  induction pts as [|p pts IH]; simpl; [by intros ?%elem_of_nil|].
  rewrite elem_of_cons. intros [->|Hin].
  - case_decide; [by left|right; by left].
  - case_decide; [by right|]. destruct (IH Hin); [by left|right; by right].
Qed.

Lemma set_getitem_elem_of pts k t : set_getitem pts k = Some t → t ∈ pts.
Proof.
  unfold set_getitem. repeat case_decide; try done;
    by intros ?%list_elem_of_lookup_2.
Qed.

(** For a positive index, [time[k]] is the item at position [k - 1]. *)
Lemma set_getitem_pos pts k :
  0 < k → set_getitem pts k = pts !! Z.to_nat (k - 1).
Proof. intros Hk. unfold set_getitem. by rewrite decide_True. Qed.

Lemma indexed_in_true pts c :
  indexed_in pts c = true ↔ ∃ t, time_of c = Some t ∧ t ∈ pts.
Proof.
  unfold indexed_in. destruct (time_of c) as [t|].
  - rewrite bool_decide_eq_true. naive_solver.
  - naive_solver.
Qed.

(** *** What each phase of the procedure does *)

Section Phases.
Variable solver : Model → gmap CompId Q * TerminationCondition.
Variable degrees_of_freedom : Model → Z.

Lemma same_flags_trans m1 m2 m3 :
  same_flags m1 m2 → same_flags m2 m3 → same_flags m1 m3.
Proof. intros H1 H2 v. by rewrite H2. Qed.


Lemma same_flags_imap (g : CompId → VarData → VarData) m :
  (∀ v d, fixed (g v d) = fixed d) →
  same_flags m (map_imap (λ v d, Some (g v d)) m).
Proof.
  intros Hg v. rewrite map_lookup_imap. destruct (m !! v) as [d|]; simpl; [|done].
  by rewrite Hg.
Qed.

Lemma load_solution_flags sol m : same_flags (vars m) (vars (load_solution sol m)).
Proof.
  apply same_flags_imap. intros v d. destruct (fixed d) eqn:Hd; [done|].
  by destruct (sol !! v).
Qed.

Lemma time_getitem_post time k w :
  post (time_getitem time k) w
    (λ t w', w' = w ∧ set_getitem (points time) k = Some t)
    (λ e w', w' = w ∧ e = IndexError).
Proof.
  unfold time_getitem.
  destruct (set_getitem (points time) k); [by apply post_ret|by apply post_raise].
Qed.

Lemma element_fe_post time ncp_ i w :
  post (element_fe time ncp_ i) w
    (λ fe w', w' = w ∧
       Forall2 (λ k t, set_getitem (points time) k = Some t)
         (range ((i - 1) * ncp_ + 2) (i * ncp_ + 2)) fe)
    (λ e w', w' = w ∧ e = IndexError).
Proof.
  unfold element_fe.
  apply (post_mapM (time_getitem time) (λ s, s = w)
           (λ k t, set_getitem (points time) k = Some t)); [done|].
  intros k s _ ->. eapply post_mono; [apply time_getitem_post| |]; naive_solver.
Qed.

Lemma on_fs_alter_all_nil (f : bool → bool) w :
  on_fs (set_cons (alter_all f [])) w = w.
Proof. by destruct w as [[] ? ?]. Qed.

Lemma reactivate_loop_post (was_originally_active : gmap CompId bool) comps w :
  post (for_ comps (λ comp,
          a <~ getitem was_originally_active comp;
          if a then activate comp else ret tt)) w
    (λ _ w', w' = on_fs (set_cons (alter_all (λ _, true)
                     (filter (λ c, was_originally_active !! c = Some true) comps))) w)
    (λ e w', e = KeyError ∧ vars (fs w') = vars (fs w) ∧ solved w' = solved w).
Proof.
  revert w. induction comps as [|x l IH]; intros w; simpl.
  - apply post_ret. by rewrite on_fs_alter_all_nil.
  - apply post_bind, post_bind, post_getitem; [|done].
    intros [|] Hx.
    + apply post_modify. eapply post_mono; [apply IH| |].
      * intros _ w' ->. rewrite filter_cons_True by done.
        by destruct w as [[] ? ?].
      * intros e w' (-> & Hv & Hs). by destruct w as [[] ? ?].
    + apply post_ret. eapply post_mono; [apply IH| |done].
      intros _ w' ->. rewrite filter_cons_False; [done|]. congruence.
Qed.

Lemma reactivate_at_post (deactivated : gmap Z (list CompId))
    (was_originally_active : gmap CompId bool) t w :
  post (reactivate_at deactivated was_originally_active t) w
    (λ _ w', ∃ l, deactivated !! t = Some l ∧
       w' = on_fs (set_cons (alter_all (λ _, true)
                     (filter (λ c, was_originally_active !! c = Some true) l))) w)
    (λ e w', e = KeyError ∧ vars (fs w') = vars (fs w) ∧ solved w' = solved w).
Proof.
  unfold reactivate_at. apply post_bind, post_getitem; [|done].
  intros l Hl. eapply post_mono; [apply reactivate_loop_post| |done].
  intros _ w' ->. by exists l.
Qed.

Lemma deactivate_at_post (deactivated : gmap Z (list CompId)) t w :
  post (deactivate_at deactivated t) w
    (λ _ w', ∃ l, deactivated !! t = Some l ∧
       w' = on_fs (set_cons (alter_all (λ _, false) l)) w)
    (λ e w', e = KeyError ∧ w' = w).
Proof.
  unfold deactivate_at. apply post_bind, post_getitem; [|done].
  intros l Hl. apply post_run. unfold deactivate.
  rewrite (for_modify (λ c, on_fs (set_cons (alter (λ _, false) c)))). simpl.
  exists l. by rewrite foldl_alter_cons.
Qed.

Lemma copy_loop_post fe t_prev w :
  post (for_ fe (λ t, copy_values_at_time t t_prev)) w
    (λ _ w', cons (fs w') = cons (fs w) ∧ solved w' = solved w ∧
             same_flags (vars (fs w)) (vars (fs w')))
    (λ _ _, False).
Proof.
  apply post_for_; [done|].
  intros t w' _ (Hc & Hs & Hf). apply post_modify. simpl.
  split; [done|]. split; [done|].
  eapply same_flags_trans; [done|]. apply same_flags_imap.
  intros v d. case_decide; [|done]. destruct (fixed d) eqn:Hd; [done|].
  by destruct (vars (fs w') !! _).
Qed.

Lemma check_dof_post ignore_dof err w :
  post (check_dof degrees_of_freedom ignore_dof err) w
    (λ _ w', w' = w ∧ (ignore_dof = false → degrees_of_freedom (fs w) = 0))
    (λ e w', e = ValueError err ∧ ignore_dof = false ∧
             degrees_of_freedom (fs w) ≠ 0 ∧
             w' = {| fs := fs w; logged := logged w ++ [(ERROR, dof_msg)];
                     solved := solved w |}).
Proof.
  unfold check_dof. destruct ignore_dof; [by apply post_ret|].
  apply post_bind, post_gets. case_decide as Hd.
  - apply post_bind, post_modify, post_raise. done.
  - apply post_ret. split; [done|]. intros _.
    by destruct (decide (degrees_of_freedom (fs w) = 0)).
Qed.

(** Fixing and unfixing touch the listed variables only. *)
Lemma alter_kept_outside (f : VarData → VarData) (l : list CompId) v m m' :
  v ∈ l → kept_outside l m m' → kept_outside l m (alter f v m').
Proof.
  intros Hv Hk x Hx. rewrite lookup_alter_ne; [by apply Hk|]. by intros ->.
Qed.

Lemma record_and_fix_post l gate var was w0 w :
  var ∈ l →
  cons (fs w) = cons (fs w0) ∧ solved w = solved w0 ∧
    kept_outside l (vars (fs w0)) (vars (fs w)) →
  post (record_and_fix gate var was) w
    (λ _ w', cons (fs w') = cons (fs w0) ∧ solved w' = solved w0 ∧
             kept_outside l (vars (fs w0)) (vars (fs w')))
    (λ _ _, False).
Proof.
  intros Hvar (Hc & Hs & Hk). unfold record_and_fix.
  apply post_bind, post_gets, post_bind, post_gets, post_bind.
  destruct (value_of (fs w) gate).
  - apply post_modify, post_ret. simpl. split; [done|]. split; [done|].
    by apply alter_kept_outside.
  - by apply post_ret, post_ret.
Qed.

Lemma post_foldM {A B} (f : B → A → M World B) (I : World → Prop) E l :
  ∀ acc w,
    I w →
    (∀ acc x w', x ∈ l → I w' → post (f acc x) w' (λ _, I) E) →
    post (foldM f acc l) w (λ _, I) E.
Proof.
  induction l as [|x l IH]; intros acc w HI Hf; simpl.
  - by apply post_ret.
  - apply post_bind. eapply post_mono; [apply Hf; [left|done]| |done].
    intros acc' w' HI'. simpl in HI'. apply IH; [done|].
    intros acc'' y w'' Hy. apply Hf. by right.
Qed.

Lemma fix_initial_conditions_post derivs dvars w :
  post (fix_initial_conditions derivs dvars) w
    (λ _ w', cons (fs w') = cons (fs w) ∧ solved w' = solved w ∧
             kept_outside (derivs ++ dvars) (vars (fs w)) (vars (fs w')))
    (λ e w', e = NameError ∧ solved w' = solved w).
Proof.
  unfold fix_initial_conditions. apply post_bind.
  eapply post_mono;
    [apply (post_foldM _ (λ w', cons (fs w') = cons (fs w) ∧ solved w' = solved w ∧
              kept_outside (derivs ++ dvars) (vars (fs w)) (vars (fs w')))
              (λ _ _, False)); [done|]| |done].
  - intros was drv w' Hin HI. apply record_and_fix_post; [|done].
    apply elem_of_app. by left.
  - intros was w1 HI. simpl.
    eapply post_mono;
      [apply (post_foldM _ (λ w', cons (fs w') = cons (fs w) ∧ solved w' = solved w ∧
                kept_outside (derivs ++ dvars) (vars (fs w)) (vars (fs w')))
                (λ e w', e = NameError ∧ solved w' = solved w)); [done|]|done|done].
    intros was' dv w' Hin HI'. destruct (last derivs).
    + eapply post_mono; [apply record_and_fix_post; [|done]|done|done].
      apply elem_of_app. by right.
    + apply post_raise. by destruct HI' as (_ & -> & _).
Qed.

Lemma unfix_initial_conditions_post derivs dvars was w :
  post (unfix_initial_conditions derivs dvars was) w
    (λ _ w', cons (fs w') = cons (fs w) ∧ solved w' = solved w ∧
             kept_outside (derivs ++ dvars) (vars (fs w)) (vars (fs w')))
    (λ e w', e = KeyError ∧ solved w' = solved w).
Proof.
  set (I := λ w' : World, cons (fs w') = cons (fs w) ∧ solved w' = solved w ∧
              kept_outside (derivs ++ dvars) (vars (fs w)) (vars (fs w'))).
  assert (∀ l w1, (∀ v, v ∈ l → v ∈ derivs ++ dvars) → I w1 →
            post (for_ l (unfix_unless_fixed was)) w1 (λ _, I)
              (λ e w', e = KeyError ∧ solved w' = solved w)) as Hloop.
  { intros l w1 Hl HI. apply post_for_; [done|].
    intros v w2 Hv (Hc & Hs & Hk). unfold unfix_unless_fixed.
    apply post_bind, post_getitem; [|done].
    intros [|] _; [by apply post_ret|]. apply post_modify. simpl.
    split; [done|]. split; [done|]. apply alter_kept_outside; auto. }
  unfold unfix_initial_conditions. apply post_bind.
  eapply post_mono; [apply Hloop| |done].
  - intros v Hv. apply elem_of_app. by left.
  - done.
  - intros [] w1 HI. simpl. apply Hloop; [|done].
    intros v Hv. apply elem_of_app. by right.
Qed.

End Phases.

(** *** The run as a whole *)

Section Run.
Variable solver : Model → gmap CompId Q * TerminationCondition.
Variable degrees_of_freedom : Model → Z.
Variable time : ContinuousSet.
Variables (nfe_ ncp_ : Z) (ignore_dof : bool).
Variable fs0 : Model.

Local Abbreviation Optimal := (TimeElement.Optimal solver).
Local Abbreviation Verdict := (TimeElement.Verdict solver nfe_).
Local Abbreviation TraceInv := (TimeElement.TraceInv degrees_of_freedom ignore_dof).
Local Abbreviation RunSpec :=
  (TimeElement.RunSpec solver degrees_of_freedom nfe_ ignore_dof fs0).
Local Abbreviation touched := (TimeElement.touched time).
Local Abbreviation baseline := (TimeElement.baseline time fs0).
Local Abbreviation Inv :=
  (TimeElement.Inv solver degrees_of_freedom time ignore_dof fs0).
Local Abbreviation Static := (TimeElement.Static time fs0).
Local Abbreviation Mid := (TimeElement.Mid time fs0).

Lemma Raise_benign e w :
  benign e → Forall Optimal (solved w) → TraceInv w → RunSpec (Raise e) w.
Proof.
  intros (H1 & H2 & H3 & H4) Hopt Htr. split; [done|]. split; [|split].
  - left. split; [done|]. split; congruence.
  - intros _. split; congruence.
  - done.
Qed.

Lemma baseline_touched c :
  touched c = true → (λ _, false) <$> baseline c = baseline c.
Proof.
  intros Ht. unfold baseline. rewrite Ht. by destruct (cons fs0 !! c).
Qed.

Lemma indexed_in_touched fe c :
  (∀ t, t ∈ fe → t ∈ points time) → indexed_in fe c = true → touched c = true.
Proof.
  intros Hfe (t & Ht & Hin)%indexed_in_true. unfold touched. rewrite Ht.
  apply bool_decide_eq_true. auto.
Qed.

Lemma indexed_in_snoc pre t c :
  indexed_in (pre ++ [t]) c
  = if decide (time_of c = Some t) then true else indexed_in pre c.
Proof.
  unfold indexed_in. destruct (time_of c) as [t'|]; [|by case_decide].
  case_decide as Heq.
  - injection Heq as ->. apply bool_decide_eq_true, elem_of_app. right. by left.
  - apply bool_decide_ext. rewrite elem_of_app, list_elem_of_singleton.
    naive_solver.
Qed.

Lemma Frozen_intro fe m :
  Mid fe (cons m) →
  (∀ v, time_of v = None → fixed <$> vars m !! v = (λ _, true) <$> vars fs0 !! v) →
  Frozen m.
Proof.
  intros HM HV. split.
  - intros c a Hc Ht. destruct (HM c) as [Hb|[Hin _]].
    + rewrite Hc in Hb. unfold baseline, touched in Hb. rewrite Ht in Hb.
      destruct (cons fs0 !! c); simpl in Hb; congruence.
    + apply indexed_in_true in Hin as (t & Ht' & _). congruence.
  - intros v d Hv Ht. specialize (HV v Ht). rewrite Hv in HV.
    destruct (vars fs0 !! v); simpl in HV; congruence.
Qed.

Lemma unindexed_kept l m m' :
  (∀ v, v ∈ l → is_Some (time_of v)) →
  kept_outside l m m' →
  ∀ v, time_of v = None → m' !! v = m !! v.
Proof.
  intros Hl Hk v Ht. apply Hk. intros Hin. apply Hl in Hin as [t Ht']. congruence.
Qed.

Lemma tail_snoc {A} (l : list A) x : l ≠ [] → tail (l ++ [x]) = tail l ++ [x].
Proof. by destruct l. Qed.

Lemma solve_post w :
  post (solve solver) w
    (λ r w', r = (solver (fs w)).2 ∧
       w' = {| fs := load_solution (solver (fs w)).1 (fs w);
               logged := logged w; solved := solved w ++ [fs w] |})
    (λ _ _, False).
Proof. done. Qed.

Lemma range_split_index pre i suf :
  range 1 (nfe_ + 1) = pre ++ i :: suf →
  i = Z.of_nat (length pre) + 1 ∧ Z.of_nat (length pre) + 1 ≤ nfe_.
Proof.
  intros Hr.
  assert (range 1 (nfe_ + 1) !! length pre = Some i) as Hi.
  { rewrite Hr. by apply list_lookup_middle. }
  pose proof (lookup_lt_Some _ _ _ Hi) as Hlt. rewrite length_range in Hlt.
  rewrite lookup_range in Hi by done. injection Hi as <-. lia.
Qed.

Lemma element_step_post deactivated derivs dvars pre i suf w :
  Static deactivated derivs dvars →
  range 1 (nfe_ + 1) = pre ++ i :: suf →
  Inv (length pre) w →
  post (element_step solver degrees_of_freedom time nfe_ ncp_ ignore_dof
          (cons fs0) deactivated derivs dvars i) w
    (λ _, Inv (S (length pre))) (λ e w', RunSpec (Raise e) w').
Proof.
  intros (HD & Hderivs & Hdvars) Hrange (Hcons & Hvu & Hlen & Hopt & Htr).
  destruct (range_split_index _ _ _ Hrange) as [Hi Hnfe].
  assert (∀ e w', benign e → solved w' = solved w → RunSpec (Raise e) w') as Hben.
  { intros e w' He Hs. apply Raise_benign; [done| |]; unfold TraceInv; by rewrite Hs. }
  assert (benign IndexError ∧ benign KeyError ∧ benign NameError) as (HbI & HbK & HbN).
  { by repeat split. }
  unfold element_step.
  (* t_prev and the points of the element *)
  apply post_bind. eapply post_mono; [apply time_getitem_post| |].
  2: { intros e w' [-> ->]. by apply Hben. }
  intros t_prev ? [-> Htp]. simpl.
  apply post_bind. eapply post_mono; [apply element_fe_post| |].
  2: { intros e w' [-> ->]. by apply Hben. }
  intros fe ? [-> Hfe]. simpl.
  assert (∀ t, t ∈ fe → t ∈ points time) as Hfe_in.
  { intros t Ht. apply list_elem_of_lookup_1 in Ht as [j Hj].
    destruct (Forall2_lookup_r _ _ _ _ _ Hfe Hj) as (k & _ & Hk).
    by eapply set_getitem_elem_of. }
  apply post_bind, post_modify.
  (* reactivation at the points of the element *)
  apply post_bind.
  eapply post_mono;
    [apply (post_for_ _ (λ w', vars (fs w') = vars (fs w) ∧ solved w' = solved w ∧
              Mid fe (cons (fs w')))
              (λ e w', e = KeyError ∧ solved w' = solved w)) | |].
  { simpl. split; [done|]. split; [done|]. intros c. left. apply Hcons. }
  { intros t w1 Ht (Hv1 & Hs1 & HM1).
    eapply post_mono; [apply reactivate_at_post| |].
    - intros _ w2 (l & Hl & ->). simpl. split; [done|]. split; [done|].
      intros c. rewrite lookup_alter_all by done. case_decide as Hin; [|apply HM1].
      apply list_elem_of_filter in Hin as [_ Hin].
      destruct (HD t l Hl) as [Htime Hmem]. apply Hmem in Hin as [Hct _].
      assert (indexed_in fe c = true) as Hidx.
      { apply indexed_in_true. eauto. }
      right. split; [done|]. rewrite <- option_fmap_compose.
      destruct (HM1 c) as [Hb|[_ Hb]]; [|done].
      change ((λ _ : bool, false) ∘ (λ _ : bool, true)) with (λ _ : bool, false).
      rewrite Hb. apply baseline_touched. by eapply indexed_in_touched.
    - intros e w2 (-> & Hv2 & Hs2). split; [done|]. congruence. }
  2: { intros e w' [-> Hs]. by apply Hben. }
  intros [] w1 (Hv1 & Hs1 & HM1). simpl.
  (* the derivative and differential variables at t_prev *)
  apply post_bind, post_getitem; [|intros _; by apply Hben].
  intros init_deriv_list Hdl.
  apply post_bind, post_getitem; [|intros _; by apply Hben].
  intros init_dvar_list Hvl.
  assert (∀ v, v ∈ init_deriv_list ++ init_dvar_list → is_Some (time_of v)) as Hlisted.
  { intros v [Hv|Hv]%elem_of_app; exists t_prev; eauto. }
  apply post_bind. eapply post_mono; [apply fix_initial_conditions_post| |].
  2: { intros e w' [-> Hs]. apply Hben; [done|congruence]. }
  intros was_originally_fixed w2 (Hc2 & Hs2 & Hk2). simpl.
  apply post_bind. eapply post_mono; [apply copy_loop_post| |done].
  intros [] w3 (Hc3 & Hs3 & Hf3). simpl.
  apply post_bind, post_modify.
  (* the check of the degrees of freedom *)
  apply post_bind. eapply post_mono; [apply check_dof_post| |].
  2: { intros e w' (-> & Hig & Hdof & ->). split; [|split; [|split]].
       - unfold TraceInv. simpl. by rewrite Hs3, Hs2, Hs1.
       - left. simpl. rewrite Hs3, Hs2, Hs1. by repeat split.
       - congruence.
       - done. }
  intros [] ? [-> Hdof]. simpl in Hdof |- *.
  (* the solve *)
  assert (∀ v, time_of v = None →
            fixed <$> vars (fs w3) !! v = (λ _, true) <$> vars fs0 !! v) as Hvu3.
  { intros v Hv. rewrite Hf3. rewrite (unindexed_kept _ _ _ Hlisted Hk2) by done.
    rewrite Hv1. by apply Hvu. }
  assert (Frozen (fs w3)) as Hfrozen.
  { apply (Frozen_intro fe); [|done]. by rewrite Hc3, Hc2. }
  assert (solved w3 = solved w) as Hs by congruence.
  assert (solved w ≠ []) as Hne by (by destruct (solved w)).
  set (w4 := {| fs := load_solution (solver (fs w3)).1 (fs w3);
                logged := logged w3 ++ [(INFO, "Solving finite element " +:+ pretty i)];
                solved := solved w3 ++ [fs w3] |}).
  assert (TraceInv w4) as Htr4.
  { destruct Htr as [Htr1 Htr2]. unfold TraceInv, w4. simpl. rewrite Hs.
    rewrite tail_snoc by done. split.
    - apply Forall_app. split; [done|]. by constructor.
    - intros Hig. apply Forall_app. split; [by apply Htr2|]. constructor; [|done].
      by apply Hdof. }
  apply post_bind. unfold solve_element. apply post_bind.
  eapply post_mono; [apply solve_post| |done].
  intros r ? [-> ->]. cbn [fs logged solved]. fold w4.
  assert (∀ msg, (solver (fs w3)).2 ≠ optimal →
            post (log ERROR ("Failed to solve finite element " +:+ pretty i);;
                  raise (ValueError "Failure in initialization solve")) w4
              (λ _ : unit, msg) (λ e w', RunSpec (Raise e) w')) as Hfail.
  { intros msg Hr. apply post_bind, post_modify, post_raise.
    split; [|split; [|split]].
    - done.
    - right. right. exists (solved w), (fs w3). simpl. rewrite Hs.
      split; [done|]. split; [done|]. split; [done|]. split; [done|].
      split; [done|]. rewrite Hlen. split; [lia|].
      rewrite last_snoc. replace (Z.of_nat (S (length pre))) with i by lia. done.
    - done.
    - done. }
  destruct ((solver (fs w3)).2) eqn:Hr; [|by apply Hfail..].
  apply post_modify. simpl.
  (* back to the baseline *)
  apply post_bind.
  eapply post_mono;
    [apply (post_for_split _ (λ done_ w',
              vars (fs w') = vars (fs w4) ∧ solved w' = solved w4 ∧
              ∀ c, cons (fs w') !! c = baseline c
                   ∨ (indexed_in fe c = true ∧ indexed_in done_ c = false ∧
                      (λ _, false) <$> cons (fs w') !! c = baseline c))
              (λ e w', e = KeyError ∧ solved w' = solved w4)) | |].
  { simpl. split; [done|]. split; [done|]. intros c. rewrite Hc3, Hc2.
    destruct (HM1 c) as [|[? ?]]; [by left|]. right. split; [done|].
    split; [|done]. unfold indexed_in. by destruct (time_of c). }
  { intros done_ t rest w5 Hsplit (Hv5 & Hs5 & HM5).
    eapply post_mono; [apply deactivate_at_post| |].
    - intros _ w6 (l & Hl & ->). simpl. split; [done|]. split; [done|].
      destruct (HD t l Hl) as [Htime Hmem].
      intros c. rewrite lookup_alter_all by done. rewrite indexed_in_snoc.
      case_decide as Hin.
      + left. apply Hmem in Hin as [Hct _].
        destruct (HM5 c) as [Hb|(_ & _ & Hb)]; [|done].
        rewrite Hb. apply baseline_touched. unfold touched. rewrite Hct.
        by apply bool_decide_eq_true.
      + destruct (HM5 c) as [Hb|(Hfec & Hdone & Hb)]; [by left|].
        case_decide as Hct; [|by right].
        left. assert (cons fs0 !! c = None) as Hnone.
        { destruct (cons fs0 !! c) eqn:Hc0; [|done]. exfalso. apply Hin, Hmem. eauto. }
        unfold baseline in Hb |- *. rewrite Hnone in Hb |- *. simpl in Hb |- *.
        by destruct (cons (fs w5) !! c).
    - intros e w6 [-> ->]. done. }
  2: { intros e w' [-> Hs']. apply (Raise_benign KeyError); [done| |].
       - rewrite Hs'. simpl. rewrite Hs. apply Forall_app. split; [done|].
         by constructor.
       - destruct Htr4 as [H1 H2]. split; by rewrite Hs'. }
  intros [] w5 (Hv5 & Hs5 & HM5). simpl.
  apply post_bind. eapply post_mono; [apply unfix_initial_conditions_post| |].
  2: { intros e w' [-> Hs']. apply (Raise_benign KeyError); [done| |].
       - rewrite Hs', Hs5. simpl. rewrite Hs. apply Forall_app. split; [done|].
         by constructor.
       - destruct Htr4 as [H1 H2]. split; by rewrite Hs', Hs5. }
  intros [] w6 (Hc6 & Hs6 & Hk6). simpl. apply post_modify.
  split; [|split; [|split; [|split]]]; simpl.
  - intros c. rewrite Hc6. destruct (HM5 c) as [|(H1 & H2 & _)]; [done|congruence].
  - intros v Hv. rewrite (unindexed_kept _ _ _ Hlisted Hk6) by done.
    rewrite Hv5. simpl. rewrite <- (Hvu3 v Hv). apply load_solution_flags.
  - rewrite Hs6, Hs5. simpl. rewrite length_app, Hs, Hlen. simpl. lia.
  - rewrite Hs6, Hs5. simpl. rewrite Hs. apply Forall_app. split; [done|].
    by constructor.
  - destruct Htr4 as [H1 H2]. split; by rewrite Hs6, Hs5.
Qed.

Lemma lookup_imap_total {A} (g : CompId → A → A) (m : gmap CompId A) c :
  map_imap (λ c a, Some (g c a)) m !! c = g c <$> m !! c.
Proof. rewrite map_lookup_imap. by destruct (m !! c). Qed.

Lemma elem_of_active_unindexed (m : gmap CompId bool) c :
  c ∈ (filter (λ ca : CompId * bool, time_of ca.1 = None ∧ ca.2 = true)
         (map_to_list m)).*1
  ↔ time_of c = None ∧ m !! c = Some true.
Proof.
  rewrite list_elem_of_fmap. split.
  - intros ([c' a] & -> & [[Ht Ha] Hin]%list_elem_of_filter). simpl in *.
    apply elem_of_map_to_list in Hin. by subst a.
  - intros [Ht Hc]. exists (c, true). split; [done|].
    apply list_elem_of_filter. split; [done|]. by apply elem_of_map_to_list.
Qed.

Lemma elem_of_unfixed_unindexed (m : gmap CompId VarData) v :
  v ∈ (filter (λ vd : CompId * VarData, time_of vd.1 = None ∧ fixed vd.2 = false)
         (map_to_list m)).*1
  ↔ time_of v = None ∧ fixed <$> m !! v = Some false.
Proof.
  rewrite list_elem_of_fmap. split.
  - intros ([v' d] & -> & [[Ht Hd] Hin]%list_elem_of_filter). simpl in *.
    apply elem_of_map_to_list in Hin. rewrite Hin. simpl. by rewrite Hd.
  - intros [Ht Hv]. destruct (m !! v) as [d|] eqn:Hd; [|done].
    exists (v, d). split; [done|]. apply list_elem_of_filter.
    simpl in Hv. injection Hv as Hv. split; [by split|].
    by apply elem_of_map_to_list.
Qed.

Lemma state_var_of_post d w :
  post (state_var_of d) w
    (λ dv w', w' = w ∧ time_of dv = time_of d)
    (λ e w', w' = w ∧ benign e).
Proof.
  unfold state_var_of. apply post_bind, post_gets.
  destruct (state_vars (fs w) !! comp_name d) as [x|]; [|by apply post_raise].
  apply post_bind, post_gets.
  destruct (vars (fs w) !! _); [by apply post_ret|by apply post_raise].
Qed.

Lemma get_dvars_at_post (derivs : gmap Z (list CompId)) pts w :
  (∀ t l, derivs !! t = Some l → ∀ v, v ∈ l → time_of v = Some t) →
  post (get_dvars_at derivs pts) w
    (λ dvars w', w' = w ∧
       ∀ t l, dvars !! t = Some l → ∀ v, v ∈ l → time_of v = Some t)
    (λ e w', w' = w ∧ benign e).
Proof.
  intros Hderivs. unfold get_dvars_at. apply post_bind.
  eapply post_mono;
    [apply (post_mapM _ (λ s, s = w)
              (λ (t : Z) (p : Z * list CompId),
                 p.1 = t ∧ ∀ v, v ∈ p.2 → time_of v = Some t)
              (λ e w', w' = w ∧ benign e)); [done|]| |done].
  - intros t ? _ ->. apply post_bind, post_getitem; [|done].
    intros ds Hds. apply post_bind.
    eapply post_mono;
      [apply (post_mapM _ (λ s, s = w) (λ d dv : CompId, time_of dv = time_of d)
                (λ e w', w' = w ∧ benign e)); [done|]| |done].
    + intros d ? _ ->. apply state_var_of_post.
    + intros dvs ? [-> HF]. simpl. apply post_ret. split; [done|]. split; [done|].
      simpl. intros v [j Hj]%list_elem_of_lookup_1.
      destruct (Forall2_lookup_r _ _ _ _ _ HF Hj) as (d & Hd & ->).
      eapply Hderivs; [done|]. by eapply list_elem_of_lookup_2.
  - intros l ? [-> HF]. simpl. apply post_ret. split; [done|].
    intros t dvs Hl v Hv. apply elem_of_list_to_map_2 in Hl.
    apply list_elem_of_lookup_1 in Hl as [j Hj].
    destruct (Forall2_lookup_r _ _ _ _ _ HF Hj) as (t' & _ & <- & Hall).
    by apply Hall.
Qed.

(** The last phase: everything that was switched off and was active
    originally is switched on again, and the variables fixed before the loop
    are unfixed. *)
Lemma final_phase_post deactivated derivs dvars con_list var_list k w :
  Static deactivated derivs dvars →
  (∀ c, c ∈ con_list ↔ time_of c = None ∧ cons fs0 !! c = Some true) →
  (∀ v, v ∈ var_list ↔ time_of v = None ∧ fixed <$> vars fs0 !! v = Some false) →
  Inv k w →
  post (for_ (points time) (reactivate_at deactivated (cons fs0));;
        for_ con_list activate;;
        for_ var_list unfix;;
        log INFO "Initialization completed. Model has been reactivated") w
    (λ _ w', RunSpec (Ok tt) w') (λ e w', RunSpec (Raise e) w').
Proof.
  intros (HD & _ & _) Hcl Hvl (Hcons & Hvu & Hlen & Hopt & Htr).
  apply post_bind.
  eapply post_mono;
    [apply (post_for_split _ (λ done_ w',
              vars (fs w') = vars (fs w) ∧ solved w' = solved w ∧
              ∀ c, cons (fs w') !! c
                   = (λ a, if indexed_in done_ c then a
                           else if touched c then false else a) <$> cons fs0 !! c)
              (λ e w', e = KeyError ∧ solved w' = solved w)) | |].
  { split; [done|]. split; [done|]. intros c. rewrite Hcons. unfold baseline.
    destruct (cons fs0 !! c); [|done]. simpl. unfold indexed_in.
    by destruct (time_of c). }
  { intros done_ t rest w1 _ (Hv1 & Hs1 & Hc1).
    eapply post_mono; [apply reactivate_at_post| |].
    - intros _ w2 (l & Hl & ->). simpl. split; [done|]. split; [done|].
      destruct (HD t l Hl) as [Htime Hmem].
      intros c. rewrite lookup_alter_all by done. rewrite indexed_in_snoc, Hc1.
      case_decide as Hin.
      + apply list_elem_of_filter in Hin as [Hact Hin].
        apply Hmem in Hin as [Hct _]. rewrite decide_True by done.
        rewrite Hact. done.
      + case_decide as Hct; [|done].
        destruct (cons fs0 !! c) as [a|] eqn:Hc0; [|done]. simpl.
        destruct a.
        * exfalso. apply Hin, list_elem_of_filter. split; [done|].
          apply Hmem. eauto.
        * f_equal. by repeat case_match.
    - intros e w2 (-> & _ & ->). done. }
  2: { intros e w' [-> Hs]. apply Raise_benign; [done| |]; unfold TraceInv;
         by rewrite Hs. }
  intros [] w1 (Hv1 & Hs1 & Hc1). simpl.
  apply post_bind. apply post_run. unfold activate.
  rewrite (for_modify (λ c, on_fs (set_cons (alter (λ _, true) c)))).
  rewrite foldl_alter_cons. simpl.
  apply post_bind. apply post_run. unfold unfix.
  rewrite (for_modify (λ c, on_fs (set_vars (alter (set_fixed false) c)))).
  rewrite foldl_alter_vars. simpl.
  apply post_modify. split; [|split; [|split]]; simpl.
  - unfold TraceInv. simpl. by rewrite Hs1.
  - left. simpl. by rewrite Hs1.
  - done.
  - intros _. split.
    + apply map_eq. intros c. rewrite lookup_alter_all by done. rewrite Hc1.
      case_decide as Hin.
      * apply Hcl in Hin as [_ Hc]. by rewrite Hc.
      * destruct (cons fs0 !! c) as [a|] eqn:Hc0; [|done]. simpl. f_equal.
        unfold indexed_in, touched. destruct (time_of c) as [t|] eqn:Ht.
        -- by case_bool_decide.
        -- destruct a; [|done]. exfalso. apply Hin, Hcl. done.
    + intros v Hv. rewrite lookup_alter_all by done. rewrite Hv1.
      specialize (Hvu v Hv). case_decide as Hin.
      * apply Hvl in Hin as [_ Hf]. rewrite <- option_fmap_compose.
        destruct (vars fs0 !! v) as [d0|]; [|done].
        destruct (vars (fs w) !! v); [|done]. simpl in *. congruence.
      * rewrite Hvu. destruct (vars fs0 !! v) as [d0|] eqn:Hd0; [|done].
        simpl. f_equal. destruct (fixed d0) eqn:Hf; [done|].
        exfalso. apply Hin, Hvl. rewrite Hd0. simpl. by rewrite Hf.
Qed.

Lemma TraceInv_short w : (length (solved w) ≤ 1)%nat → TraceInv w.
Proof.
  intros Hl. unfold TraceInv.
  destruct (solved w) as [|m [|m' l]]; simpl in *; [done|done|lia].
Qed.

Lemma run_elements_post :
  post (run_elements solver degrees_of_freedom time nfe_ ncp_ ignore_dof)
    (init_world fs0)
    (λ _ w', RunSpec (Ok tt) w') (λ e w', RunSpec (Raise e) w').
Proof.
  unfold run_elements.
  apply post_bind, post_gets. cbn [fs init_world].
  apply post_bind. unfold first.
  destruct (points time) as [|t0 pts'] eqn:Hpts.
  { apply post_raise. apply Raise_benign; [done|done|]. apply TraceInv_short; simpl; lia. }
  apply post_ret. rewrite <- Hpts.
  assert (t0 ∈ points time) as Ht0 by (rewrite Hpts; left).
  apply post_bind. apply post_run. cbn [deactivate_model_at fst snd].
  set (d1 := list_to_map _).
  apply post_bind, post_modify. cbn [fs logged solved on_fs init_world].
  (* the consistent initial conditions *)
  apply post_bind. eapply post_mono; [apply solve_post| |done].
  intros r ? [-> ->]. cbn [fs logged solved].
  set (m0 := set_cons _ fs0).
  apply post_bind.
  assert (∀ msg, (solver m0).2 ≠ optimal →
            post (log ERROR "Failed to solve for consistent initial conditions";;
                  raise (ValueError "Solver failed in initialization"))
              {| fs := load_solution (solver m0).1 m0;
                 logged := [] ++ [(INFO, "Model is inactive except at t=0. Solving for consistent initial conditions.")];
                 solved := [] ++ [m0] |}
              (λ _ : unit, msg) (λ e w', RunSpec (Raise e) w')) as Hfail.
  { intros msg Hr. apply post_bind, post_modify, post_raise.
    split; [|split; [|split]].
    - apply TraceInv_short; simpl; lia.
    - right. left. by exists m0.
    - done.
    - done. }
  destruct ((solver m0).2) eqn:Hr; [|by apply Hfail..]. clear Hfail.
  apply post_modify. cbn [fs logged solved].
  (* the rest of the deactivation *)
  apply post_bind. apply post_run. cbn [deactivate_model_at fst snd].
  apply post_bind, post_getitem.
  2: { intros _. apply Raise_benign; [done| |apply TraceInv_short; simpl; lia].
       by repeat constructor. }
  intros comps0 Hcomps0. rewrite lookup_list_to_map_fmap in Hcomps0.
  rewrite decide_True in Hcomps0 by left. injection Hcomps0 as <-.
  apply post_bind. apply post_run. cbn [deactivate_constraints_unindexed_by fst snd].
  apply post_bind. apply post_run. cbn [fix_vars_unindexed_by fst snd].
  apply post_bind, post_gets.
  subst m0. unfold load_solution in *. unfold on_fs, set_cons, set_vars in *.
  cbn [fs logged solved cons vars state_vars init_world] in *.
  set (A1 := map_imap _ (cons fs0)) in *.
  set (m0 := {| vars := vars fs0; cons := A1; state_vars := state_vars fs0 |}) in *.
  set (A2 := map_imap _ A1).
  set (A3 := map_imap _ A2).
  set (V1 := map_imap _ (vars fs0)).
  set (V2 := map_imap _ V1).
  set (derivs := list_to_map _).
  set (deactivated := <[t0 := _]> d1).
  set (con_list := fmap fst (filter _ (map_to_list A2))).
  set (var_list := fmap fst (filter _ (map_to_list V1))).
  (* what the dicts and the baseline state are *)
  assert (∀ c, A1 !! c = (λ a, if indexed_in (list_remove t0 (points time)) c
                               then false else a) <$> cons fs0 !! c) as HA1.
  { intros c. apply lookup_imap_total. }
  assert (∀ c, A2 !! c = (λ a, if indexed_in [t0] c then false else a) <$> A1 !! c)
    as HA2.
  { intros c. apply lookup_imap_total. }
  assert (∀ c, A3 !! c = baseline c) as HA3.
  { intros c. unfold A3. rewrite (lookup_imap_total (λ c a,
      if time_of c is None then false else a)), HA2, HA1.
    unfold baseline, touched, indexed_in.
    destruct (cons fs0 !! c) as [a|]; [|done]. simpl. f_equal.
    destruct (time_of c) as [t|]; [|done].
    destruct (decide (t ∈ points time)) as [Hin|Hnin].
    - rewrite (bool_decide_eq_true_2 _ Hin).
      destruct (elem_of_list_remove_or t t0 _ Hin) as [->|Hrem].
      + by rewrite (bool_decide_eq_true_2 (t0 ∈ [t0])) by left.
      + rewrite (bool_decide_eq_true_2 _ Hrem). by destruct (bool_decide _).
    - rewrite (bool_decide_eq_false_2 _ Hnin).
      rewrite !bool_decide_eq_false_2; [done| |].
      + intros Hrem%elem_of_list_remove. done.
      + intros ->%list_elem_of_singleton. done. }
  assert (same_flags (vars fs0) V1) as HV1.
  { exact (load_solution_flags (solver m0).1 m0). }
  assert (∀ v, time_of v = None →
            fixed <$> V2 !! v = (λ _, true) <$> vars fs0 !! v) as HV2.
  { intros v Hv. unfold V2.
    rewrite (lookup_imap_total (λ v d, if time_of v is None then set_fixed true d else d)).
    rewrite Hv. rewrite <- option_fmap_compose.
    specialize (HV1 v). destruct (V1 !! v), (vars fs0 !! v); simpl in *; congruence. }
  assert (∀ t l, deactivated !! t = Some l →
            t ∈ points time ∧
            ∀ c, c ∈ l ↔ time_of c = Some t ∧ is_Some (cons fs0 !! c)) as HD.
  { intros t l. unfold deactivated. destruct (decide (t0 = t)) as [<-|Hne].
    - rewrite lookup_insert_eq. intros [= <-]. split; [done|].
      intros c. rewrite elem_of_comps_at, HA1, fmap_is_Some. done.
    - rewrite lookup_insert_ne by done. unfold d1.
      rewrite lookup_list_to_map_fmap. case_decide as Hin; [|done].
      intros [= <-]. split; [by eapply elem_of_list_remove|].
      intros c. by rewrite elem_of_comps_at. }
  assert (∀ t l, derivs !! t = Some l → ∀ v, v ∈ l → time_of v = Some t) as Hderivs.
  { intros t l. unfold derivs. rewrite lookup_list_to_map_fmap.
    case_decide; [|done]. intros [= <-] v [_ Hv]%list_elem_of_filter.
    by apply elem_of_comps_at in Hv as [? _]. }
  assert (∀ c, c ∈ con_list ↔ time_of c = None ∧ cons fs0 !! c = Some true) as Hcl.
  { intros c. unfold con_list. rewrite elem_of_active_unindexed, HA2, HA1.
    split; intros [Ht Hc]; (split; [done|]); unfold indexed_in in *;
      rewrite Ht in *; by destruct (cons fs0 !! c). }
  assert (∀ v, v ∈ var_list ↔
            time_of v = None ∧ fixed <$> vars fs0 !! v = Some false) as Hvl.
  { intros v. unfold var_list. rewrite elem_of_unfixed_unindexed.
    by rewrite (HV1 v). }
  apply post_bind. eapply post_mono; [by apply get_dvars_at_post| |].
  2: { intros e w' [-> He]. apply Raise_benign; [done| |apply TraceInv_short; simpl; lia].
       by repeat constructor. }
  intros dvars ? [-> Hdvars]. cbn beta.
  apply post_bind, post_modify. cbn [fs logged solved].
  (* the loop over the finite elements, then the reactivation *)
  apply post_bind.
  eapply post_mono;
    [apply (post_for_split _ (λ done_, Inv (length done_))
              (λ e w', RunSpec (Raise e) w')) | |done].
  - split; [done|]. split; [done|]. split; [done|]. split.
    + by repeat constructor.
    + apply TraceInv_short; simpl; lia.
  - intros done_ i rest w Hsplit HI. rewrite length_app, Nat.add_1_r.
    by eapply element_step_post.
  - intros [] w HI. cbn beta. by eapply final_phase_post.
Qed.

End Run.

Section Entry.
Variable solver : Model → gmap CompId Q * TerminationCondition.
Variable degrees_of_freedom : Model → Z.

(** The specification of a whole run, from which the properties below are
    read off. *)
Lemma initialize_post (time : ContinuousSet) (ignore_dof : bool) (fs0 : Model) :
  let r := initialize_by_time_element solver degrees_of_freedom time ignore_dof
             (init_world fs0) in
  RunSpec solver degrees_of_freedom
    (match discretization_info time with Some info => nfe info | None => 0 end)
    ignore_dof fs0 r.1 r.2.
Proof.
  intros r.
  cut (post (initialize_by_time_element solver degrees_of_freedom time ignore_dof)
         (init_world fs0)
         (λ a w', RunSpec solver degrees_of_freedom
            (match discretization_info time with Some info => nfe info | None => 0 end)
            ignore_dof fs0 (Ok a) w')
         (λ e w', RunSpec solver degrees_of_freedom
            (match discretization_info time with Some info => nfe info | None => 0 end)
            ignore_dof fs0 (Raise e) w')).
  { unfold post. subst r.
    by destruct (initialize_by_time_element _ _ _ _ _) as [[[]|e] w']. }
  unfold initialize_by_time_element.
  destruct (discretization_info time) as [info|].
  2: { apply post_raise. apply Raise_benign; [done|done|]. apply TraceInv_short; simpl; lia. }
  apply post_bind. unfold scheme_ncp.
  assert (∀ e A (Q : A → World → Prop),
            benign e →
            post (raise e) (init_world fs0) Q
              (λ e w', RunSpec solver degrees_of_freedom (nfe info)
                         ignore_dof fs0 (Raise e) w')) as Hraise.
  { intros e A Q He. apply post_raise.
    apply Raise_benign; [done|done|]. apply TraceInv_short; simpl; lia. }
  assert (∀ ncp_, post (check_dof degrees_of_freedom ignore_dof
                          "Nonzero degrees of freedom.";;
                        run_elements solver degrees_of_freedom time (nfe info)
                          ncp_ ignore_dof) (init_world fs0)
            (λ a w', RunSpec solver degrees_of_freedom (nfe info)
                       ignore_dof fs0 (Ok a) w')
            (λ e w', RunSpec solver degrees_of_freedom (nfe info)
                       ignore_dof fs0 (Raise e) w')) as Hrest.
  { intros ncp_. apply post_bind. eapply post_mono; [apply check_dof_post| |].
    - intros [] ? [-> _]. cbn beta.
      eapply post_mono; [apply run_elements_post| |]; by intros [].
    - intros e w' (-> & Hig & _ & ->). split; [|split; [|split]].
      + apply TraceInv_short; simpl; lia.
      + left. by repeat split.
      + congruence.
      + done. }
  repeat case_decide; try (by apply Hraise).
  - destruct (ncp info); [|by apply Hraise]. apply post_ret, Hrest.
  - apply post_ret, Hrest.
Qed.

End Entry.

Example tank_run :
  let r := initialize_by_time_element easy_solver square tank_time false
             (init_world tank) in
  r.1 = Ok tt ∧ length (solved r.2) = 3%nat ∧
  map_to_list (cons (fs r.2)) = map_to_list (cons tank).
Proof. by vm_compute. Qed.

Example chain_stalls_at_3 :
  let r := initialize_by_time_element (stalls_at 3) square chain_time false
             (init_world chain) in
  r.1 = Raise element_failure ∧ length (solved r.2) = 4%nat ∧
  last (logged r.2) = Some (ERROR, "Failed to solve finite element 3").
Proof. by vm_compute. Qed.

(** *** Properties of the specification *)

(** C2: when a run reaches the end, the active flag of every constraint is
    what it was on entry: the snapshot, the deactivations and the final
    reactivation of the recorded components whose snapshot entry is true
    cancel out exactly. *)
Theorem activity_round_trip
    (solver : Model → gmap CompId Q * TerminationCondition)
    (degrees_of_freedom : Model → Z)
    (time : ContinuousSet) (ignore_dof : bool) (fs0 : Model) :
  let r := initialize_by_time_element solver degrees_of_freedom time ignore_dof
             (init_world fs0) in
  r.1 = Ok tt → ∀ c, cons (fs r.2) !! c = cons fs0 !! c.
Proof.
  intros r Hok c.
  destruct (initialize_post solver degrees_of_freedom time ignore_dof fs0)
    as (_ & _ & _ & Hdone).
  destruct (Hdone Hok) as [Hc _]. unfold r. by rewrite Hc.
Qed.

Lemma activity_round_trip_witness :
  let r := initialize_by_time_element easy_solver square tank_time false
             (init_world tank) in
  r.1 = Ok tt ∧ ∀ c, cons (fs r.2) !! c = cons tank !! c.
Proof.
  assert ((initialize_by_time_element easy_solver square tank_time false
             (init_world tank)).1 = Ok tt) as Hok by by vm_compute.
  split; [exact Hok|].
  exact (activity_round_trip easy_solver square tank_time false tank Hok).
Defined.

(** C3, as stated, fails: the exception raised when an element does not
    converge does not carry the index of that element.  A run that fails on
    element 1 and a run that fails on element 3 raise the same exception. *)
Lemma element_failure_carries_no_index :
  let r1 := initialize_by_time_element (stalls_at 1) square chain_time false
              (init_world chain) in
  let r3 := initialize_by_time_element (stalls_at 3) square chain_time false
              (init_world chain) in
  length (solved r1.2) = 2%nat ∧ length (solved r3.2) = 4%nat ∧
  (∃ e, r1.1 = Raise e ∧ r3.1 = Raise e) ∧
  ¬ ∃ index : exn → Z,
      (∀ e, r1.1 = Raise e → index e = 1) ∧ (∀ e, r3.1 = Raise e → index e = 3).
Proof.
  split; [by vm_compute|]. split; [by vm_compute|]. split.
  - exists element_failure. split; by vm_compute.
  - intros (index & H1 & H3).
    assert (index element_failure = 1) as E1 by (apply H1; by vm_compute).
    assert (index element_failure = 3) as E3 by (apply H3; by vm_compute).
    lia.
Qed.

(** C3 (amended): if the solve of finite element [i] (call [i] of the run,
    call 0 being the solve for the initial conditions) does not terminate
    optimally, the run ends there with [ValueError('Failure in initialization
    solve')], which differs from the error of the initial solve; the index
    [i] is in the last log record, ['Failed to solve finite element i']; and
    that call is the last one: no later element is attempted. *)
Theorem element_failure_is_fatal
    (solver : Model → gmap CompId Q * TerminationCondition)
    (degrees_of_freedom : Model → Z)
    (time : ContinuousSet) (ignore_dof : bool) (fs0 : Model) (i : nat) (m : Model) :
  let r := initialize_by_time_element solver degrees_of_freedom time ignore_dof
             (init_world fs0) in
  (0 < i)%nat →
  solved r.2 !! i = Some m →
  (solver m).2 ≠ optimal →
  r.1 = Raise element_failure ∧
  element_failure ≠ ic_failure ∧
  last (logged r.2)
    = Some (ERROR, "Failed to solve finite element " +:+ pretty (Z.of_nat i)) ∧
  length (solved r.2) = S i.
Proof.
  intros r Hi Hm Hr.
  destruct (initialize_post solver degrees_of_freedom time ignore_dof fs0)
    as (_ & HV & _). fold r in HV.
  destruct HV as [(Hopt & _)|[(m' & Hs & _)|(pre & m' & Hs & _ & Hopt & _ & Hres & _ & Hlog)]].
  - exfalso. apply Hr. rewrite Forall_lookup in Hopt. by eapply Hopt.
  - exfalso. rewrite Hs in Hm. destruct i; [lia|done].
  - rewrite Hs in Hm. apply lookup_app_Some in Hm as [Hm|[Hge Hm]].
    + exfalso. apply Hr. rewrite Forall_lookup in Hopt. by eapply Hopt.
    + assert (i = length pre) as ->.
      { apply lookup_lt_Some in Hm. simpl in Hm. lia. }
      split; [done|]. split; [done|]. split; [done|].
      rewrite Hs, length_app. simpl. lia.
Qed.

Lemma element_failure_is_fatal_witness :
  let r := initialize_by_time_element (stalls_at 3) square chain_time false
             (init_world chain) in
  r.1 = Raise element_failure ∧
  element_failure ≠ ic_failure ∧
  last (logged r.2) = Some (ERROR, "Failed to solve finite element 3") ∧
  length (solved r.2) = 4%nat.
Proof.
  refine (element_failure_is_fatal (stalls_at 3) square chain_time false chain 3
            (default chain (solved (initialize_by_time_element (stalls_at 3) square
               chain_time false (init_world chain)).2 !! 3%nat)) _ _ _).
  - lia.
  - by vm_compute.
  - by vm_compute.
Defined.

(** C4: a time domain whose scheme is Lagrange-Legendre, forward
    difference, central difference or anything unrecognized is rejected, each
    with an error of its own, and the rejection leaves everything as it was:
    no solver call, no log record, no change to the flowsheet. *)
Theorem unsupported_scheme_rejected
    (solver : Model → gmap CompId Q * TerminationCondition)
    (degrees_of_freedom : Model → Z)
    (time : ContinuousSet) (ignore_dof : bool) (info : DiscretizationInfo)
    (w : World) :
  discretization_info time = Some info →
  scheme info ≠ "LAGRANGE-RADAU" →
  scheme info ≠ "BACKWARD Difference" →
  ∃ e,
    initialize_by_time_element solver degrees_of_freedom time ignore_dof w
      = (Raise e, w) ∧
    (scheme info = "LAGRANGE-LEGENDRE" →
       e = NotImplementedError
             "Initialization does not support collocation with Legendre roots") ∧
    (scheme info = "FORWARD Difference" →
       e = NotImplementedError
             "Forward initialization (explicit Euler) has not yet been implemented") ∧
    (scheme info = "CENTRAL Difference" →
       e = NotImplementedError
             "Initialization does not support central finite difference") ∧
    (scheme info ≠ "LAGRANGE-LEGENDRE" → scheme info ≠ "FORWARD Difference" →
     scheme info ≠ "CENTRAL Difference" →
       e = ValueError "Unrecognized discretization scheme. ").
Proof.
  intros Hinfo Hradau Hback. unfold initialize_by_time_element. rewrite Hinfo.
  unfold scheme_ncp, bind.
  rewrite (decide_False (P := scheme info = "LAGRANGE-RADAU")) by done.
  destruct (decide (scheme info = "LAGRANGE-LEGENDRE")) as [Hs|Hleg].
  { eexists. split; [done|]. rewrite Hs. by repeat split. }
  rewrite (decide_False (P := scheme info = "BACKWARD Difference")) by done.
  destruct (decide (scheme info = "FORWARD Difference")) as [Hs|Hfwd].
  { eexists. split; [done|]. rewrite Hs. by repeat split. }
  destruct (decide (scheme info = "CENTRAL Difference")) as [Hs|Hcen].
  { eexists. split; [done|]. rewrite Hs. by repeat split. }
  eexists. split; [done|]. by repeat split.
Qed.

Lemma unsupported_scheme_rejected_witness :
  ∃ e,
    initialize_by_time_element easy_solver square legendre_time false (init_world tank)
      = (Raise e, init_world tank) ∧
    e = NotImplementedError
          "Initialization does not support collocation with Legendre roots".
Proof.
  destruct (unsupported_scheme_rejected easy_solver square legendre_time false
              {| scheme := "LAGRANGE-LEGENDRE"; nfe := 1; ncp := Some 2 |}
              (init_world tank) eq_refl) as (e & Hrun & Hleg & _);
    [discriminate|discriminate|].
  exists e. split; [exact Hrun|]. by apply Hleg.
Defined.

Lemma range_cons lo (n : nat) :
  range lo (lo + Z.of_nat (S n)) = lo :: range (lo + 1) (lo + 1 + Z.of_nat n).
Proof.
  unfold range.
  replace (Z.to_nat (lo + Z.of_nat (S n) - lo)) with (S n) by lia.
  replace (Z.to_nat (lo + 1 + Z.of_nat n - (lo + 1))) with n by lia.
  simpl. f_equal; [lia|]. rewrite <- fmap_S_seq, <- list_fmap_compose.
  apply list_fmap_ext. intros _ k _. simpl. lia.
Qed.

Lemma element_fe_take_drop time (n : nat) lo w :
  1 ≤ lo →
  lo - 1 + Z.of_nat n ≤ Z.of_nat (length (points time)) →
  mapM (time_getitem time) (range lo (lo + Z.of_nat n)) w
  = (Ok (take n (drop (Z.to_nat (lo - 1)) (points time))), w).
Proof.
  revert lo. induction n as [|n IH]; intros lo Hlo Hlen.
  - unfold range. by replace (Z.to_nat (lo + Z.of_nat 0 - lo)) with 0%nat by lia.
  - rewrite range_cons. simpl. unfold bind at 1, time_getitem at 1.
    rewrite set_getitem_pos by lia.
    destruct (lookup_lt_is_Some_2 (points time) (Z.to_nat (lo - 1))) as [t Ht]; [lia|].
    rewrite Ht. simpl. unfold bind at 1. rewrite IH by lia.
    simpl. rewrite (drop_S _ _ _ Ht). simpl.
    by replace (Z.to_nat (lo + 1 - 1)) with (S (Z.to_nat (lo - 1))) by lia.
Qed.

(** C5: finite element [i] (counted from 1) starts at [time[(i-1)*ncp + 1]]
    and its points are [time[(i-1)*ncp + 2]] to [time[i*ncp + 1]]: with the
    points of the domain in a list, the item at position [(i-1)*ncp] and the
    [ncp] items after it. *)
Theorem element_points (time : ContinuousSet) (ncp_ i : Z) (w : World) :
  1 ≤ i → 0 ≤ ncp_ →
  i * ncp_ + 1 ≤ Z.of_nat (length (points time)) →
  ∃ t_prev fe,
    element_t_prev time ncp_ i w = (Ok t_prev, w) ∧
    element_fe time ncp_ i w = (Ok fe, w) ∧
    set_getitem (points time) ((i - 1) * ncp_ + 1) = Some t_prev ∧
    Forall2 (λ k t, set_getitem (points time) k = Some t)
      (range ((i - 1) * ncp_ + 2) (i * ncp_ + 1 + 1)) fe ∧
    points time !! Z.to_nat ((i - 1) * ncp_) = Some t_prev ∧
    fe = take (Z.to_nat ncp_) (drop (S (Z.to_nat ((i - 1) * ncp_))) (points time)).
Proof.
  intros Hi Hncp Hlen.
  assert (0 ≤ (i - 1) * ncp_) as Hpos by nia.
  assert ((i - 1) * ncp_ + ncp_ = i * ncp_) as Hmul by lia.
  destruct (lookup_lt_is_Some_2 (points time) (Z.to_nat ((i - 1) * ncp_)))
    as [t_prev Ht]; [lia|].
  assert (set_getitem (points time) ((i - 1) * ncp_ + 1) = Some t_prev) as Hget.
  { rewrite set_getitem_pos by lia. rewrite <- Ht. f_equal. lia. }
  exists t_prev, (take (Z.to_nat ncp_)
                    (drop (S (Z.to_nat ((i - 1) * ncp_))) (points time))).
  assert (element_fe time ncp_ i w
          = (Ok (take (Z.to_nat ncp_)
                   (drop (S (Z.to_nat ((i - 1) * ncp_))) (points time))), w)) as Hfe.
  { unfold element_fe.
    replace (i * ncp_ + 2)
      with ((i - 1) * ncp_ + 2 + Z.of_nat (Z.to_nat ncp_)) by lia.
    rewrite element_fe_take_drop by lia.
    by replace (Z.to_nat ((i - 1) * ncp_ + 2 - 1))
      with (S (Z.to_nat ((i - 1) * ncp_))) by lia. }
  split; [|split; [done|split; [done|split; [|done]]]].
  - unfold element_t_prev, time_getitem. by rewrite Hget.
  - pose proof (element_fe_post time ncp_ i w) as HP. unfold post in HP.
    rewrite Hfe in HP. destruct HP as [_ HP].
    by replace (i * ncp_ + 1 + 1) with (i * ncp_ + 2) by lia.
Qed.

(** With [nfe = 4] and [ncp = 2], element 2 starts at [time[3]] and
    solves [time[4]] and [time[5]]. *)
Lemma element_points_witness :
  ∃ t_prev fe,
    element_t_prev nine_points 2 2 (init_world tank) = (Ok t_prev, init_world tank) ∧
    element_fe nine_points 2 2 (init_world tank) = (Ok fe, init_world tank) ∧
    t_prev = 12 ∧ fe = [13; 14] ∧
    set_getitem (points nine_points) 3 = Some t_prev ∧
    Forall2 (λ k t, set_getitem (points nine_points) k = Some t) [4; 5] fe.
Proof.
  destruct (element_points nine_points 2 2 (init_world tank))
    as (t_prev & fe & Hp & Hf & Hg & Hrange & Ht & Hfe);
    [lia|lia|simpl; lia|].
  exists t_prev, fe. split; [exact Hp|]. split; [exact Hf|].
  split; [by injection Ht|]. split; [exact Hfe|]. split; [exact Hg|exact Hrange].
Defined.

Example chain_unsquare_at_2 :
  let r := initialize_by_time_element easy_solver (unsquare_at 2) chain_time false
             (init_world chain) in
  r.1 = Raise dof_failure_element ∧ length (solved r.2) = 2%nat ∧
  last (logged r.2) = Some (ERROR, dof_msg).
Proof. by vm_compute. Qed.

Example chain_unsquare_ignored :
  let r := initialize_by_time_element easy_solver (unsquare_at 2) chain_time true
             (init_world chain) in
  r.1 = Ok tt ∧ length (solved r.2) = 6%nat.
Proof. by vm_compute. Qed.

(** Over a whole run: in every solve of a finite element all constraints
    not indexed by time are inactive and all variables not indexed by time are
    fixed; and when the run reaches the end the active flag of each such
    constraint and the fixed flag of each such variable are what they were on
    entry. *)
Lemma unindexed_frozen_in_run
    (solver : Model → gmap CompId Q * TerminationCondition)
    (degrees_of_freedom : Model → Z)
    (time : ContinuousSet) (ignore_dof : bool) (fs0 : Model) :
  let r := initialize_by_time_element solver degrees_of_freedom time ignore_dof
             (init_world fs0) in
  Forall Frozen (tail (solved r.2)) ∧
  (r.1 = Ok tt →
   (∀ c, time_of c = None → cons (fs r.2) !! c = cons fs0 !! c) ∧
   (∀ v, time_of v = None →
         fixed <$> vars (fs r.2) !! v = fixed <$> vars fs0 !! v)).
Proof.
  intros r.
  destruct (initialize_post solver degrees_of_freedom time ignore_dof fs0)
    as ([Hfrozen _] & _ & _ & Hdone). fold r in Hfrozen, Hdone.
  split; [done|]. intros Hok. destruct (Hdone Hok) as [Hc Hv].
  split; [|done]. intros c _. by rewrite Hc.
Qed.

(** *** A finite element leaves what is not indexed by time alone *)

Lemma Keep_refl w : Keep w w.
Proof. by split. Qed.

Lemma Keep_fs w w1 w2 : fs w2 = fs w1 → Keep w w1 → Keep w w2.
Proof. intros Hfs [Hc Hv]. split; intros x Hx; rewrite Hfs; auto. Qed.

Lemma Keep_cons_alter (f : bool → bool) c w w1 :
  is_Some (time_of c) → Keep w w1 → Keep w (on_fs (set_cons (alter f c)) w1).
Proof.
  intros [t Ht] [Hc Hv]. split; [|done]. intros c' Hc'. simpl.
  rewrite lookup_alter_ne; [by apply Hc|]. intros ->. congruence.
Qed.

Lemma Keep_vars_alter (f : VarData → VarData) v w w1 :
  is_Some (time_of v) → Keep w w1 → Keep w (on_fs (set_vars (alter f v)) w1).
Proof.
  intros [t Ht] [Hc Hv]. split; [done|]. intros v' Hv'. simpl.
  rewrite lookup_alter_ne; [by apply Hv|]. intros ->. congruence.
Qed.

Lemma Keep_flags w w1 w2 :
  cons (fs w2) = cons (fs w1) → same_flags (vars (fs w1)) (vars (fs w2)) →
  Keep w w1 → Keep w w2.
Proof.
  intros Hcons Hflags [Hc Hv]. split.
  - intros c Ht. rewrite Hcons. by apply Hc.
  - intros v Ht. rewrite Hflags. by apply Hv.
Qed.

Section Keeps.
Variable solver : Model → gmap CompId Q * TerminationCondition.
Variable degrees_of_freedom : Model → Z.
Variable w0 : World.

Lemma getitem_keeps {K V} `{Countable K} (d : gmap K V) k w Q :
  Keep w0 w → (∀ v, d !! k = Some v → Q v w) →
  post (getitem d k) w Q (λ _, Keep w0).
Proof. intros HK HQ. by apply post_getitem. Qed.

Lemma reactivate_at_keeps (deactivated : gmap Z (list CompId))
    (was : gmap CompId bool) t w :
  time_indexed deactivated → Keep w0 w →
  post (reactivate_at deactivated was t) w (λ _, Keep w0) (λ _, Keep w0).
Proof.
  intros HD HK. unfold reactivate_at. apply post_bind, getitem_keeps; [done|].
  intros l Hl. apply post_for_; [done|]. intros c w1 Hc HK1.
  apply post_bind, getitem_keeps; [done|]. intros [|] _; [|by apply post_ret].
  apply post_modify, Keep_cons_alter; [|done]. by eapply HD.
Qed.

Lemma deactivate_at_keeps (deactivated : gmap Z (list CompId)) t w :
  time_indexed deactivated → Keep w0 w →
  post (deactivate_at deactivated t) w (λ _, Keep w0) (λ _, Keep w0).
Proof.
  intros HD HK. unfold deactivate_at. apply post_bind, getitem_keeps; [done|].
  intros l Hl. apply post_for_; [done|]. intros c w1 Hc HK1.
  apply post_modify, Keep_cons_alter; [|done]. by eapply HD.
Qed.

Lemma record_and_fix_keeps gate var was w :
  is_Some (time_of var) → Keep w0 w →
  post (record_and_fix gate var was) w (λ _, Keep w0) (λ _, Keep w0).
Proof.
  intros Hvar HK. unfold record_and_fix.
  apply post_bind, post_gets, post_bind, post_gets, post_bind.
  destruct (value_of (fs w) gate).
  - apply post_modify, post_ret. by apply Keep_vars_alter.
  - by apply post_ret, post_ret.
Qed.

Lemma fix_initial_conditions_keeps derivs dvars w :
  (∀ v, v ∈ derivs ++ dvars → is_Some (time_of v)) → Keep w0 w →
  post (fix_initial_conditions derivs dvars) w (λ _, Keep w0) (λ _, Keep w0).
Proof.
  intros Hl HK. unfold fix_initial_conditions. apply post_bind.
  eapply post_mono; [apply (post_foldM _ (Keep w0) (λ _, Keep w0)); [done|]| |done].
  - intros was drv w1 Hin HK1. apply record_and_fix_keeps; [|done].
    apply Hl, elem_of_app. by left.
  - intros was w1 HK1. simpl. apply post_foldM; [done|].
    intros was' dv w2 Hin HK2. destruct (last derivs); [|by apply post_raise].
    apply record_and_fix_keeps; [|done]. apply Hl, elem_of_app. by right.
Qed.

Lemma unfix_initial_conditions_keeps derivs dvars was w :
  (∀ v, v ∈ derivs ++ dvars → is_Some (time_of v)) → Keep w0 w →
  post (unfix_initial_conditions derivs dvars was) w (λ _, Keep w0) (λ _, Keep w0).
Proof.
  intros Hl HK.
  assert (∀ l w1, (∀ v, v ∈ l → v ∈ derivs ++ dvars) → Keep w0 w1 →
            post (for_ l (unfix_unless_fixed was)) w1 (λ _, Keep w0) (λ _, Keep w0))
    as Hloop.
  { intros l w1 Hsub HK1. apply post_for_; [done|]. intros v w2 Hv HK2.
    unfold unfix_unless_fixed. apply post_bind, getitem_keeps; [done|].
    intros [|] _; [by apply post_ret|].
    apply post_modify, Keep_vars_alter; [|done]. auto. }
  unfold unfix_initial_conditions. apply post_bind.
  eapply post_mono; [apply Hloop; [|done]| |done].
  - intros v Hv. apply elem_of_app. by left.
  - intros [] w1 HK1. simpl. apply Hloop; [|done].
    intros v Hv. apply elem_of_app. by right.
Qed.

(** Whether finite element [i] is solved or fails on the way, its step
    activates no constraint and unfixes no variable that is not indexed by
    time. *)
Lemma element_step_keeps time nfe_ ncp_ ignore_dof was deactivated derivs dvars i :
  time_indexed deactivated → time_indexed derivs → time_indexed dvars →
  post (element_step solver degrees_of_freedom time nfe_ ncp_ ignore_dof
          was deactivated derivs dvars i) w0
    (λ _, Keep w0) (λ _, Keep w0).
Proof.
  intros HD Hderivs Hdvars. unfold element_step.
  apply post_bind. eapply post_mono; [apply time_getitem_post| |].
  2: { intros e w' [-> _]. apply Keep_refl. }
  intros t_prev ? [-> _]. simpl.
  apply post_bind. eapply post_mono; [apply element_fe_post| |].
  2: { intros e w' [-> _]. apply Keep_refl. }
  intros fe ? [-> _]. simpl.
  apply post_bind, post_modify.
  apply post_bind.
  eapply post_mono; [apply (post_for_ _ (Keep w0) (λ _, Keep w0))| |done].
  { by apply (Keep_fs w0 w0). }
  { intros t w1 _ HK1. by apply reactivate_at_keeps. }
  intros [] w1 HK1. simpl.
  apply post_bind, getitem_keeps; [done|]. intros init_deriv_list Hdl.
  apply post_bind, getitem_keeps; [done|]. intros init_dvar_list Hvl.
  assert (∀ v, v ∈ init_deriv_list ++ init_dvar_list → is_Some (time_of v)) as Hl.
  { intros v [Hv|Hv]%elem_of_app; eauto. }
  apply post_bind.
  eapply post_mono; [by apply fix_initial_conditions_keeps| |done].
  intros was_fixed w2 HK2. simpl.
  apply post_bind. eapply post_mono; [apply copy_loop_post| |done].
  intros [] w3 (Hc3 & _ & Hf3). simpl.
  assert (Keep w0 w3) as HK3 by by eapply Keep_flags.
  apply post_bind, post_modify.
  apply post_bind. eapply post_mono; [apply check_dof_post| |].
  2: { intros e w' (_ & _ & _ & ->). by apply (Keep_fs w0 w3). }
  intros [] ? [-> _]. simpl.
  apply post_bind. unfold solve_element. apply post_bind.
  eapply post_mono; [apply solve_post| |done].
  intros r ? [-> ->]. cbn [fs logged solved].
  set (w4 := {| fs := load_solution (solver (fs w3)).1 (fs w3);
                logged := logged w3 ++ [(INFO, "Solving finite element " +:+ pretty i)];
                solved := solved w3 ++ [fs w3] |}).
  assert (Keep w0 w4) as HK4.
  { apply (Keep_flags w0 w3); [done| |done]. apply load_solution_flags. }
  assert (∀ (msg : World → Prop),
            post (log ERROR ("Failed to solve finite element " +:+ pretty i);;
                  raise (ValueError "Failure in initialization solve")) w4
              (λ _ : unit, msg) (λ _, Keep w0)) as Hfail.
  { intros msg. apply post_bind, post_modify, post_raise. by apply (Keep_fs w0 w4). }
  destruct ((solver (fs w3)).2); [|by apply Hfail..].
  apply post_modify.
  apply post_bind.
  eapply post_mono; [apply (post_for_ _ (Keep w0) (λ _, Keep w0))| |done].
  { by apply (Keep_fs w0 w4). }
  { intros t w5 _ HK5. by apply deactivate_at_keeps. }
  intros [] w5 HK5. simpl.
  apply post_bind.
  eapply post_mono; [by apply unfix_initial_conditions_keeps| |done].
  intros [] w6 HK6. simpl. apply post_modify. by apply (Keep_fs w0 w6).
Qed.

End Keeps.

(** C7: no step of the loop over the finite elements, whether it completes
    or fails, reactivates a constraint or unfixes a variable that is not
    indexed by time; in each solve of a finite element all those constraints
    are inactive and all those variables are fixed; and they are back at
    their flags of entry when the run reaches the end. *)
Theorem unindexed_restored_only_at_end
    (solver : Model → gmap CompId Q * TerminationCondition)
    (degrees_of_freedom : Model → Z)
    (time : ContinuousSet) (ignore_dof : bool) (fs0 : Model) :
  (∀ nfe_ ncp_ was deactivated derivs dvars i w,
     time_indexed deactivated → time_indexed derivs → time_indexed dvars →
     Keep w (element_step solver degrees_of_freedom time nfe_ ncp_ ignore_dof
               was deactivated derivs dvars i w).2) ∧
  let r := initialize_by_time_element solver degrees_of_freedom time ignore_dof
             (init_world fs0) in
  Forall Frozen (tail (solved r.2)) ∧
  (r.1 = Ok tt →
   (∀ c, time_of c = None → cons (fs r.2) !! c = cons fs0 !! c) ∧
   (∀ v, time_of v = None →
         fixed <$> vars (fs r.2) !! v = fixed <$> vars fs0 !! v)).
Proof.
  split; [|apply unindexed_frozen_in_run].
  intros nfe_ ncp_ was deactivated derivs dvars i w HD Hderivs Hdvars.
  pose proof (element_step_keeps solver degrees_of_freedom w time nfe_ ncp_
                ignore_dof was deactivated derivs dvars i HD Hderivs Hdvars) as HP.
  unfold post in HP. by destruct (element_step _ _ _ _ _ _ _ _ _ _ _ _) as [[[]|e] w'].
Qed.

Lemma unindexed_restored_only_at_end_witness :
  let r := initialize_by_time_element easy_solver square tank_time false
             (init_world tank) in
  Keep (init_world tank)
    (element_step easy_solver square tank_time 2 1 false (cons tank)
       {[ 1 := [("ode", Some 1, []); ("disc", Some 1, [])] ]}
       {[ 0 := [("dxdt", Some 0, [])] ]} {[ 0 := [("x", Some 0, [])] ]} 1
       (init_world tank)).2 ∧
  Forall Frozen (tail (solved r.2)) ∧
  (∀ c, time_of c = None → cons (fs r.2) !! c = cons tank !! c) ∧
  (∀ v, time_of v = None → fixed <$> vars (fs r.2) !! v = fixed <$> vars tank !! v).
Proof.
  pose proof (unindexed_restored_only_at_end easy_solver square tank_time false tank)
    as [Hstep [Hfrozen Hend]].
  split; [|split; [exact Hfrozen|apply Hend; by vm_compute]].
  apply Hstep; intros t l Hl c Hc.
  - apply lookup_singleton_Some in Hl as [<- <-].
    apply elem_of_cons in Hc as [->|Hc]; [by eexists|].
    apply list_elem_of_singleton in Hc as ->. by eexists.
  - apply lookup_singleton_Some in Hl as [<- <-].
    apply list_elem_of_singleton in Hc as ->. by eexists.
  - apply lookup_singleton_Some in Hl as [<- <-].
    apply list_elem_of_singleton in Hc as ->. by eexists.
Defined.

(** *** The snapshot of the fixed flags *)











Section Restore.
Variable solver : Model → gmap CompId Q * TerminationCondition.
Variable degrees_of_freedom : Model → Z.





End Restore.


(** Where a variable is listed twice, the second recording sees the flag
    set by the first fixing: the snapshot entry is true and the variable stays
    fixed, though it was not fixed when the step began. *)
Example listed_twice_stays_fixed :
  let w := init_world spring in
  let derivs := [("dxdt", Some 0, []); ("d2xdt2", Some 0, [])] in
  let dvars := [("x", Some 0, []); ("x", Some 0, [])] in
  let fixing := fix_initial_conditions derivs dvars w in
  is_fixed (fs w) ("x", Some 0, []) = false ∧
  (if fixing.1 is Ok was then was !! ("x", Some 0, []) = Some true else False) ∧
  is_fixed (fs (element_step easy_solver square
                  {| points := [0; 1]; discretization_info := None |} 1 1 false
                  (cons spring) {[ 1 := [("ode", Some 1, [])] ]}
                  {[ 0 := derivs ]} {[ 0 := dvars ]} 1 w).2) ("x", Some 0, []) = true.
Proof.
  split; [by vm_compute|]. split; by vm_compute.
Qed.

(** C1 fails on the code: the second loop of the fixing step tests the
    value of [drv], the last derivative, where it should test the value of the
    differential variable [dv] itself.  Here [x] at point 0 has value [None]
    and is not fixed, its derivative has value 0: the fixing step fixes [x],
    and the solver is handed, for finite element 1, a flowsheet in which [x]
    at point 0 is fixed with no value. *)
Theorem differential_without_value_is_fixed :
  let x0 : CompId := ("x", Some 0, []) in
  let fixing := fix_initial_conditions
                  [("dxdt", Some 0, [])] [x0] (init_world unsolved_tank) in
  let r := initialize_by_time_element idle_solver square two_points false
             (init_world unsolved_tank) in
  value_of unsolved_tank x0 = None ∧
  is_fixed unsolved_tank x0 = false ∧
  value_of (fs fixing.2) x0 = None ∧
  is_fixed (fs fixing.2) x0 = true ∧
  r.1 = Ok tt ∧
  (if solved r.2 !! 1%nat is Some m
   then value_of m x0 = None ∧ is_fixed m x0 = true else False).
Proof. by vm_compute. Qed.

(** The first loop does test the variable it fixes: a derivative whose
    value is [None] is left as it is by its own iteration. *)
Lemma derivative_without_value_not_fixed (drv : CompId)
    (was : gmap CompId bool) (w : World) :
  value_of (fs w) drv = None →
  record_and_fix drv drv was w = (Ok (<[drv := is_fixed (fs w) drv]> was), w).
Proof. intros Hv. unfold record_and_fix, bind, gets. by rewrite Hv. Qed.

(** *** On well-posed inputs only solves and checks fail *)










Section Progress.
Variable solver : Model → gmap CompId Q * TerminationCondition.
Variable degrees_of_freedom : Model → Z.
Variable time : ContinuousSet.
Variables (nfe_ ncp_ : Z) (ignore_dof : bool).
Variable fs0 : Model.




End Progress.


Example tank_well_posed : well_posed tank_time tank.
Proof.
  exists {| scheme := "BACKWARD Difference"; nfe := 2; ncp := None |}, 1.
  split; [done|]. split; [by left|]. split; [done|]. split; [done|].
  split; [done|].
  intros v x [d Hv] Hx.
  change (state_vars tank) with ({[ "dxdt" := "x" ]} : gmap string string) in Hx.
  destruct (decide (comp_name v = "dxdt")) as [Hname|Hname].
  - rewrite Hname in Hx. apply lookup_singleton_Some in Hx as [_ <-].
    apply elem_of_map_to_list in Hv.
    assert (v ∈ (map_to_list (vars tank)).*1) as Hin.
    { apply list_elem_of_fmap. by exists (v, d). }
    clear Hv. vm_compute in Hin. vm_compute.
    repeat (apply elem_of_cons in Hin as [->|Hin]; [by (discriminate || eexists)|]).
    by apply elem_of_nil in Hin.
  - by rewrite lookup_singleton_ne in Hx.
Qed.




(** *** The finite elements cover the time domain *)

Lemma range_snoc lo (n : nat) :
  range lo (lo + Z.of_nat (S n)) = range lo (lo + Z.of_nat n) ++ [lo + Z.of_nat n].
Proof.
  unfold range.
  replace (Z.to_nat (lo + Z.of_nat (S n) - lo)) with (S n) by lia.
  replace (Z.to_nat (lo + Z.of_nat n - lo)) with n by lia.
  rewrite seq_S, map_app. done.
Qed.

Lemma mapM_total {A B} (f : A → M World B) (g : A → B) (l : list A) w :
  (∀ x, x ∈ l → f x w = (Ok (g x), w)) → mapM f l w = (Ok (g <$> l), w).
Proof.
  induction l as [|x l IH]; intros Hf; [done|].
  simpl. unfold bind at 1. rewrite Hf by left. unfold bind at 1.
  rewrite IH; [done|]. intros y Hy. apply Hf. by right.
Qed.

Section Cover.
Variable time : ContinuousSet.
Variable n : nat.

(** The points of finite element [i]. *)
Local Abbreviation chunk :=
  (λ i : Z, take n (drop (Z.to_nat ((i - 1) * Z.of_nat n + 1)) (points time))).

Lemma element_fe_chunk i w :
  1 ≤ i → i * Z.of_nat n + 1 ≤ Z.of_nat (length (points time)) →
  element_fe time (Z.of_nat n) i w = (Ok (chunk i), w).
Proof.
  intros Hi Hlen. unfold element_fe.
  replace (i * Z.of_nat n + 2) with ((i - 1) * Z.of_nat n + 2 + Z.of_nat n) by lia.
  rewrite element_fe_take_drop by nia.
  by replace ((i - 1) * Z.of_nat n + 2 - 1) with ((i - 1) * Z.of_nat n + 1) by lia.
Qed.

Lemma chunks_join (j : nat) :
  mjoin (chunk <$> range 1 (1 + Z.of_nat j)) = take (j * n) (drop 1 (points time)).
Proof.
  induction j as [|j IH]; [done|].
  rewrite range_snoc, fmap_app, join_app, IH. simpl. rewrite app_nil_r.
  replace (Z.to_nat ((1 + Z.of_nat j - 1) * Z.of_nat n + 1)) with (1 + j * n)%nat by lia.
  rewrite <- drop_drop, (Nat.add_comm n (j * n)). apply take_take_drop.
Qed.

End Cover.

(** On a time domain with [nfe * ncp + 1] points, the point lists of the
    finite elements [1] to [nfe] are computed without error, each has [ncp]
    points, and one after the other they are all the points but the first: a
    point other than the first is solved for in exactly one element.  The
    initial point of an element is the last point reached before it: the
    first point of the domain for the first element, the last point of the
    element before for the others. *)
Theorem elements_cover (time : ContinuousSet) (nfe_ ncp_ : Z) (w : World) :
  0 ≤ nfe_ → 0 ≤ ncp_ →
  Z.of_nat (length (points time)) = nfe_ * ncp_ + 1 →
  ∃ fes,
    mapM (element_fe time ncp_) (range 1 (nfe_ + 1)) w = (Ok fes, w) ∧
    Forall (λ fe, Z.of_nat (length fe) = ncp_) fes ∧
    mjoin fes = tail (points time) ∧
    ∀ i, 1 ≤ i ≤ nfe_ →
      ∃ t0 t, head (points time) = Some t0 ∧
              last (t0 :: mjoin (take (Z.to_nat (i - 1)) fes)) = Some t ∧
              element_t_prev time ncp_ i w = (Ok t, w).
Proof.
  intros Hnfe Hncp Hlen.
  assert (∃ n : nat, ncp_ = Z.of_nat n) as [n ->].
  { exists (Z.to_nat ncp_). lia. }
  set (chunk := λ i : Z,
         take n (drop (Z.to_nat ((i - 1) * Z.of_nat n + 1)) (points time))).
  exists (chunk <$> range 1 (nfe_ + 1)).
  assert (∀ j : nat, Z.of_nat j ≤ nfe_ →
            mjoin (chunk <$> range 1 (1 + Z.of_nat j))
            = take (j * n) (drop 1 (points time))) as Hjoin.
  { intros j _. apply chunks_join. }
  split; [|split; [|split]].
  - apply mapM_total. intros i [Hi1 Hi2]%elem_of_range.
    apply element_fe_chunk; [done|nia].
  - apply Forall_fmap, Forall_forall. intros i [Hi1 Hi2]%elem_of_range. simpl.
    unfold chunk. rewrite length_take, length_drop. nia.
  - replace (nfe_ + 1) with (1 + Z.of_nat (Z.to_nat nfe_)) by lia.
    rewrite Hjoin by lia. rewrite take_ge; [by destruct (points time)|].
    rewrite length_drop. nia.
  - intros i [Hi1 Hi2].
    destruct (points time) as [|t0 pts] eqn:Hpts; [simpl in Hlen; nia|].
    destruct (lookup_lt_is_Some_2 (t0 :: pts) (Z.to_nat (i - 1) * n)) as [t Ht].
    { simpl in *. nia. }
    exists t0, t. split; [done|]. split.
    + assert (take (Z.to_nat (i - 1)) (chunk <$> range 1 (nfe_ + 1))
              = chunk <$> range 1 (1 + Z.of_nat (Z.to_nat (i - 1)))) as ->.
      { rewrite <- fmap_take. f_equal. unfold range.
        rewrite <- fmap_take. f_equal. rewrite take_seq. f_equal. lia. }
      rewrite Hjoin by lia. simpl. rewrite drop_0.
      change (t0 :: take (Z.to_nat (i - 1) * n) pts)
        with (take (S (Z.to_nat (i - 1) * n)) (t0 :: pts)).
      by rewrite (take_S_r _ _ _ Ht), last_snoc.
    + unfold element_t_prev, time_getitem. rewrite Hpts.
      rewrite set_getitem_pos by nia.
      replace (Z.to_nat ((i - 1) * Z.of_nat n + 1 - 1))
        with (Z.to_nat (i - 1) * n)%nat by nia.
      by rewrite Ht.
Qed.

Lemma elements_cover_witness :
  ∃ fes,
    mapM (element_fe nine_points 2) (range 1 5) (init_world tank) = (Ok fes, init_world tank) ∧
    Forall (λ fe, Z.of_nat (length fe) = 2) fes ∧
    mjoin fes = [11; 12; 13; 14; 15; 16; 17; 18] ∧
    ∀ i, 1 ≤ i ≤ 4 →
      ∃ t0 t, head (points nine_points) = Some t0 ∧
              last (t0 :: mjoin (take (Z.to_nat (i - 1)) fes)) = Some t ∧
              element_t_prev nine_points 2 i (init_world tank) = (Ok t, init_world tank).
Proof.
  apply (elements_cover nine_points 4 2 (init_world tank)); [lia|lia|reflexivity].
Defined.

(** *** What a run logs, how often it calls the solver, and how it leaves the
    flowsheet when it fails *)

Lemma Quiet_refl w : Quiet w w.
Proof. done. Qed.

Lemma Quiet_trans w1 w2 w3 : Quiet w1 w2 → Quiet w2 w3 → Quiet w1 w3.
Proof. intros [? ?] [? ?]. split; congruence. Qed.

Lemma benign_KeyError : benign KeyError.
Proof. by repeat split. Qed.

Lemma benign_IndexError : benign IndexError.
Proof. by repeat split. Qed.

Lemma quiet_ret {A} (a : A) : quiet (ret a).
Proof. by intros w. Qed.

Lemma quiet_raise {A} e : benign e → quiet (raise (A := A) e).
Proof. by intros He w. Qed.

Lemma quiet_gets {A} (f : World → A) : quiet (gets f).
Proof. by intros w. Qed.

Lemma quiet_on_fs (g : Model → Model) : quiet (modify (on_fs g)).
Proof. by intros w. Qed.

Lemma quiet_bind {A B} (m : M World A) (f : A → M World B) :
  quiet m → (∀ a, quiet (f a)) → quiet (bind m f).
Proof.
  intros Hm Hf w. apply post_bind. eapply post_mono; [apply Hm| |done].
  intros a w1 H1. simpl. eapply post_mono; [apply Hf| |].
  - intros b w2 H2. exact (Quiet_trans _ _ _ H1 H2).
  - intros e w2 [He H2]. split; [done|]. exact (Quiet_trans _ _ _ H1 H2).
Qed.

Lemma quiet_for_ {A} (l : list A) (body : A → M World unit) :
  (∀ x, quiet (body x)) → quiet (for_ l body).
Proof.
  intros Hbody. induction l as [|x l IH]; [apply quiet_ret|].
  simpl. apply quiet_bind; [apply Hbody|done].
Qed.

Lemma quiet_mapM {A B} (f : A → M World B) (l : list A) :
  (∀ x, quiet (f x)) → quiet (mapM f l).
Proof.
  intros Hf. induction l as [|x l IH]; [apply quiet_ret|].
  simpl. apply quiet_bind; [apply Hf|]. intros y.
  apply quiet_bind; [done|]. intros ys. apply quiet_ret.
Qed.

Lemma quiet_foldM {A B} (f : B → A → M World B) (l : list A) acc :
  (∀ b x, quiet (f b x)) → quiet (foldM f acc l).
Proof.
  intros Hf. revert acc. induction l as [|x l IH]; intros acc; [apply quiet_ret|].
  simpl. apply quiet_bind; [apply Hf|done].
Qed.

Lemma quiet_getitem {K V} `{Countable K} (d : gmap K V) k : quiet (getitem d k).
Proof.
  unfold getitem. destruct (d !! k); [apply quiet_ret|apply quiet_raise, benign_KeyError].
Qed.

Lemma quiet_time_getitem time k : quiet (time_getitem time k).
Proof.
  unfold time_getitem.
  destruct (set_getitem _ _); [apply quiet_ret|apply quiet_raise, benign_IndexError].
Qed.

Lemma quiet_reactivate_at (deactivated : gmap Z (list CompId))
    (was : gmap CompId bool) t :
  quiet (reactivate_at deactivated was t).
Proof.
  apply quiet_bind; [apply quiet_getitem|]. intros comps. apply quiet_for_.
  intros c. apply quiet_bind; [apply quiet_getitem|].
  intros []; [apply quiet_on_fs|apply quiet_ret].
Qed.

Lemma quiet_deactivate_at (deactivated : gmap Z (list CompId)) t :
  quiet (deactivate_at deactivated t).
Proof.
  apply quiet_bind; [apply quiet_getitem|]. intros comps. apply quiet_for_.
  intros c. apply quiet_on_fs.
Qed.

Lemma quiet_record_and_fix gate var was : quiet (record_and_fix gate var was).
Proof.
  apply quiet_bind; [apply quiet_gets|]. intros f.
  apply quiet_bind; [apply quiet_gets|]. intros val.
  apply quiet_bind; [destruct val; [apply quiet_on_fs|apply quiet_ret]|].
  intros _. apply quiet_ret.
Qed.

Lemma quiet_fix_initial_conditions (derivs dvars : list CompId) :
  quiet (fix_initial_conditions derivs dvars).
Proof.
  apply quiet_bind; [apply quiet_foldM; intros; apply quiet_record_and_fix|].
  intros was. apply quiet_foldM. intros b x.
  destruct (last derivs); [apply quiet_record_and_fix|].
  apply quiet_raise. by repeat split.
Qed.

Lemma quiet_unfix_initial_conditions (derivs dvars : list CompId)
    (was : gmap CompId bool) :
  quiet (unfix_initial_conditions derivs dvars was).
Proof.
  assert (∀ v, quiet (unfix_unless_fixed was v)) as Hone.
  { intros v. apply quiet_bind; [apply quiet_getitem|].
    intros []; [apply quiet_ret|apply quiet_on_fs]. }
  apply quiet_bind; [by apply quiet_for_|]. intros _. by apply quiet_for_.
Qed.

Lemma quiet_get_dvars_at (derivs : gmap Z (list CompId)) pts :
  quiet (get_dvars_at derivs pts).
Proof.
  apply quiet_bind; [|intros; apply quiet_ret].
  apply quiet_mapM. intros t. apply quiet_bind; [apply quiet_getitem|].
  intros ds. apply quiet_bind; [|intros; apply quiet_ret].
  apply quiet_mapM. intros d. apply quiet_bind; [apply quiet_gets|].
  intros [x|]; [|apply quiet_raise; by repeat split].
  apply quiet_bind; [apply quiet_gets|].
  intros [known|]; [apply quiet_ret|apply quiet_raise, benign_KeyError].
Qed.

Lemma post_quiet {A} (m : M World A) w (Q : A → World → Prop) (E : exn → World → Prop) :
  quiet m →
  (∀ a w', Quiet w w' → Q a w') →
  (∀ e w', benign e → Quiet w w' → E e w') →
  post m w Q E.
Proof.
  intros Hm HQ HE. eapply post_mono; [apply Hm|done|]. intros e w' [? ?]. by apply HE.
Qed.

Lemma post_bind_quiet {A B} (m : M World A) (f : A → M World B) w
    (Q : B → World → Prop) (E : exn → World → Prop) :
  quiet m →
  (∀ e w', benign e → Quiet w w' → E e w') →
  (∀ a w', Quiet w w' → post (f a) w' Q E) →
  post (bind m f) w Q E.
Proof. intros Hm HE Hf. apply post_bind. by apply post_quiet. Qed.

Section Trace.
Variable solver : Model → gmap CompId Q * TerminationCondition.
Variable degrees_of_freedom : Model → Z.
Variable time : ContinuousSet.
Variables (nfe_ ncp_ : Z) (ignore_dof : bool).

(** How a finite element started in [w] may stop: at most one solver call
    has been made; after a failed solve the flowsheet is as the solver left
    it, after a failed check it is the flowsheet that was checked. *)
Local Abbreviation Halted := (λ (w : World) (e : exn) (w' : World),
  (length (solved w') ≤ S (length (solved w)))%nat ∧
  (e = element_failure →
   ∃ m, solved w' = solved w ++ [m] ∧ (solver m).2 ≠ optimal ∧
        fs w' = load_solution (solver m).1 m) ∧
  (e = dof_failure_element →
   solved w' = solved w ∧ degrees_of_freedom (fs w') ≠ 0) ∧
  e ≠ ic_failure ∧ e ≠ dof_failure_entry).

Lemma benign_halted_le w e w' :
  benign e → (length (solved w') ≤ S (length (solved w)))%nat → Halted w e w'.
Proof. intros (H1 & H2 & H3 & H4) Hs. by repeat split. Qed.

Lemma benign_halted w e w' :
  benign e → solved w' = solved w → Halted w e w'.
Proof. intros He Hs. apply benign_halted_le; [done|]. rewrite Hs. lia. Qed.

Lemma element_step_trace (was : gmap CompId bool)
    (deactivated derivs dvars : gmap Z (list CompId)) i w :
  post (element_step solver degrees_of_freedom time nfe_ ncp_ ignore_dof
          was deactivated derivs dvars i) w
    (λ _ w', logged w' = logged w ++ element_log nfe_ i ∧
             length (solved w') = S (length (solved w)))
    (Halted w).
Proof.
  unfold element_step.
  apply post_bind_quiet; [apply quiet_time_getitem| |].
  { intros e w' He [_ Hs]. by apply benign_halted. }
  intros t_prev w1 [Hl1 Hs1].
  apply post_bind_quiet;
    [apply quiet_mapM; intros; apply quiet_time_getitem| |].
  { intros e w' He [_ Hs]. apply benign_halted; [done|congruence]. }
  intros fe w2 [Hl2 Hs2].
  apply post_bind, post_modify.
  apply post_bind_quiet;
    [apply quiet_for_; intros; apply quiet_reactivate_at| |].
  { intros e w' He [_ Hs]. apply benign_halted; [done|]. simpl in Hs. congruence. }
  intros [] w3 [Hl3 Hs3]. simpl in Hl3, Hs3.
  apply post_bind_quiet; [apply quiet_getitem| |].
  { intros e w' He [_ Hs]. apply benign_halted; [done|congruence]. }
  intros init_deriv_list w4 [Hl4 Hs4].
  apply post_bind_quiet; [apply quiet_getitem| |].
  { intros e w' He [_ Hs]. apply benign_halted; [done|congruence]. }
  intros init_dvar_list w5 [Hl5 Hs5].
  apply post_bind_quiet; [apply quiet_fix_initial_conditions| |].
  { intros e w' He [_ Hs]. apply benign_halted; [done|congruence]. }
  intros was_fixed w6 [Hl6 Hs6].
  apply post_bind_quiet; [apply quiet_for_; intros; apply quiet_on_fs| |].
  { intros e w' He [_ Hs]. apply benign_halted; [done|congruence]. }
  intros [] w7 [Hl7 Hs7].
  apply post_bind, post_modify.
  assert (solved w7 = solved w) as Hsol by congruence.
  assert (logged w7 = logged w ++
            [(INFO, "Entering step " +:+ pretty i +:+ "/" +:+ pretty nfe_ +:+
                    " of initialization")]) as Hlog by congruence.
  clear Hl1 Hs1 Hl2 Hs2 Hl3 Hs3 Hl4 Hs4 Hl5 Hs5 Hl6 Hs6 Hl7 Hs7.
  apply post_bind. eapply post_mono; [apply check_dof_post| |].
  2: { intros e w' (-> & Hig & Hdof & ->). simpl. rewrite Hsol.
       split; [lia|]. split; [done|]. split; [done|]. by split. }
  intros [] ? [-> _]. simpl.
  apply post_bind. unfold solve_element. apply post_bind.
  eapply post_mono; [apply solve_post| |done].
  intros r ? [-> ->]. simpl.
  set (m := fs w7).
  assert (∀ msg, (solver m).2 ≠ optimal →
    post (log ERROR ("Failed to solve finite element " +:+ pretty i);;
          raise (ValueError "Failure in initialization solve"))
      {| fs := load_solution (solver m).1 m;
         logged := logged w7 ++ [(INFO, "Solving finite element " +:+ pretty i)];
         solved := solved w7 ++ [m] |}
      (λ _ : unit, msg) (Halted w)) as Hfail.
  { intros msg Hr. apply post_bind, post_modify, post_raise. simpl.
    rewrite Hsol, length_app. simpl. split; [lia|]. split; [|by repeat split].
    intros _. by exists m. }
  destruct ((solver m).2) eqn:Hr; [|by apply Hfail..]. clear Hfail.
  apply post_modify. simpl.
  apply post_bind_quiet; [apply quiet_for_; intros; apply quiet_deactivate_at| |].
  { intros e w' He [_ Hs]. simpl in Hs. apply benign_halted_le; [done|].
    rewrite Hs, Hsol, length_app. simpl. lia. }
  intros [] w8 [Hl8 Hs8]. simpl in Hl8, Hs8.
  apply post_bind_quiet; [apply quiet_unfix_initial_conditions| |].
  { intros e w' He [_ Hs]. apply benign_halted_le; [done|].
    rewrite Hs, Hs8, Hsol, length_app. simpl. lia. }
  intros [] w9 [Hl9 Hs9].
  apply post_modify. simpl. split.
  - rewrite Hl9, Hl8, Hlog. unfold element_log. by rewrite <- !app_assoc.
  - rewrite Hs9, Hs8, Hsol, length_app. simpl. lia.
Qed.

(** How a run may stop. *)
Local Abbreviation Stopped := (λ (e : exn) (w' : World),
  (length (solved w') ≤ S (Z.to_nat nfe_))%nat ∧
  (e = ic_failure ∨ e = element_failure →
   ∃ pre m, solved w' = pre ++ [m] ∧ (solver m).2 ≠ optimal ∧
            fs w' = load_solution (solver m).1 m) ∧
  (e = dof_failure_element →
   solved w' ≠ [] ∧ degrees_of_freedom (fs w') ≠ 0) ∧
  e ≠ dof_failure_entry).

Lemma benign_stopped e w' :
  benign e → (length (solved w') ≤ S (Z.to_nat nfe_))%nat → Stopped e w'.
Proof.
  intros (H1 & H2 & H3 & H4) Hs. split; [done|]. split; [by intros [?|?]|done].
Qed.

Lemma quiet_first : quiet (first time).
Proof.
  unfold first. destruct (points time); [apply quiet_raise, benign_IndexError|].
  apply quiet_ret.
Qed.

Lemma quiet_deactivate_model_at pts : quiet (deactivate_model_at pts).
Proof. by intros w. Qed.

Lemma quiet_deactivate_constraints_unindexed_by :
  quiet deactivate_constraints_unindexed_by.
Proof. by intros w. Qed.

Lemma quiet_fix_vars_unindexed_by : quiet fix_vars_unindexed_by.
Proof. by intros w. Qed.

Lemma run_elements_trace (fs0 : Model) :
  post (run_elements solver degrees_of_freedom time nfe_ ncp_ ignore_dof)
    (init_world fs0)
    (λ _ w', logged w' = run_log nfe_ ∧ length (solved w') = S (Z.to_nat nfe_))
    Stopped.
Proof.
  unfold run_elements.
  apply post_bind, post_gets.
  apply post_bind_quiet; [apply quiet_first| |].
  { intros e w' He [_ Hs]. apply benign_stopped; [done|]. rewrite Hs. simpl. lia. }
  intros t0 w1 [Hl1 Hs1].
  apply post_bind_quiet; [apply quiet_deactivate_model_at| |].
  { intros e w' He [_ Hs]. apply benign_stopped; [done|]. rewrite Hs, Hs1. simpl. lia. }
  intros deactivated w2 [Hl2 Hs2].
  apply post_bind, post_modify.
  apply post_bind. eapply post_mono; [apply solve_post| |done].
  intros r ? [-> ->]. simpl.
  assert (solved w2 = []) as Hsol by (rewrite Hs2, Hs1; done).
  assert (logged w2 = []) as Hlog by (rewrite Hl2, Hl1; done).
  rewrite Hsol, Hlog. clear Hl1 Hs1 Hl2 Hs2 Hsol Hlog. simpl.
  set (m := fs w2).
  apply post_bind.
  assert (∀ msg, (solver m).2 ≠ optimal →
    post (log ERROR "Failed to solve for consistent initial conditions";;
          raise (ValueError "Solver failed in initialization"))
      {| fs := load_solution (solver m).1 m;
         logged := [(INFO, "Model is inactive except at t=0. Solving for consistent initial conditions.")];
         solved := [m] |}
      (λ _ : unit, msg) Stopped) as Hfail.
  { intros msg Hr. apply post_bind, post_modify, post_raise. simpl.
    split; [lia|]. split; [|by split].
    intros _. by exists [], m. }
  destruct ((solver m).2) eqn:Hr; [|by apply Hfail..]. clear Hfail.
  apply post_modify. simpl.
  apply post_bind_quiet; [apply quiet_deactivate_model_at| |].
  { intros e w' He [_ Hs]. apply benign_stopped; [done|]. rewrite Hs. simpl. lia. }
  intros at_t0 w3 [Hl3 Hs3]. simpl in Hl3, Hs3.
  apply post_bind_quiet; [apply quiet_getitem| |].
  { intros e w' He [_ Hs]. apply benign_stopped; [done|]. rewrite Hs, Hs3. simpl. lia. }
  intros comps0 w4 [Hl4 Hs4].
  apply post_bind_quiet; [apply quiet_deactivate_constraints_unindexed_by| |].
  { intros e w' He [_ Hs]. apply benign_stopped; [done|].
    rewrite Hs, Hs4, Hs3. simpl. lia. }
  intros con_unindexed w5 [Hl5 Hs5].
  apply post_bind_quiet; [apply quiet_fix_vars_unindexed_by| |].
  { intros e w' He [_ Hs]. apply benign_stopped; [done|].
    rewrite Hs, Hs5, Hs4, Hs3. simpl. lia. }
  intros var_unindexed w6 [Hl6 Hs6].
  apply post_bind, post_gets.
  apply post_bind_quiet; [apply quiet_get_dvars_at| |].
  { intros e w' He [_ Hs]. apply benign_stopped; [done|].
    rewrite Hs, Hs6, Hs5, Hs4, Hs3. simpl. lia. }
  intros dvars w7 [Hl7 Hs7].
  apply post_bind, post_modify.
  assert (length (solved w7) = 1%nat) as Hsol
    by (rewrite Hs7, Hs6, Hs5, Hs4, Hs3; done).
  assert (logged w7 =
    [ (INFO, "Model is inactive except at t=0. Solving for consistent initial conditions.");
      (INFO, "Successfully solved for consistent initial conditions") ]) as Hlog
    by (rewrite Hl7, Hl6, Hl5, Hl4, Hl3; done).
  clear Hl3 Hs3 Hl4 Hs4 Hl5 Hs5 Hl6 Hs6 Hl7 Hs7.
  set (header :=
    [ (INFO, "Model is inactive except at t=0. Solving for consistent initial conditions.");
      (INFO, "Successfully solved for consistent initial conditions");
      (INFO, "Flowsheet has been deactivated. Beginning element-wise initialization") ]).
  apply post_bind.
  eapply post_mono;
    [apply (post_for_split _
       (λ done_ w', logged w' = header ++ mjoin (element_log nfe_ <$> done_) ∧
                    length (solved w') = S (length done_)) Stopped)| |done].
  - simpl. by rewrite Hlog.
  - intros pre i suf w8 Hsplit [Hl8 Hs8].
    eapply post_mono; [apply element_step_trace| |].
    + intros [] w9 [Hl9 Hs9]. simpl. split.
      * rewrite Hl9, Hl8, fmap_app, join_app. simpl. done.
      * rewrite Hs9, Hs8, length_app. simpl. lia.
    + intros e w9 (Hle & Hfail & Hdof & Hic & Hentry).
      assert (length pre < Z.to_nat nfe_)%nat as Hpre.
      { pose proof (length_range 1 (nfe_ + 1)) as Hlen.
        rewrite Hsplit, length_app in Hlen. simpl in Hlen. lia. }
      split; [lia|]. split; [|split; [|done]].
      * intros [?|He]; [done|]. destruct (Hfail He) as (m' & ? & ? & ?).
        by exists (solved w8), m'.
      * intros He. destruct (Hdof He) as [Hs9 ?]. split; [|done].
        rewrite Hs9. by destruct (solved w8).
  - intros [] w8 [Hl8 Hs8]. simpl.
    assert (length (solved w8) = S (Z.to_nat nfe_)) as Hcount.
    { rewrite Hs8, length_range. f_equal. lia. }
    apply post_bind_quiet;
      [apply quiet_for_; intros; apply quiet_reactivate_at| |].
    { intros e w' He [_ Hs]. apply benign_stopped; [done|]. rewrite Hs. lia. }
    intros [] w9 [Hl9 Hs9].
    apply post_bind_quiet; [apply quiet_for_; intros; apply quiet_on_fs| |].
    { intros e w' He [_ Hs]. apply benign_stopped; [done|]. rewrite Hs, Hs9. lia. }
    intros [] w10 [Hl10 Hs10].
    apply post_bind_quiet; [apply quiet_for_; intros; apply quiet_on_fs| |].
    { intros e w' He [_ Hs]. apply benign_stopped; [done|].
      rewrite Hs, Hs10, Hs9. lia. }
    intros [] w11 [Hl11 Hs11].
    apply post_modify. simpl. split.
    + rewrite Hl11, Hl10, Hl9, Hl8. unfold run_log. by rewrite <- app_assoc.
    + by rewrite Hs11, Hs10, Hs9.
Qed.

End Trace.

Lemma scheme_ncp_post info w :
  post (scheme_ncp info) w (λ _ w', w' = w) (λ e w', w' = w ∧ benign e).
Proof.
  unfold scheme_ncp.
  repeat case_decide; try destruct (ncp info);
    first [by apply post_ret|apply post_raise; by repeat split].
Qed.

Lemma initialize_trace
    (solver : Model → gmap CompId Q * TerminationCondition)
    (degrees_of_freedom : Model → Z)
    (time : ContinuousSet) (ignore_dof : bool) (fs0 : Model) :
  let n := match discretization_info time with Some info => nfe info | None => 0 end in
  post (initialize_by_time_element solver degrees_of_freedom time ignore_dof)
    (init_world fs0)
    (λ _ w', logged w' = run_log n ∧ length (solved w') = S (Z.to_nat n))
    (λ e w',
       (length (solved w') ≤ S (Z.to_nat n))%nat ∧
       (e = ic_failure ∨ e = element_failure →
        ∃ pre m, solved w' = pre ++ [m] ∧ (solver m).2 ≠ optimal ∧
                 fs w' = load_solution (solver m).1 m) ∧
       (e = dof_failure_element →
        solved w' ≠ [] ∧ degrees_of_freedom (fs w') ≠ 0)).
Proof.
  intros n. unfold initialize_by_time_element.
  destruct (discretization_info time) as [info|].
  2: { apply post_raise. simpl. split; [lia|]. by split; [intros [?|?]|]. }
  apply post_bind. eapply post_mono; [apply scheme_ncp_post| |].
  2: { intros e w' [-> (? & ? & ? & ?)]. simpl.
       split; [lia|]. by split; [intros [?|?]|]. }
  intros ncp_ ? ->. simpl.
  apply post_bind. eapply post_mono; [apply check_dof_post| |].
  2: { intros e w' (-> & _ & _ & ->). simpl.
       split; [lia|]. by split; [intros [?|?]|]. }
  intros [] ? [-> _]. simpl.
  eapply post_mono; [apply run_elements_trace|done|].
  intros e w' (? & ? & ? & ?). done.
Qed.

(** A run that returns has called the solver once for the initial
    conditions and once for each of the [nfe] finite elements, and has logged
    the three records of the first phase, four records for each element in
    turn, and the closing record, none of them an error; no run calls the
    solver more often. *)
Theorem run_records
    (solver : Model → gmap CompId Q * TerminationCondition)
    (degrees_of_freedom : Model → Z)
    (time : ContinuousSet) (ignore_dof : bool) (fs0 : Model) :
  let r := initialize_by_time_element solver degrees_of_freedom time ignore_dof
             (init_world fs0) in
  let n := match discretization_info time with Some info => nfe info | None => 0 end in
  (r.1 = Ok tt →
   logged r.2 = run_log n ∧ length (solved r.2) = S (Z.to_nat n)) ∧
  (length (solved r.2) ≤ S (Z.to_nat n))%nat.
Proof.
  intros r n.
  pose proof (initialize_trace solver degrees_of_freedom time ignore_dof fs0) as HP.
  unfold post in HP. cbn zeta in HP. fold n in HP. fold r in HP.
  destruct r as [[[]|e] w']; simpl.
  - split; [done|]. destruct HP as [_ ->]. lia.
  - split; [done|]. by destruct HP as [? _].
Qed.

(** Nothing is undone when a run fails.  After a solve that did not
    converge, for the initial conditions or for a finite element, the
    flowsheet is as the solver left it: the flowsheet of the last solver call
    with the solver's values loaded, whatever was deactivated or fixed for that
    solve still deactivated or fixed.  After a failed check of the degrees of
    freedom inside the loop the flowsheet is the one that failed the check. *)
Theorem failure_is_not_undone
    (solver : Model → gmap CompId Q * TerminationCondition)
    (degrees_of_freedom : Model → Z)
    (time : ContinuousSet) (ignore_dof : bool) (fs0 : Model) :
  let r := initialize_by_time_element solver degrees_of_freedom time ignore_dof
             (init_world fs0) in
  (r.1 = Raise ic_failure ∨ r.1 = Raise element_failure →
   ∃ pre m, solved r.2 = pre ++ [m] ∧ (solver m).2 ≠ optimal ∧
            fs r.2 = load_solution (solver m).1 m) ∧
  (r.1 = Raise dof_failure_element →
   solved r.2 ≠ [] ∧ degrees_of_freedom (fs r.2) ≠ 0).
Proof.
  intros r.
  pose proof (initialize_trace solver degrees_of_freedom time ignore_dof fs0) as HP.
  unfold post in HP. cbn zeta in HP. fold r in HP.
  destruct r as [[[]|e] w']; simpl.
  - split; [by intros [?|?]|done].
  - destruct HP as (_ & Hfail & Hdof). split.
    + intros [[= ->]|[= ->]]; apply Hfail; by auto.
    + intros [= ->]. by apply Hdof.
Qed.

(** The chain whose third element does not converge is left with the
    equations of the later elements switched off and the initial conditions
    of the third element fixed. *)
Example chain_left_deactivated :
  let r := initialize_by_time_element (stalls_at 3) square chain_time false
             (init_world chain) in
  r.1 = Raise element_failure ∧
  cons chain !! ("ode", Some 5, []) = Some true ∧
  cons (fs r.2) !! ("ode", Some 5, []) = Some false ∧
  cons (fs r.2) !! ("ode", Some 3, []) = Some true ∧
  is_fixed chain ("x", Some 2, []) = false ∧
  is_fixed (fs r.2) ("x", Some 2, []) = true.
Proof. by vm_compute. Qed.

End TimeElementFacts.
